(** * A regular-expression compiler and matcher: regex.c and nfa.c

    The development embeds the translation units of the repository:

    - [regex.c]: tokenizer ([itemize_regex]), explicit-concatenation pass
      ([implicit_to_explicit_concatenation]), Shunting-Yard
      ([shunting_yard]) and the driver [parse_regex];
    - [nfa.c]: alphabet, states manager, Thompson fragments
      ([regex_to_nfa]), table construction ([t_nfa_to_nfa]), epsilon
      closures and the bit-mask simulation ([match_nfa]);
    - [main.c]: [print_postfix], [test_strings_stdin] and [main], the
      standard input being the list of its bytes.

    Conventions.
    - A C [char] is an [ascii] (one byte); the cast [(unsigned char)c] used
      to index [char_to_col] is [nat_of_ascii c].
    - A C string is a [string]; a pointer that may be [NULL] is an [option].
    - A heap array together with its element count is a [list]; [malloc]
      and [calloc] are taken to succeed, also for a size of 0.
    - [uint64_t] state sets are [Z] in the range [0, 2^64) with the bit
      operations of [Z]; [uint8_t] state ids are [Z] in [0, 256).
    - Behaviour that C leaves undefined (reading below the fragment stack,
      shifting [1ULL] by 64 or more, indexing outside a table) is an
      explicit [Fault].
    - Loops whose number of iterations is not the length of a list carry
      a fuel; each fuel is proved to be enough ([itemize_loop_tokens],
      [union_over_ok], [closure_fuel_enough], [test_loop_total]).
    - The header nfa.h is not part of the sources at hand.  The two macros
      of it that nfa.c uses, [EPSILON_SYMBOL] and [MAX_STATES], are section
      variables: every statement holds for all their values, under the
      hypotheses it states.  [EPSILON_SYMBOL] stands for the byte
      [(unsigned char)EPSILON_SYMBOL], the index under which
      [new_alphabet] registers column 0.  The counters of the manager are
      unbounded integers and the capacities of the arrays declared in
      that header (states, transitions, symbols) are not modelled. *)

From Stdlib Require Import ZArith List Bool Ascii String Lia Arith
  Permutation.
Import ListNotations.

Local Open Scope Z_scope.

(* ================================================================= *)
(** ** regex.h: tokens *)

Module Regex.

Definition CONCAT_SYMBOL : ascii := "."%char.
Definition KLEENE_STAR_SYMBOL : ascii := "*"%char.
Definition ALTERNATION_SYMBOL : ascii := "|"%char.
Definition LEFT_PARENTHESIS_SYMBOL : ascii := "("%char.
Definition RIGHT_PARENTHESIS_SYMBOL : ascii := ")"%char.
Definition POSITIVE_CLOSURE_SYMBOL : ascii := "+"%char.
Definition OPTIONAL_SYMBOL : ascii := "?"%char.
Definition ESCAPE_SYMBOL : ascii := "\"%char.

Inductive item_type : Type :=
| KLEENE_STAR
| POSITIVE_CLOSURE
| OPTIONAL
| CONCATENATION
| ALTERNATION
| OPERAND
| L_PARENTHESIS
| R_PARENTHESIS.

Definition item_type_eqb (a b : item_type) : bool :=
  match a, b with
  | KLEENE_STAR, KLEENE_STAR
  | POSITIVE_CLOSURE, POSITIVE_CLOSURE
  | OPTIONAL, OPTIONAL
  | CONCATENATION, CONCATENATION
  | ALTERNATION, ALTERNATION
  | OPERAND, OPERAND
  | L_PARENTHESIS, L_PARENTHESIS
  | R_PARENTHESIS, R_PARENTHESIS => true
  | _, _ => false
  end.

Record item : Type := mk_item { value : ascii; type : item_type }.

(** [regex]: [items] is the (possibly [NULL]) array, [size] its count. *)
Record regex : Type := mk_regex { items : option (list item); size : Z }.

(* ================================================================= *)
(** ** regex.c *)

Definition get_precedence (t : item_type) : Z :=
  match t with
  | KLEENE_STAR | POSITIVE_CLOSURE | OPTIONAL => 3
  | CONCATENATION => 2
  | ALTERNATION => 1
  | _ => 0
  end.

Definition should_insert_concat (current next : item) : bool :=
  let left :=
    item_type_eqb (type current) OPERAND ||
    item_type_eqb (type current) R_PARENTHESIS ||
    item_type_eqb (type current) KLEENE_STAR ||
    item_type_eqb (type current) POSITIVE_CLOSURE ||
    item_type_eqb (type current) OPTIONAL in
  let right :=
    item_type_eqb (type next) OPERAND ||
    item_type_eqb (type next) L_PARENTHESIS in
  left && right.

Definition new_item (v : ascii) (t : item_type) : item := mk_item v t.

(** The [switch] of [get_item_type]: the cases are tried in the order of
    the source (the seven case labels are distinct characters). *)
Definition get_item_type (c : ascii) : item_type :=
  if Ascii.eqb c KLEENE_STAR_SYMBOL then KLEENE_STAR
  else if Ascii.eqb c POSITIVE_CLOSURE_SYMBOL then POSITIVE_CLOSURE
  else if Ascii.eqb c OPTIONAL_SYMBOL then OPTIONAL
  else if Ascii.eqb c CONCAT_SYMBOL then CONCATENATION
  else if Ascii.eqb c ALTERNATION_SYMBOL then ALTERNATION
  else if Ascii.eqb c LEFT_PARENTHESIS_SYMBOL then L_PARENTHESIS
  else if Ascii.eqb c RIGHT_PARENTHESIS_SYMBOL then R_PARENTHESIS
  else OPERAND.

(** [str[i]] for an index inside the string. *)
Definition char_at (s : list ascii) (i : nat) : ascii := nth i s zero.

(** The [for] loop of [itemize_regex], with its index [i] and the items
    written so far.  One unit of [fuel] is one iteration; the index grows
    at every iteration, so [len] units are enough (see
    [itemize_loop_tokens]). *)
Fixpoint itemize_loop (fuel : nat) (s : list ascii) (len i : nat)
    (acc : list item) : list item :=
  match fuel with
  | O => acc
  | S fuel' =>
      if (i <? len)%nat then
        let c := char_at s i in
        if Ascii.eqb c ESCAPE_SYMBOL && (i + 1 <? len)%nat then
          itemize_loop fuel' s len (i + 2)
            (acc ++ [new_item (char_at s (i + 1)) OPERAND])
        else
          itemize_loop fuel' s len (i + 1)
            (acc ++ [new_item c (get_item_type c)])
      else acc
  end.

(** [itemize_regex]: [None] is the [NULL] result.  The allocation is taken
    to succeed. *)
Definition itemize_regex (regex_str : option string) : option (list item) :=
  match regex_str with
  | None => None
  | Some str =>
      let s := list_ascii_of_string str in
      let len := List.length s in
      Some (itemize_loop len s len 0 [])
  end.

Definition item_at (l : list item) (i : nat) : item :=
  nth i l (new_item zero OPERAND).

(** The [for] loop of [implicit_to_explicit_concatenation]; it runs [size]
    times, once per unit of [fuel]. *)
Fixpoint concat_loop (fuel : nat) (l : list item) (size i : nat)
    (acc : list item) : list item :=
  match fuel with
  | O => acc
  | S fuel' =>
      let acc1 := acc ++ [item_at l i] in
      let acc2 :=
        if (i <? size - 1)%nat &&
           should_insert_concat (item_at l i) (item_at l (i + 1))
        then acc1 ++ [new_item CONCAT_SYMBOL CONCATENATION]
        else acc1 in
      concat_loop fuel' l size (i + 1) acc2
  end.

Definition implicit_to_explicit_concatenation (its : option (list item))
  : option (list item) :=
  match its with
  | None => None
  | Some l =>
      let size := List.length l in
      if (Z.of_nat size <=? 0) then None
      else Some (concat_loop size l size 0 [])
  end.

Definition is_lparen (it : item) : bool :=
  item_type_eqb (type it) L_PARENTHESIS.

(** The operator [while] loop of [shunting_yard]: the stack is a list with
    its top first, [out] is the output written so far. *)
Fixpoint pop_operators (cur : item_type) (stack out : list item)
  : list item * list item :=
  match stack with
  | [] => ([], out)
  | top :: rest =>
      if negb (is_lparen top) &&
         (get_precedence cur <=? get_precedence (type top))
      then pop_operators cur rest (out ++ [top])
      else (stack, out)
  end.

(** The [while] loop of the [R_PARENTHESIS] case. *)
Fixpoint pop_to_lparen (stack out : list item) : list item * list item :=
  match stack with
  | [] => ([], out)
  | top :: rest =>
      if negb (is_lparen top) then pop_to_lparen rest (out ++ [top])
      else (stack, out)
  end.

(** One iteration of the main loop: [None] is the early [return NULL]. *)
Definition shunting_step (st : list item * list item) (current : item)
  : option (list item * list item) :=
  let '(stack, out) := st in
  match type current with
  | OPERAND => Some (stack, out ++ [current])
  | KLEENE_STAR | POSITIVE_CLOSURE | OPTIONAL
  | CONCATENATION | ALTERNATION =>
      let '(stack', out') := pop_operators (type current) stack out in
      Some (current :: stack', out')
  | L_PARENTHESIS => Some (current :: stack, out)
  | R_PARENTHESIS =>
      let '(stack', out') := pop_to_lparen stack out in
      match stack' with
      | [] => None
      | _ :: rest => Some (rest, out')
      end
  end.

Fixpoint shunting_loop (l : list item) (st : list item * list item)
  : option (list item * list item) :=
  match l with
  | [] => Some st
  | current :: l' =>
      match shunting_step st current with
      | None => None
      | Some st' => shunting_loop l' st'
      end
  end.

(** The final [while (top >= 0)] loop. *)
Fixpoint drain_stack (stack out : list item) : option (list item) :=
  match stack with
  | [] => Some out
  | top :: rest =>
      if is_lparen top then None else drain_stack rest (out ++ [top])
  end.

Definition shunting_yard (its : option (list item)) : option (list item) :=
  match its with
  | None => None
  | Some l =>
      if (Z.of_nat (List.length l) <=? 0) then None
      else
        match shunting_loop l ([], []) with
        | None => None
        | Some (stack, out) => drain_stack stack out
        end
  end.

Definition empty_regex : regex := mk_regex None 0.

Definition parse_regex (regex_str : option string) : regex :=
  match regex_str with
  | None => empty_regex
  | Some _ =>
      match itemize_regex regex_str with
      | None => empty_regex
      | Some step1 =>
          match implicit_to_explicit_concatenation (Some step1) with
          | None => empty_regex
          | Some step2 =>
              match shunting_yard (Some step2) with
              | None => empty_regex
              | Some step3 =>
                  mk_regex (Some step3) (Z.of_nat (List.length step3))
              end
          end
      end
  end.

(** [print_postfix] of main.c prints the [value] of every item. *)
Definition postfix_string (r : regex) : string :=
  match items r with
  | None => EmptyString
  | Some l => string_of_list_ascii (map value (firstn (Z.to_nat (size r)) l))
  end.

End Regex.

Import Regex.

(* ================================================================= *)
(** ** Undefined behaviour and array accesses *)

Inductive fault : Type :=
| StackUnderflow    (* read of the fragment stack below index 0 *)
| StackOverflow     (* write of the fragment stack at MAX_STATES or above *)
| ShiftOutOfRange   (* 1ULL << n with n >= 64 *)
| IndexOutOfRange   (* access outside a table *)
| OutOfFuel.        (* a loop of the model ran out of fuel *)

Inductive result (A : Type) : Type :=
| Ok (a : A)
| Fault (f : fault).

Arguments Ok {A} a.
Arguments Fault {A} f.

Definition bind {A B : Type} (r : result A) (k : A -> result B) : result B :=
  match r with
  | Ok a => k a
  | Fault f => Fault f
  end.

Notation "x <- c1 ;; c2" := (bind c1 (fun x => c2))
  (at level 61, c1 at next level, right associativity).

(** [l[i]] *)
Definition read {A : Type} (l : list A) (i : Z) : result A :=
  if (0 <=? i) && (i <? Z.of_nat (List.length l)) then
    match nth_error l (Z.to_nat i) with
    | Some x => Ok x
    | None => Fault IndexOutOfRange
    end
  else Fault IndexOutOfRange.

Fixpoint store {A : Type} (l : list A) (i : nat) (x : A) : list A :=
  match l, i with
  | [], _ => []
  | _ :: l', O => x :: l'
  | y :: l', S i' => y :: store l' i' x
  end.

(** [l[i] = x] *)
Definition write {A : Type} (l : list A) (i : Z) (x : A) : result (list A) :=
  if (0 <=? i) && (i <? Z.of_nat (List.length l)) then
    Ok (store l (Z.to_nat i) x)
  else Fault IndexOutOfRange.

(** [1ULL << n] for an unsigned [n] *)
Definition shl1 (n : Z) : result Z :=
  if n <? 64 then Ok (Z.shiftl 1 n) else Fault ShiftOutOfRange.

(** [~x] on 64 bits *)
Definition not64 (x : Z) : Z := Z.lxor x (Z.ones 64).

Fixpoint ctz_from (fuel : nat) (i x : Z) : Z :=
  match fuel with
  | O => i
  | S fuel' => if Z.testbit x i then i else ctz_from fuel' (i + 1) x
  end.

(** [__builtin_ctzll(x)] for [x <> 0]: the index of the lowest set bit. *)
Definition ctzll (x : Z) : Z := ctz_from 64 0 x.

(** [(uint8_t)n] *)
Definition to_uint8 (n : Z) : Z := n mod 256.

(* ================================================================= *)
(** ** nfa.c *)

Record alphabet : Type := mk_alphabet {
  char_to_col : list Z;      (* int char_to_col[256] *)
  symbols : list ascii       (* symbols[0 .. symbol_count - 1] *)
}.

Definition symbol_count (a : alphabet) : Z := Z.of_nat (List.length (symbols a)).

(** [a.char_to_col[(unsigned char)c]] *)
Definition col_of (a : alphabet) (c : ascii) : Z :=
  nth (nat_of_ascii c) (char_to_col a) (-1).

Record t_transition : Type := mk_transition {
  from_state : Z;
  symbol : ascii;
  to_state : Z
}.

Record states_manager : Type := mk_manager {
  next_id : Z;
  states : list Z;                    (* states[0 .. states_count - 1] *)
  transitions : list t_transition;    (* transitions[0 .. transitions_count - 1] *)
  manager_alphabet : alphabet
}.

Definition states_count (m : states_manager) : Z :=
  Z.of_nat (List.length (states m)).

(** A Thompson fragment; [end_] is the field [end] of the source. *)
Record t_nfa : Type := mk_t_nfa { start : Z; end_ : Z }.

Record nfa : Type := mk_nfa {
  start_state : Z;
  nfa_states : Z;                      (* the field [states] *)
  accept_states : Z;
  nfa_alphabet : alphabet;             (* the field [alphabet] *)
  nfa_transitions : list (list Z);     (* the field [transitions] *)
  epsilon_closures : list Z
}.

(** Functions that update the manager through a pointer pass it along. *)
Definition State (A : Type) : Type := states_manager -> A * states_manager.

Definition ret {A : Type} (a : A) : State A := fun m => (a, m).

Definition sbind {A B : Type} (c : State A) (k : A -> State B) : State B :=
  fun m => let '(a, m') := c m in k a m'.

Notation "x <~ c1 ;; c2" := (sbind c1 (fun x => c2))
  (at level 61, c1 at next level, right associativity).
Notation "c1 ;;; c2" := (sbind c1 (fun _ => c2))
  (at level 61, right associativity).

Section Nfa.

(** The macros of nfa.h used by nfa.c. *)
Variable EPSILON_SYMBOL : ascii.
Variable MAX_STATES : nat.

Definition new_alphabet : alphabet :=
  mk_alphabet
    (store (repeat (-1) 256) (nat_of_ascii EPSILON_SYMBOL) 0)
    [EPSILON_SYMBOL].

Definition add_symbol (a : alphabet) (sym : ascii) : alphabet :=
  if Ascii.eqb sym EPSILON_SYMBOL then a
  else if negb (col_of a sym =? -1) then a
  else
    let col := symbol_count a in
    mk_alphabet (store (char_to_col a) (nat_of_ascii sym) col)
                (symbols a ++ [sym]).

Definition new_states_manager : states_manager :=
  mk_manager 0 [] [] new_alphabet.

Definition new_state : State Z := fun m =>
  let id := to_uint8 (next_id m) in
  (id, mk_manager (next_id m + 1) (states m ++ [id]) (transitions m)
                  (manager_alphabet m)).

Definition add_transition (from : Z) (sym : ascii) (to : Z) : State unit :=
  fun m =>
    let t := mk_transition from sym to in
    (tt, mk_manager (next_id m) (states m) (transitions m ++ [t])
                    (add_symbol (manager_alphabet m) sym)).

Definition symbol_nfa (sym : ascii) : State t_nfa :=
  s <~ new_state ;;
  e <~ new_state ;;
  add_transition s sym e ;;;
  ret (mk_t_nfa s e).

Definition concat_nfa (a b : t_nfa) : State t_nfa :=
  add_transition (end_ a) EPSILON_SYMBOL (start b) ;;;
  ret (mk_t_nfa (start a) (end_ b)).

Definition union_nfa (a b : t_nfa) : State t_nfa :=
  s <~ new_state ;;
  e <~ new_state ;;
  add_transition s EPSILON_SYMBOL (start a) ;;;
  add_transition s EPSILON_SYMBOL (start b) ;;;
  add_transition (end_ a) EPSILON_SYMBOL e ;;;
  add_transition (end_ b) EPSILON_SYMBOL e ;;;
  ret (mk_t_nfa s e).

Definition positive_closure_nfa (a : t_nfa) : State t_nfa :=
  s <~ new_state ;;
  e <~ new_state ;;
  add_transition s EPSILON_SYMBOL (start a) ;;;
  add_transition (end_ a) EPSILON_SYMBOL (start a) ;;;
  add_transition (end_ a) EPSILON_SYMBOL e ;;;
  ret (mk_t_nfa s e).

Definition kleene_closure_nfa (a : t_nfa) : State t_nfa :=
  r <~ positive_closure_nfa a ;;
  add_transition (start r) EPSILON_SYMBOL (end_ r) ;;;
  ret r.

Definition optional_nfa (a : t_nfa) : State t_nfa :=
  s <~ new_state ;;
  e <~ new_state ;;
  add_transition s EPSILON_SYMBOL (start a) ;;;
  add_transition s EPSILON_SYMBOL e ;;;
  add_transition (end_ a) EPSILON_SYMBOL e ;;;
  ret (mk_t_nfa s e).

(** The fragment stack [t_nfa stack[MAX_STATES]] with its index [top]: a
    list with the top first, [top] being its length minus one. *)
Definition pop (stk : list t_nfa) : result (t_nfa * list t_nfa) :=
  match stk with
  | [] => Fault StackUnderflow
  | f :: stk' => Ok (f, stk')
  end.

Definition push (f : t_nfa) (stk : list t_nfa) : result (list t_nfa) :=
  if (List.length stk <? MAX_STATES)%nat then Ok (f :: stk)
  else Fault StackOverflow.

(** One iteration of the loop of [regex_to_nfa]. *)
Definition thompson_step (st : states_manager * list t_nfa) (current : item)
  : result (states_manager * list t_nfa) :=
  let '(m, stk) := st in
  match type current with
  | OPERAND =>
      let '(f, m') := symbol_nfa (value current) m in
      stk' <- push f stk ;;
      Ok (m', stk')
  | CONCATENATION =>
      p1 <- pop stk ;;
      let '(b, stk1) := p1 in
      p2 <- pop stk1 ;;
      let '(a, stk2) := p2 in
      let '(f, m') := concat_nfa a b m in
      stk' <- push f stk2 ;;
      Ok (m', stk')
  | ALTERNATION =>
      p1 <- pop stk ;;
      let '(b, stk1) := p1 in
      p2 <- pop stk1 ;;
      let '(a, stk2) := p2 in
      let '(f, m') := union_nfa a b m in
      stk' <- push f stk2 ;;
      Ok (m', stk')
  | KLEENE_STAR =>
      p1 <- pop stk ;;
      let '(a, stk1) := p1 in
      let '(f, m') := kleene_closure_nfa a m in
      stk' <- push f stk1 ;;
      Ok (m', stk')
  | POSITIVE_CLOSURE =>
      p1 <- pop stk ;;
      let '(a, stk1) := p1 in
      let '(f, m') := positive_closure_nfa a m in
      stk' <- push f stk1 ;;
      Ok (m', stk')
  | OPTIONAL =>
      p1 <- pop stk ;;
      let '(a, stk1) := p1 in
      let '(f, m') := optional_nfa a m in
      stk' <- push f stk1 ;;
      Ok (m', stk')
  | _ => Ok (m, stk)
  end.

Fixpoint thompson_loop (l : list item) (st : states_manager * list t_nfa)
  : result (states_manager * list t_nfa) :=
  match l with
  | [] => Ok st
  | current :: l' =>
      st' <- thompson_step st current ;;
      thompson_loop l' st'
  end.

(** [r.items[0 .. r.size - 1]] *)
Definition regex_items (r : regex) : list item :=
  match items r with
  | None => []
  | Some l => firstn (Z.to_nat (size r)) l
  end.

(** [transitions[from][col] |= bit] *)
Definition or_entry (tbl : list (list Z)) (from col bit : Z)
  : result (list (list Z)) :=
  row <- read tbl from ;;
  old <- read row col ;;
  row' <- write row col (Z.lor old bit) ;;
  write tbl from row'.

(** The loop of [t_nfa_to_nfa] over the recorded transitions. *)
Fixpoint fill_table (a : alphabet) (ts : list t_transition)
    (tbl : list (list Z)) : result (list (list Z)) :=
  match ts with
  | [] => Ok tbl
  | t :: ts' =>
      let col := col_of a (symbol t) in
      bit <- shl1 (to_state t) ;;
      tbl' <- or_entry tbl (from_state t) col bit ;;
      fill_table a ts' tbl'
  end.

(** The [while (stack)] loop of [epsilon_closure]. *)
Fixpoint closure_loop (fuel : nat) (tbl : list (list Z)) (epsilon_col : Z)
    (closure stack : Z) : result Z :=
  match fuel with
  | O => Fault OutOfFuel
  | S fuel' =>
      if stack =? 0 then Ok closure
      else
        let s := ctzll stack in
        b <- shl1 s ;;
        let stack1 := Z.land stack (not64 b) in
        if negb (Z.land closure b =? 0) then
          closure_loop fuel' tbl epsilon_col closure stack1
        else
          let closure1 := Z.lor closure b in
          row <- read tbl s ;;
          next <- read row epsilon_col ;;
          closure_loop fuel' tbl epsilon_col closure1 (Z.lor stack1 next)
  end.

(** Iterations allowed to the closure loop, more than it can make on
    64-bit words: a state enters [closure] at most once, and between two
    such entries the loop clears at most 64 bits of [stack] (see
    [closure_loop_total] and [closure_fuel_enough]). *)
Definition closure_fuel : nat := 64 * 66 + 1.

(** [epsilon_closure]: the value stored in [epsilon_closures[state]]. *)
Definition epsilon_closure (a : alphabet) (tbl : list (list Z)) (state : Z)
  : result Z :=
  stack <- shl1 state ;;
  let epsilon_col := col_of a EPSILON_SYMBOL in
  closure_loop closure_fuel tbl epsilon_col 0 stack.

(** [calculate_epsilon_closure]: the closures of the states [i], [i + 1],
    ... ([n] of them), in this order. *)
Fixpoint calculate_epsilon_closure (a : alphabet) (tbl : list (list Z))
    (n : nat) (i : Z) : result (list Z) :=
  match n with
  | O => Ok []
  | S n' =>
      c <- epsilon_closure a tbl i ;;
      cs <- calculate_epsilon_closure a tbl n' (i + 1) ;;
      Ok (c :: cs)
  end.

Definition t_nfa_to_nfa (temp_nfa : t_nfa) (manager : states_manager)
  : result nfa :=
  accept <- shl1 (end_ temp_nfa) ;;
  let alpha := manager_alphabet manager in
  let n_states := states_count manager in
  let S := to_uint8 n_states in
  let A := symbol_count alpha in
  let empty := repeat (repeat 0 (Z.to_nat A)) (Z.to_nat S) in
  tbl <- fill_table alpha (transitions manager) empty ;;
  closures <- calculate_epsilon_closure alpha tbl (Z.to_nat n_states) 0 ;;
  Ok (mk_nfa (start temp_nfa) n_states accept alpha tbl closures).

Definition regex_to_nfa (r : regex) : result nfa :=
  st <- thompson_loop (regex_items r) (new_states_manager, []) ;;
  let '(manager, stk) := st in
  p <- pop stk ;;
  t_nfa_to_nfa (fst p) manager.

(** The two inner [while (tmp)] loops of [match_nfa]: the union of
    [f s] over the bits [s] of [tmp], lowest first. *)
Fixpoint union_over (fuel : nat) (f : Z -> result Z) (tmp acc : Z)
  : result Z :=
  match fuel with
  | O => Fault OutOfFuel
  | S fuel' =>
      if tmp =? 0 then Ok acc
      else
        let s := ctzll tmp in
        b <- shl1 s ;;
        v <- f s ;;
        union_over fuel' f (Z.land tmp (not64 b)) (Z.lor acc v)
  end.

(** One iteration of the input loop with a registered column. *)
Definition move (automaton : nfa) (col current : Z) : result Z :=
  next <- union_over 65
            (fun s => row <- read (nfa_transitions automaton) s ;;
                      read row col)
            current 0 ;;
  union_over 65 (fun s => read (epsilon_closures automaton) s) next 0.

Fixpoint match_loop (automaton : nfa) (input : list ascii) (current : Z)
  : result bool :=
  match input with
  | [] => Ok (negb (Z.land current (accept_states automaton) =? 0))
  | c :: input' =>
      let col := col_of (nfa_alphabet automaton) c in
      if col =? -1 then Ok false
      else
        expanded <- move automaton col current ;;
        if expanded =? 0 then Ok false
        else match_loop automaton input' expanded
  end.

(** [match_nfa automaton input input_length], the input being the array
    of its [input_length] characters. *)
Definition match_nfa (automaton : nfa) (input : list ascii) : result bool :=
  current <- read (epsilon_closures automaton) (start_state automaton) ;;
  match_loop automaton input current.

(** The interface of the specification, as main.c composes it. *)
Definition compile (pattern : string) : result nfa :=
  regex_to_nfa (parse_regex (Some pattern)).

Definition matches (pattern input : string) : result bool :=
  automaton <- compile pattern ;;
  match_nfa automaton (list_ascii_of_string input).

End Nfa.

(* ================================================================= *)
(** ** Reference definitions, written from the specification *)

Module Spec.

(** "left can terminate a sub-expression (literal, closing-paren, or any
    unary postfix operator)" *)
Definition can_terminate (t : item_type) : bool :=
  match t with
  | OPERAND | R_PARENTHESIS | KLEENE_STAR | POSITIVE_CLOSURE | OPTIONAL => true
  | _ => false
  end.

(** "right can begin one (literal or opening-paren)" *)
Definition can_begin (t : item_type) : bool :=
  match t with
  | OPERAND | L_PARENTHESIS => true
  | _ => false
  end.

(** The tokenizer of section 4.1: one token per character, an escape
    symbol and the character after it giving one literal, a trailing
    escape symbol giving a literal escape character. *)
Fixpoint tokens (s : list ascii) : list item :=
  match s with
  | [] => []
  | c :: rest =>
      match rest with
      | [] =>
          if Ascii.eqb c ESCAPE_SYMBOL then [new_item ESCAPE_SYMBOL OPERAND]
          else [new_item c (get_item_type c)]
      | d :: rest' =>
          if Ascii.eqb c ESCAPE_SYMBOL then new_item d OPERAND :: tokens rest'
          else new_item c (get_item_type c) :: tokens rest
      end
  end.

(** The expander of section 4.2: every token is kept, and a concatenation
    token follows it exactly when it can terminate a sub-expression and
    its right neighbour can begin one. *)
Fixpoint expand (l : list item) : list item :=
  match l with
  | [] => []
  | x :: rest =>
      match rest with
      | [] => [x]
      | y :: _ =>
          if can_terminate (type x) && can_begin (type y)
          then x :: new_item CONCAT_SYMBOL CONCATENATION :: expand rest
          else x :: expand rest
      end
  end.

(** Parentheses of a token sequence match: scanning left to right with
    [depth] openers pending, no closer arrives at depth 0 and no opener is
    pending at the end. *)
Fixpoint balanced_from (depth : nat) (l : list item) : bool :=
  match l with
  | [] => (depth =? 0)%nat
  | it :: l' =>
      match type it with
      | L_PARENTHESIS => balanced_from (S depth) l'
      | R_PARENTHESIS =>
          match depth with
          | O => false
          | S d => balanced_from d l'
          end
      | _ => balanced_from depth l'
      end
  end.

Definition balanced (l : list item) : bool := balanced_from 0 l.

(** A token sequence with explicit concatenation is a well-formed infix
    expression: scanning left to right, an operand or an opener stands
    where an operand is expected ([expect = true]: at the start, after an
    opener and after a binary operator), a postfix operator, a binary
    operator or a closer stands after a complete operand, parentheses
    match, and the sequence ends after a complete operand. *)
Fixpoint well_formed_from (expect : bool) (depth : nat) (l : list item)
  : bool :=
  match l with
  | [] => negb expect && (depth =? 0)%nat
  | it :: l' =>
      match type it with
      | OPERAND => expect && well_formed_from false depth l'
      | L_PARENTHESIS => expect && well_formed_from true (S depth) l'
      | R_PARENTHESIS =>
          negb expect &&
          match depth with
          | O => false
          | S d => well_formed_from false d l'
          end
      | KLEENE_STAR | POSITIVE_CLOSURE | OPTIONAL =>
          negb expect && well_formed_from false depth l'
      | CONCATENATION | ALTERNATION =>
          negb expect && well_formed_from true depth l'
      end
  end.

(** A pattern is well formed when its tokens, with the implicit
    concatenations made explicit, are. *)
Definition well_formed (pattern : string) : bool :=
  well_formed_from true 0 (expand (tokens (list_ascii_of_string pattern))).

End Spec.

(** The number of opening parentheses held by the operator stack. *)
Definition lparens (stack : list item) : nat :=
  List.length (filter is_lparen stack).

(** The result of [shunting_yard] from a state of its main loop. *)
Definition shunting_from (l : list item) (st : list item * list item)
  : option (list item) :=
  match shunting_loop l st with
  | None => None
  | Some (stack, out) => drain_stack stack out
  end.

Definition is_some {A : Type} (o : option A) : bool :=
  match o with Some _ => true | None => false end.

(** The height of the fragment stack of [regex_to_nfa] after one item,
    from height [h]; [None] when the item pops more than the stack holds. *)
Definition height_step (h : nat) (t : item_type) : option nat :=
  match t with
  | OPERAND => Some (S h)
  | CONCATENATION | ALTERNATION =>
      match h with
      | S (S k) => Some (S k)
      | _ => None
      end
  | KLEENE_STAR | POSITIVE_CLOSURE | OPTIONAL =>
      match h with
      | S k => Some (S k)
      | O => None
      end
  | _ => Some h
  end.

Fixpoint heights (l : list item) (h : nat) : option nat :=
  match l with
  | [] => Some h
  | it :: l' =>
      match height_step h (type it) with
      | None => None
      | Some h' => heights l' h'
      end
  end.

Definition is_operand (it : item) : bool := item_type_eqb (type it) OPERAND.

(** The number of items of [l] that satisfy [p]. *)
Definition count (p : item -> bool) (l : list item) : nat :=
  List.length (filter p l).

Definition operands (l : list item) : nat := count is_operand l.

(** The items for which [regex_to_nfa] allocates two states: all but
    the concatenations and the parentheses. *)
Definition allocates (it : item) : bool :=
  match type it with
  | OPERAND | ALTERNATION | KLEENE_STAR | POSITIVE_CLOSURE | OPTIONAL => true
  | _ => false
  end.

Definition is_binary (it : item) : bool :=
  match type it with
  | CONCATENATION | ALTERNATION => true
  | _ => false
  end.

Definition binops (l : list item) : nat := List.length (filter is_binary l).

(** What the operator stack of [shunting_yard] may hold. *)
Definition stackable (it : item) : bool :=
  match type it with
  | OPERAND | R_PARENTHESIS => false
  | _ => true
  end.

(** The invariant of the main loop of [shunting_yard] on a well-formed
    input: the stack holds operators and as many openers as are pending,
    the output written so far does not underflow a fragment stack, and
    its height is the number of binary operators on hold, plus one after
    a complete operand. *)
Definition shunting_inv (expect : bool) (depth : nat)
    (stack out : list item) : Prop :=
  lparens stack = depth /\
  forallb stackable stack = true /\
  exists h, heights out 0 = Some h /\
            (h + (if expect then 1 else 0) = 1 + binops stack)%nat.

(* ================================================================= *)
(** ** The alphabet invariant *)

(** The column of [c] read off the array [symbols]: the index of [c] in
    it, [-1] when [c] is not there. *)
Fixpoint position (l : list ascii) (c : ascii) : Z :=
  match l with
  | [] => -1
  | x :: l' =>
      if Ascii.eqb x c then 0
      else let p := position l' c in if p =? -1 then -1 else p + 1
  end.

(** Columns in first-seen order: the symbols of [syms] from left to
    right, each at its first occurrence only, after the epsilon symbol. *)
Definition first_seen (epsilon : ascii) (syms : list ascii) : list ascii :=
  fold_left
    (fun acc c => if existsb (Ascii.eqb c) acc then acc else acc ++ [c])
    syms [epsilon].

(** The table [char_to_col] has its 256 entries, no symbol stands in two
    columns, and the entry of every character is its column in
    [symbols]. *)
Definition alphabet_inv (a : alphabet) : Prop :=
  List.length (char_to_col a) = 256%nat /\
  NoDup (symbols a) /\
  forall c, col_of a c = position (symbols a) c.

(** The states of the manager during a compilation: [regex_to_nfa]
    starts from [new_states_manager] and changes the manager by calls of
    [new_state] and [add_transition] only. *)
Inductive reachable (epsilon : ascii) : states_manager -> Prop :=
| reach_new : reachable epsilon (new_states_manager epsilon)
| reach_state (m : states_manager) :
    reachable epsilon m -> reachable epsilon (snd (new_state m))
| reach_transition (m : states_manager) (from : Z) (sym : ascii) (to : Z) :
    reachable epsilon m ->
    reachable epsilon (snd (add_transition epsilon from sym to m)).

(** What an iteration of [regex_to_nfa] does for the item [it] when it
    builds a fragment: the fragments that it pops, the top of the stack
    first, and the constructor that it runs on the manager. *)
Inductive fragment_call (epsilon : ascii) (it : item)
  : list t_nfa -> State t_nfa -> Prop :=
| call_symbol :
    type it = OPERAND ->
    fragment_call epsilon it [] (symbol_nfa epsilon (value it))
| call_concat (a b : t_nfa) :
    type it = CONCATENATION ->
    fragment_call epsilon it [b; a] (concat_nfa epsilon a b)
| call_union (a b : t_nfa) :
    type it = ALTERNATION ->
    fragment_call epsilon it [b; a] (union_nfa epsilon a b)
| call_kleene (a : t_nfa) :
    type it = KLEENE_STAR ->
    fragment_call epsilon it [a] (kleene_closure_nfa epsilon a)
| call_positive (a : t_nfa) :
    type it = POSITIVE_CLOSURE ->
    fragment_call epsilon it [a] (positive_closure_nfa epsilon a)
| call_optional (a : t_nfa) :
    type it = OPTIONAL ->
    fragment_call epsilon it [a] (optional_nfa epsilon a).

(** What the alphabet of a manager [m] is claimed to satisfy: epsilon
    stands in column 0; every symbol of a recorded transition has a
    column, which is the one place of [symbols] that holds it; a
    character has column [k] exactly when [symbols[k]] is that character,
    and column [-1] exactly when it is not in [symbols]; the columns are
    in first-seen order of the transition symbols, epsilon first; adding
    epsilon or a symbol that has a column changes nothing. *)
Definition alphabet_facts (epsilon : ascii) (m : states_manager) : Prop :=
  col_of (manager_alphabet m) epsilon = 0 /\
  nth_error (symbols (manager_alphabet m)) 0 = Some epsilon /\
  (forall t, In t (transitions m) ->
     exists k : nat,
       col_of (manager_alphabet m) (symbol t) = Z.of_nat k /\
       forall k' : nat,
         nth_error (symbols (manager_alphabet m)) k' = Some (symbol t) <->
         k' = k) /\
  (forall (c : ascii) (k : nat),
     col_of (manager_alphabet m) c = Z.of_nat k <->
     nth_error (symbols (manager_alphabet m)) k = Some c) /\
  (forall c : ascii,
     col_of (manager_alphabet m) c = -1 <->
     ~ In c (symbols (manager_alphabet m))) /\
  symbols (manager_alphabet m) =
    first_seen epsilon (map symbol (transitions m)) /\
  add_symbol epsilon (manager_alphabet m) epsilon = manager_alphabet m /\
  (forall c : ascii,
     col_of (manager_alphabet m) c <> -1 ->
     add_symbol epsilon (manager_alphabet m) c = manager_alphabet m).

(* ================================================================= *)
(** ** Well-formed automata *)

(** [x] is a set of states below [n]: a non-negative number with no bit
    at [n] or above. *)
Definition bounded (n x : Z) : Prop :=
  0 <= x /\ forall i, n <= i -> Z.testbit x i = false.

(** The tables of an automaton have the sizes that its fields announce
    and hold sets of its own states only; there are at most 64 states. *)
Definition nfa_wf (a : nfa) : Prop :=
  0 <= nfa_states a <= 64 /\
  Z.of_nat (List.length (nfa_transitions a)) = nfa_states a /\
  Z.of_nat (List.length (epsilon_closures a)) = nfa_states a /\
  0 <= start_state a < nfa_states a /\
  (forall row, In row (nfa_transitions a) ->
     Z.of_nat (List.length row) = symbol_count (nfa_alphabet a) /\
     forall e, In e row -> bounded (nfa_states a) e) /\
  (forall e, In e (epsilon_closures a) -> bounded (nfa_states a) e) /\
  (forall c, col_of (nfa_alphabet a) c = -1 \/
             0 <= col_of (nfa_alphabet a) c < symbol_count (nfa_alphabet a)).

(** The state ids in use are below [next_id], which counts the states. *)
(** A transition table of [n] rows and [cols] columns of state sets. *)
Definition table_wf (n cols : Z) (tbl : list (list Z)) : Prop :=
  Z.of_nat (List.length tbl) = n /\
  forall row, In row tbl ->
    Z.of_nat (List.length row) = cols /\ forall e, In e row -> bounded n e.

Definition fragment_wf (m : states_manager) (f : t_nfa) : Prop :=
  0 <= start f < next_id m /\ 0 <= end_ f < next_id m.

Definition manager_wf (m : states_manager) (stk : list t_nfa) : Prop :=
  next_id m = states_count m /\
  (forall t, In t (transitions m) ->
     0 <= from_state t < next_id m /\ 0 <= to_state t < next_id m) /\
  (forall f, In f stk -> fragment_wf m f).

(** The number of states in a 64-bit set. *)
Definition positions64 : list Z := map Z.of_nat (seq 0 64).

Definition popcount64 (x : Z) : nat :=
  List.length (filter (Z.testbit x) positions64).

(** What bounds the iterations left to the closure loop: a state enters
    [closure] at most once, and each other iteration clears a bit of
    [stack]. *)
Definition closure_measure (closure stack : Z) : nat :=
  (64 - popcount64 closure) * 65 + popcount64 stack.

(** The automaton of the pattern "a" when the epsilon symbol is the
    character of code 0: states 0 and 1, the letter a in column 1. *)
Definition literal_a_nfa : nfa :=
  mk_nfa 0 2 2 (add_symbol zero (new_alphabet zero) "a")
         [[0; 2]; [0; 0]] [1; 2].

(* ================================================================= *)
(** ** The language of the pattern (ab)*c *)

(** The inputs that the regular expression (ab)*c describes: any number
    of repetitions of "ab", then "c". *)
Fixpoint in_ab_star_c (w : list ascii) : bool :=
  match w with
  | [c] => Ascii.eqb c "c"
  | a :: b :: w' => Ascii.eqb a "a" && Ascii.eqb b "b" && in_ab_star_c w'
  | _ => false
  end.

(** One iteration of the input loop of [match_nfa] from the state set
    [current]: [None] is its [return false]. *)
Definition match_step (automaton : nfa) (current : Z) (c : ascii)
  : result (option Z) :=
  let col := col_of (nfa_alphabet automaton) c in
  if col =? -1 then Ok None
  else
    expanded <- move automaton col current ;;
    if expanded =? 0 then Ok None else Ok (Some expanded).

Definition all_ascii : list ascii := map ascii_of_nat (seq 0 256).

Definition option_eqb (x y : option Z) : bool :=
  match x, y with
  | Some u, Some v => u =? v
  | None, None => true
  | _, _ => false
  end.

Definition step_is (automaton : nfa) (current : Z) (c : ascii)
    (expected : option Z) : bool :=
  match match_step automaton current c with
  | Ok r => option_eqb r expected
  | Fault _ => false
  end.

(** The state sets that the automaton of (ab)*c goes through, and its
    moves between them: [113] at the start, [6] after an a, [105] after
    "ab", [128] after the final c.  The check runs the automaton on every
    character other than the epsilon symbol. *)
Definition ab_star_c_table (epsilon : ascii) (max_states : nat) : bool :=
  match compile epsilon max_states "(ab)*c" with
  | Fault _ => false
  | Ok automaton =>
      match read (epsilon_closures automaton) (start_state automaton) with
      | Ok start_set => start_set =? 113
      | Fault _ => false
      end &&
      (Z.land 113 (accept_states automaton) =? 0) &&
      (Z.land 6 (accept_states automaton) =? 0) &&
      (Z.land 105 (accept_states automaton) =? 0) &&
      negb (Z.land 128 (accept_states automaton) =? 0) &&
      forallb
        (fun c =>
           Ascii.eqb c epsilon ||
           (step_is automaton 113 c
              (if Ascii.eqb c "a" then Some 6
               else if Ascii.eqb c "c" then Some 128 else None) &&
            step_is automaton 105 c
              (if Ascii.eqb c "a" then Some 6
               else if Ascii.eqb c "c" then Some 128 else None) &&
            step_is automaton 6 c
              (if Ascii.eqb c "b" then Some 105 else None) &&
            step_is automaton 128 c None))
        all_ascii
  end.

(* ================================================================= *)
(** ** What Shunting-Yard moves *)

Definition is_paren (it : item) : bool :=
  match type it with
  | L_PARENTHESIS | R_PARENTHESIS => true
  | _ => false
  end.

Definition not_paren (it : item) : bool := negb (is_paren it).

(** The items that wait on the operator stack, the opening parentheses
    left out. *)
Definition pending (stack : list item) : list item :=
  filter (fun it => negb (is_lparen it)) stack.

Definition not_epsilon (epsilon c : ascii) : bool :=
  negb (Ascii.eqb c epsilon).

(* ================================================================= *)
(** ** Runs of an automaton *)

(** [transitions[s][col]], the empty set when [s] or [col] is outside the
    table. *)
Definition entry (tbl : list (list Z)) (s col : Z) : Z :=
  match read tbl s with
  | Ok row => match read row col with Ok e => e | Fault _ => 0 end
  | Fault _ => 0
  end.

(** Some transition of [ts] leads from [s] to [t] under the column
    [col]. *)
Definition recorded (a : alphabet) (ts : list t_transition) (s col t : Z)
  : bool :=
  existsb (fun tr => (from_state tr =? s) && (col_of a (symbol tr) =? col) &&
                     (to_state tr =? t)) ts.

(** The states that are reached from [s] through entries of the column
    [col] alone. *)
Inductive path (tbl : list (list Z)) (col s : Z) : Z -> Prop :=
| path_here : path tbl col s s
| path_next (u t : Z) :
    path tbl col s u ->
    Z.testbit (entry tbl u col) t = true ->
    path tbl col s t.

(** The invariant of the loop of [epsilon_closure] for the state [s0]:
    [closure] and [stack] hold states reached from [s0], one of them
    holds [s0], and every successor of a state of [closure] is in one of
    them. *)
Definition closure_inv (tbl : list (list Z)) (epsilon_col s0 : Z)
    (closure stack : Z) : Prop :=
  (forall t, Z.testbit closure t = true \/ Z.testbit stack t = true ->
             path tbl epsilon_col s0 t) /\
  (Z.testbit closure s0 = true \/ Z.testbit stack s0 = true) /\
  (forall u t, Z.testbit closure u = true ->
               Z.testbit (entry tbl u epsilon_col) t = true ->
               Z.testbit closure t = true \/ Z.testbit stack t = true).

(** [epsilon_closures[s]], the empty set outside the array. *)
Definition closure_of (a : nfa) (s : Z) : Z :=
  match read (epsilon_closures a) s with
  | Ok c => c
  | Fault _ => 0
  end.

(** A run of the automaton on a word: for each character [c], an entry
    of the column of [c], then any number of entries of the column of
    the epsilon symbol.  A character without a column has no run. *)
Inductive run (epsilon : ascii) (a : nfa) : list ascii -> Z -> Z -> Prop :=
| run_nil (s : Z) : run epsilon a [] s s
| run_cons (c : ascii) (w : list ascii) (s u v t : Z) :
    col_of (nfa_alphabet a) c <> -1 ->
    Z.testbit (entry (nfa_transitions a) s (col_of (nfa_alphabet a) c)) u
      = true ->
    path (nfa_transitions a) (col_of (nfa_alphabet a) epsilon) u v ->
    run epsilon a w v t ->
    run epsilon a (c :: w) s t.

(** The automaton accepts [w]: a run on [w] leads from a state reached
    from the start state through epsilon entries to an accepting
    state. *)
Definition accepts (epsilon : ascii) (a : nfa) (w : list ascii) : Prop :=
  exists s t,
    path (nfa_transitions a) (col_of (nfa_alphabet a) epsilon)
         (start_state a) s /\
    run epsilon a w s t /\
    Z.testbit (accept_states a) t = true.

(** The closures stored in the automaton are the sets of states reached
    through epsilon entries. *)
Definition closures_exact (epsilon : ascii) (a : nfa) : Prop :=
  forall s, 0 <= s < nfa_states a ->
    forall t, Z.testbit (closure_of a s) t = true <->
              path (nfa_transitions a) (col_of (nfa_alphabet a) epsilon) s t.

(* ================================================================= *)
(** ** The expression of a postfix sequence and its language *)

(** The expressions that [regex_to_nfa] has a fragment constructor for. *)
Inductive re : Type :=
| Lit (c : ascii)
| Cat (a b : re)
| Alt (a b : re)
| Star (a : re)
| Plus (a : re)
| Opt (a : re).

(** The word that a transition on [c] reads: [c] itself, and nothing
    when [c] is the epsilon symbol. *)
Definition label (epsilon c : ascii) : list ascii :=
  if Ascii.eqb c epsilon then [] else [c].

(** Concatenations of any number of words of [L]. *)
Inductive star (L : list ascii -> Prop) : list ascii -> Prop :=
| star_nil : star L []
| star_more (u v : list ascii) : L u -> star L v -> star L (u ++ v).

(** The language of an expression.  A literal is the word of its
    transition: [symbol_nfa] labels it with the character, which is the
    epsilon symbol when the character is [EPSILON_SYMBOL]. *)
Fixpoint lang (epsilon : ascii) (e : re) (w : list ascii) : Prop :=
  match e with
  | Lit c => w = label epsilon c
  | Cat a b => exists u v, w = u ++ v /\ lang epsilon a u /\ lang epsilon b v
  | Alt a b => lang epsilon a w \/ lang epsilon b w
  | Star a => star (lang epsilon a) w
  | Plus a =>
      exists u v, w = u ++ v /\ lang epsilon a u /\ star (lang epsilon a) v
  | Opt a => w = [] \/ lang epsilon a w
  end.

(** The expressions of the fragments on the stack of [regex_to_nfa]: one
    iteration pops and pushes expressions as [thompson_step] pops and
    pushes fragments, with the constructor of the item. *)
Definition ast_step (es : list re) (it : item) : option (list re) :=
  match type it with
  | OPERAND => Some (Lit (value it) :: es)
  | CONCATENATION =>
      match es with
      | b :: a :: es' => Some (Cat a b :: es')
      | _ => None
      end
  | ALTERNATION =>
      match es with
      | b :: a :: es' => Some (Alt a b :: es')
      | _ => None
      end
  | KLEENE_STAR =>
      match es with
      | a :: es' => Some (Star a :: es')
      | _ => None
      end
  | POSITIVE_CLOSURE =>
      match es with
      | a :: es' => Some (Plus a :: es')
      | _ => None
      end
  | OPTIONAL =>
      match es with
      | a :: es' => Some (Opt a :: es')
      | _ => None
      end
  | _ => Some es
  end.

Fixpoint ast_loop (l : list item) (es : list re) : option (list re) :=
  match l with
  | [] => Some es
  | it :: l' =>
      match ast_step es it with
      | None => None
      | Some es' => ast_loop l' es'
      end
  end.

(** A walk through recorded transitions from a state to a state, with
    the word that it reads. *)
Inductive walk (epsilon : ascii) (ts : list t_transition)
  : Z -> list ascii -> Z -> Prop :=
| walk_nil (s : Z) : walk epsilon ts s [] s
| walk_cons (tr : t_transition) (w : list ascii) (t : Z) :
    In tr ts ->
    walk epsilon ts (to_state tr) w t ->
    walk epsilon ts (from_state tr) (label epsilon (symbol tr) ++ w) t.

(** No transition leads out of the states [lo .. hi - 1]. *)
Definition closed (ts : list t_transition) (lo hi : Z) : Prop :=
  forall tr, In tr ts -> lo <= from_state tr < hi -> lo <= to_state tr < hi.

(** The fragment [f] owns the states [lo .. hi - 1] and stands for the
    expression [e]: the walks from its start to its end read the words
    of [e]. *)
Definition frag_ok (epsilon : ascii) (ts : list t_transition) (lo hi : Z)
    (f : t_nfa) (e : re) : Prop :=
  lo <= start f < hi /\ lo <= end_ f < hi /\
  closed ts lo hi /\
  forall w, walk epsilon ts (start f) w (end_ f) <-> lang epsilon e w.

(** The fragments of the stack, the top first, own consecutive ranges of
    states, from [hi] down to 0. *)
Fixpoint stack_ok (epsilon : ascii) (ts : list t_transition)
    (fs : list t_nfa) (es : list re) (hi : Z) : Prop :=
  match fs, es with
  | [], [] => hi = 0
  | f :: fs', e :: es' =>
      exists lo, frag_ok epsilon ts lo hi f e /\ stack_ok epsilon ts fs' es' lo
  | _, _ => False
  end.

(** What the loop of [regex_to_nfa] keeps: the manager is well formed
    and the fragments of the stack stand for the expressions [es]. *)
Definition thompson_inv (epsilon : ascii) (m : states_manager)
    (fs : list t_nfa) (es : list re) : Prop :=
  manager_wf m fs /\
  stack_ok epsilon (transitions m) fs es (next_id m).

(* ================================================================= *)
(** ** Infix expressions *)

(** The infix expressions that [shunting_yard] reads, with the levels of
    [get_precedence]: level 3 is an operand, a group in parentheses or a
    level 3 expression under a postfix operator; level 2 is a
    concatenation of level 3 expressions; level 1 is an alternation of
    level 2 expressions.  The binary operators group to the left. *)
Inductive parses : Z -> list item -> re -> Prop :=
| parses_operand (it : item) :
    type it = OPERAND -> parses 3 [it] (Lit (value it))
| parses_group (lp rp : item) (l : list item) (e : re) :
    type lp = L_PARENTHESIS -> type rp = R_PARENTHESIS ->
    parses 1 l e -> parses 3 (lp :: l ++ [rp]) e
| parses_star (l : list item) (e : re) (op : item) :
    parses 3 l e -> type op = KLEENE_STAR -> parses 3 (l ++ [op]) (Star e)
| parses_plus (l : list item) (e : re) (op : item) :
    parses 3 l e -> type op = POSITIVE_CLOSURE ->
    parses 3 (l ++ [op]) (Plus e)
| parses_optional (l : list item) (e : re) (op : item) :
    parses 3 l e -> type op = OPTIONAL -> parses 3 (l ++ [op]) (Opt e)
| parses_concat (l1 l2 : list item) (e1 e2 : re) (op : item) :
    parses 2 l1 e1 -> type op = CONCATENATION -> parses 3 l2 e2 ->
    parses 2 (l1 ++ op :: l2) (Cat e1 e2)
| parses_alternation (l1 l2 : list item) (e1 e2 : re) (op : item) :
    parses 1 l1 e1 -> type op = ALTERNATION -> parses 2 l2 e2 ->
    parses 1 (l1 ++ op :: l2) (Alt e1 e2)
| parses_level3 (l : list item) (e : re) : parses 3 l e -> parses 2 l e
| parses_level2 (l : list item) (e : re) : parses 2 l e -> parses 1 l e.

(** The operator stack stops the [while] loop of an operator of
    precedence [p]: it is empty, or its top is an opening parenthesis or
    an operator of lower precedence. *)
Definition stops (p : Z) (stack : list item) : Prop :=
  match stack with
  | [] => True
  | top :: _ => is_lparen top = true \/ get_precedence (type top) < p
  end.

(* ================================================================= *)
(** ** main.c: test_strings_stdin *)

Definition LF : ascii := "010"%char.
Definition CR : ascii := "013"%char.

(** The characters that [fgets] stores when it may store [n] of them,
    and what it leaves in the stream: it stops after a newline and at
    the end of the stream. *)
Fixpoint fgets_chars (n : nat) (stream : list ascii)
  : list ascii * list ascii :=
  match n with
  | O => ([], stream)
  | S n' =>
      match stream with
      | [] => ([], [])
      | c :: rest =>
          if Ascii.eqb c LF then ([c], rest)
          else let '(l, r) := fgets_chars n' rest in (c :: l, r)
      end
  end.

(** [fgets(buf, size, stdin)] on the bytes left in the standard input:
    [None] is the [NULL] of the end of the stream; otherwise the
    characters stored in [buf] before the terminating zero, and what is
    left of the stream.  Read errors are not modelled. *)
Definition fgets (size : nat) (stream : list ascii)
  : option (list ascii * list ascii) :=
  match stream with
  | [] => None
  | _ :: _ => Some (fgets_chars (size - 1) stream)
  end.

(** [strlen(buf)] for a buffer that holds [buf] and then a zero. *)
Fixpoint strlen (buf : list ascii) : nat :=
  match buf with
  | [] => O
  | c :: rest => if Ascii.eqb c zero then O else S (strlen rest)
  end.

(** [strcspn(buf, reject)] *)
Fixpoint strcspn (buf reject : list ascii) : nat :=
  match buf with
  | [] => O
  | c :: rest =>
      if Ascii.eqb c zero || existsb (Ascii.eqb c) reject then O
      else S (strcspn rest reject)
  end.

(** The input that [test_strings_stdin] passes to [match_nfa] for the
    buffer [buf]: after the assignment of a zero at the index
    [strcspn(buf, "\r\n")], the [strlen(buf)] characters of [buf]. *)
Definition tested (buf : list ascii) : list ascii :=
  let buf' := firstn (strcspn buf [CR; LF]) buf in
  firstn (strlen buf') buf'.

(** The character that [printf("%d", result ? 1 : 0)] prints. *)
Definition digit (b : bool) : ascii := if b then "1"%char else "0"%char.

(** The [while (fgets ...)] loop of [test_strings_stdin]: the characters
    that it prints.  Each iteration reads at least one character, so a
    fuel above the length of the stream is enough (see
    [test_loop_total]). *)
Fixpoint test_loop (fuel : nat) (n : nfa) (stream : list ascii)
  : result (list ascii) :=
  match fuel with
  | O => Fault OutOfFuel
  | S fuel' =>
      match fgets 1024 stream with
      | None => Ok []
      | Some (buf, rest) =>
          res <- match_nfa n (tested buf) ;;
          out <- test_loop fuel' n rest ;;
          Ok (digit res :: out)
      end
  end.

(** [test_strings_stdin(regex_str)]: what it prints for the bytes
    [stream] of the standard input.  It does not look at whether
    [parse_regex] failed. *)
Definition test_strings_stdin (epsilon : ascii) (max_states : nat)
    (regex_str : string) (stream : list ascii) : result (list ascii) :=
  let r := parse_regex (Some regex_str) in
  n <- regex_to_nfa epsilon max_states r ;;
  out <- test_loop (S (List.length stream)) n stream ;;
  Ok (out ++ [LF]).

(** A line of the input without a zero character, a carriage return or
    a newline. *)
Definition plain (l : list ascii) : Prop :=
  ~ In zero l /\ ~ In CR l /\ ~ In LF l.

(* ================================================================= *)
(** ** main.c: print_postfix and main *)

(** The character of an operator or of a parenthesis (regex.h). *)
Definition symbol_of (t : item_type) : ascii :=
  match t with
  | KLEENE_STAR => KLEENE_STAR_SYMBOL
  | POSITIVE_CLOSURE => POSITIVE_CLOSURE_SYMBOL
  | OPTIONAL => OPTIONAL_SYMBOL
  | CONCATENATION => CONCAT_SYMBOL
  | ALTERNATION => ALTERNATION_SYMBOL
  | L_PARENTHESIS => LEFT_PARENTHESIS_SYMBOL
  | R_PARENTHESIS => RIGHT_PARENTHESIS_SYMBOL
  | OPERAND => zero
  end.

(** An item as [itemize_regex] and [implicit_to_explicit_concatenation]
    make it: an operand, or the character of its type. *)
Definition canonical (it : item) : Prop :=
  type it = OPERAND \/ value it = symbol_of (type it).

(** The postfix notation of an expression. *)
Fixpoint postfix (e : re) : list ascii :=
  match e with
  | Lit c => [c]
  | Cat a b => postfix a ++ postfix b ++ [CONCAT_SYMBOL]
  | Alt a b => postfix a ++ postfix b ++ [ALTERNATION_SYMBOL]
  | Star a => postfix a ++ [KLEENE_STAR_SYMBOL]
  | Plus a => postfix a ++ [POSITIVE_CLOSURE_SYMBOL]
  | Opt a => postfix a ++ [OPTIONAL_SYMBOL]
  end.

(** The postfix notations of a stack of expressions, the bottom first. *)
Definition postfixes (es : list re) : list ascii :=
  List.concat (map postfix (rev es)).

(** What [print_postfix] prints: the value of every item, then a
    newline. *)
Definition print_postfix (r : regex) : list ascii :=
  list_ascii_of_string (postfix_string r) ++ [LF].

(** What a run of [main] leaves: its return value and what it printed on
    the standard output and on the standard error. *)
Record outcome : Type := mk_outcome {
  exit_code : Z;
  stdout : list ascii;
  stderr : list ascii
}.

(** [fprintf(stderr, "Usage: %s -r | -t\n", argv[0])] *)
Definition usage (argv0 : string) : list ascii :=
  list_ascii_of_string ("Usage: " ++ argv0 ++ " -r | -t") ++ [LF].

(** [main]: [argv0] is [argv[0]], [opt] is what the first call of
    [getopt(argc, argv, "rt")] returns (every case of the [switch]
    returns, so there is no second call) and [stream] holds the bytes of
    the standard input.  [getopt] itself is not modelled: [stderr] holds
    what [main] prints, not the diagnostic that [getopt] prints before
    it returns for an option that it does not know. *)
Definition main (epsilon : ascii) (max_states : nat) (argv0 : string)
    (opt : Z) (stream : list ascii) : result outcome :=
  if opt =? -1 then Ok (mk_outcome 1 [] (usage argv0))
  else if opt =? Z.of_nat (nat_of_ascii "r") then
    match fgets 1024 stream with
    | None => Ok (mk_outcome 1 [] [])
    | Some (buf, _) =>
        let regex_str := string_of_list_ascii (tested buf) in
        Ok (mk_outcome 0 (print_postfix (parse_regex (Some regex_str))) [])
    end
  else if opt =? Z.of_nat (nat_of_ascii "t") then
    match fgets 1024 stream with
    | None => Ok (mk_outcome 1 [] [])
    | Some (buf, rest) =>
        let regex_str := string_of_list_ascii (tested buf) in
        out <- test_strings_stdin epsilon max_states regex_str rest ;;
        Ok (mk_outcome 0 out [])
    end
  else Ok (mk_outcome 1 [] (usage argv0)).

(* ================================================================= *)
(** ** The tokenizer *)

Lemma char_at_app (pre suf : list ascii) (k : nat) :
  char_at (pre ++ suf) (List.length pre + k) = char_at suf k.
Proof.
  unfold char_at. rewrite app_nth2 by lia. f_equal. lia.
Qed.

Lemma tokens_escape_operand : get_item_type ESCAPE_SYMBOL = OPERAND.
Proof. reflexivity. Qed.

(** The index loop started at the end of [pre] appends the tokens of the
    rest of the string; as many iterations as characters left suffice. *)
Lemma itemize_loop_tokens (suf : list ascii) :
  forall (fuel : nat) (pre : list ascii) (acc : list item),
    (List.length suf <= fuel)%nat ->
    itemize_loop fuel (pre ++ suf) (List.length (pre ++ suf))
      (List.length pre) acc = acc ++ Spec.tokens suf.
Proof.
  remember (List.length suf) as n eqn:Hn.
  revert suf Hn.
  induction n as [n IH] using lt_wf_ind.
  intros suf Hn fuel pre acc Hfuel.
  destruct suf as [|c rest].
  - destruct fuel; simpl.
    + now rewrite app_nil_r.
    + rewrite app_nil_r, Nat.ltb_irrefl. now rewrite app_nil_r.
  - simpl in Hn. destruct fuel as [|fuel]; [lia|].
    cbn [itemize_loop].
    assert (Hlt : (List.length pre <? List.length (pre ++ c :: rest))%nat = true).
    { apply Nat.ltb_lt. rewrite length_app. simpl. lia. }
    rewrite Hlt.
    assert (Hc : char_at (pre ++ c :: rest) (List.length pre) = c).
    { pose proof (char_at_app pre (c :: rest) 0) as H.
      rewrite Nat.add_0_r in H. exact H. }
    rewrite Hc.
    destruct rest as [|d rest'].
    + assert (Hlast : (List.length pre + 1 <? List.length (pre ++ [c]))%nat = false).
      { apply Nat.ltb_ge. rewrite length_app. simpl. lia. }
      rewrite Hlast, andb_false_r.
      replace (pre ++ [c]) with ((pre ++ [c]) ++ []) by apply app_nil_r.
      replace (List.length pre + 1)%nat with (List.length (pre ++ [c]))
        by (rewrite length_app; simpl; lia).
      rewrite (IH 0%nat) with (suf := []) by (simpl; lia).
      rewrite app_nil_r. cbn [Spec.tokens].
      destruct (Ascii.eqb c ESCAPE_SYMBOL) eqn:E; [|reflexivity].
      apply Ascii.eqb_eq in E. subst c. reflexivity.
    + assert (Hnext : (List.length pre + 1 <? List.length (pre ++ c :: d :: rest'))%nat = true).
      { apply Nat.ltb_lt. rewrite length_app. simpl. lia. }
      rewrite Hnext, andb_true_r.
      cbn [Spec.tokens].
      destruct (Ascii.eqb c ESCAPE_SYMBOL) eqn:E.
      * rewrite (char_at_app pre (c :: d :: rest') 1). cbn [char_at nth].
        replace (pre ++ c :: d :: rest') with ((pre ++ [c; d]) ++ rest')
          by (rewrite <- app_assoc; reflexivity).
        replace (List.length pre + 2)%nat with (List.length (pre ++ [c; d]))
          by (rewrite length_app; simpl; lia).
        rewrite (IH (List.length rest')) by (simpl in *; lia).
        rewrite <- app_assoc. reflexivity.
      * replace (pre ++ c :: d :: rest') with ((pre ++ [c]) ++ d :: rest')
          by (rewrite <- app_assoc; reflexivity).
        replace (List.length pre + 1)%nat with (List.length (pre ++ [c]))
          by (rewrite length_app; simpl; lia).
        rewrite (IH (List.length (d :: rest'))) by (simpl in *; lia).
        rewrite <- app_assoc. reflexivity.
Qed.

Lemma itemize_regex_tokens (str : string) :
  itemize_regex (Some str) = Some (Spec.tokens (list_ascii_of_string str)).
Proof.
  unfold itemize_regex. f_equal.
  apply (itemize_loop_tokens (list_ascii_of_string str) _ [] []).
  simpl. lia.
Qed.

(* ================================================================= *)
(** ** The concatenation expander *)

Lemma should_insert_concat_spec (current next : item) :
  should_insert_concat current next =
  Spec.can_terminate (type current) && Spec.can_begin (type next).
Proof.
  unfold should_insert_concat.
  destruct (type current), (type next); reflexivity.
Qed.

Lemma item_at_app (pre suf : list item) (k : nat) :
  item_at (pre ++ suf) (List.length pre + k) = item_at suf k.
Proof.
  unfold item_at. rewrite app_nth2 by lia. f_equal. lia.
Qed.

Lemma concat_loop_expand (suf : list item) :
  forall (pre acc : list item),
    concat_loop (List.length suf) (pre ++ suf) (List.length (pre ++ suf))
      (List.length pre) acc = acc ++ Spec.expand suf.
Proof.
  induction suf as [|x rest IH]; intros pre acc.
  - simpl. now rewrite app_nil_r.
  - cbn [List.length concat_loop].
    assert (Hx : item_at (pre ++ x :: rest) (List.length pre) = x).
    { pose proof (item_at_app pre (x :: rest) 0) as H.
      rewrite Nat.add_0_r in H. exact H. }
    rewrite Hx, (item_at_app pre (x :: rest) 1).
    replace (pre ++ x :: rest) with ((pre ++ [x]) ++ rest)
      by (rewrite <- app_assoc; reflexivity).
    replace (List.length pre + 1)%nat with (List.length (pre ++ [x]))
      by (rewrite length_app; simpl; lia).
    rewrite IH.
    destruct rest as [|y rest'].
    + assert (H : (List.length pre <? List.length ((pre ++ [x]) ++ []) - 1)%nat = false).
      { apply Nat.ltb_ge. rewrite !length_app. simpl. lia. }
      rewrite H. simpl. now rewrite app_nil_r.
    + assert (H : (List.length pre <? List.length ((pre ++ [x]) ++ y :: rest') - 1)%nat = true).
      { apply Nat.ltb_lt. rewrite !length_app. simpl. lia. }
      rewrite H, andb_true_l. cbn [item_at nth Spec.expand].
      rewrite should_insert_concat_spec.
      destruct (Spec.can_terminate (type x) && Spec.can_begin (type y));
        rewrite <- ?app_assoc; reflexivity.
Qed.

(* ================================================================= *)
(** ** Shunting-Yard and parentheses *)

Lemma drain_stack_some (stack : list item) :
  forall out, is_some (drain_stack stack out) = (lparens stack =? 0)%nat.
Proof.
  unfold lparens.
  induction stack as [|top rest IH]; intros out; simpl; [reflexivity|].
  destruct (is_lparen top); simpl; [reflexivity|apply IH].
Qed.

Lemma pop_operators_lparens (cur : item_type) (stack : list item) :
  forall out, lparens (fst (pop_operators cur stack out)) = lparens stack.
Proof.
  unfold lparens.
  induction stack as [|top rest IH]; intros out; simpl; [reflexivity|].
  destruct (is_lparen top) eqn:E; simpl.
  - now rewrite E.
  - destruct (get_precedence cur <=? get_precedence (type top)); simpl.
    + apply IH.
    + now rewrite E.
Qed.

(** The closing-parenthesis loop stops on the topmost opener, if any. *)
Lemma pop_to_lparen_shape (stack : list item) :
  forall out,
    match fst (pop_to_lparen stack out) with
    | [] => lparens stack = 0%nat
    | top :: rest => is_lparen top = true /\ lparens stack = S (lparens rest)
    end.
Proof.
  unfold lparens.
  induction stack as [|top rest IH]; intros out; simpl; [reflexivity|].
  destruct (is_lparen top) eqn:E; simpl.
  - rewrite E. simpl. auto.
  - apply IH.
Qed.

(** Shunting-Yard from any loop state succeeds exactly when the rest of
    the input is balanced against the openers on the stack. *)
Lemma shunting_from_balanced (l : list item) :
  forall stack out,
    is_some (shunting_from l (stack, out)) =
    Spec.balanced_from (lparens stack) l.
Proof.
  unfold shunting_from.
  induction l as [|it l IH]; intros stack out.
  - simpl. apply drain_stack_some.
  - cbn [shunting_loop Spec.balanced_from shunting_step].
    destruct (type it) eqn:T;
      try (destruct (pop_operators (type it) stack out) as [stack' out'] eqn:P;
           rewrite T in P; rewrite P; cbn iota beta;
           rewrite IH; f_equal;
           pose proof (pop_operators_lparens (type it) stack out) as H;
           rewrite T, P in H; simpl in H;
           unfold lparens in *; simpl; unfold is_lparen at 1; rewrite T;
           simpl; exact H).
    + rewrite IH. reflexivity.
    + rewrite IH. f_equal. unfold lparens. simpl.
      unfold is_lparen at 1. rewrite T. reflexivity.
    + pose proof (pop_to_lparen_shape stack out) as H.
      destruct (pop_to_lparen stack out) as [stack' out'].
      simpl in H. destruct stack' as [|top rest].
      * rewrite H. reflexivity.
      * destruct H as [_ H]. rewrite H, IH. reflexivity.
Qed.

Lemma shunting_yard_balanced (l : list item) :
  is_some (shunting_yard (Some l)) =
  negb (Nat.eqb (List.length l) 0) && Spec.balanced l.
Proof.
  unfold shunting_yard.
  destruct l as [|it l]; [reflexivity|].
  replace (Z.of_nat (List.length (it :: l)) <=? 0) with false
    by (symmetry; apply Z.leb_gt; simpl; lia).
  pose proof (shunting_from_balanced (it :: l) [] []) as H.
  unfold shunting_from in H. exact H.
Qed.

(** The expander adds concatenation tokens only: it leaves the balance of
    parentheses as it is. *)
Lemma balanced_expand (l : list item) :
  forall depth,
    Spec.balanced_from depth (Spec.expand l) = Spec.balanced_from depth l.
Proof.
  induction l as [|x rest IH]; intros depth; [reflexivity|].
  destruct rest as [|y rest'].
  - reflexivity.
  - cbn [Spec.expand].
    destruct (Spec.can_terminate (type x) && Spec.can_begin (type y)).
    + cbn [Spec.balanced_from]. cbn [type new_item].
      destruct (type x); try destruct depth; try reflexivity; apply IH.
    + cbn [Spec.balanced_from].
      destruct (type x); try destruct depth; try reflexivity; apply IH.
Qed.

Lemma expand_nil (l : list item) : Spec.expand l = [] -> l = [].
Proof.
  destruct l as [|x [|y rest]]; simpl; try congruence.
  destruct (Spec.can_terminate (type x) && Spec.can_begin (type y)); congruence.
Qed.

Lemma implicit_to_explicit_concatenation_expand (l : list item) :
  implicit_to_explicit_concatenation (Some l) =
  match l with [] => None | _ :: _ => Some (Spec.expand l) end.
Proof.
  unfold implicit_to_explicit_concatenation.
  destruct l as [|x rest]; [reflexivity|].
  replace (Z.of_nat (List.length (x :: rest)) <=? 0) with false
    by (symmetry; apply Z.leb_gt; simpl; lia).
  f_equal. apply (concat_loop_expand (x :: rest) [] []).
Qed.

(** [parse_regex] in terms of the reference stages. *)
Lemma parse_regex_stages (str : string) :
  parse_regex (Some str) =
  match Spec.tokens (list_ascii_of_string str) with
  | [] => empty_regex
  | toks =>
      match shunting_yard (Some (Spec.expand toks)) with
      | None => empty_regex
      | Some post => mk_regex (Some post) (Z.of_nat (List.length post))
      end
  end.
Proof.
  unfold parse_regex.
  rewrite itemize_regex_tokens, implicit_to_explicit_concatenation_expand.
  destruct (Spec.tokens (list_ascii_of_string str)); reflexivity.
Qed.

Lemma parse_regex_fails_iff (str : string) :
  parse_regex (Some str) = empty_regex <->
  str = EmptyString \/
  Spec.balanced (Spec.tokens (list_ascii_of_string str)) = false.
Proof.
  rewrite parse_regex_stages.
  destruct str as [|c str'].
  - simpl. tauto.
  - destruct (Spec.tokens (list_ascii_of_string (String c str')))
      as [|t toks] eqn:Htoks.
    + exfalso. simpl in Htoks.
      destruct (list_ascii_of_string str');
        destruct (Ascii.eqb c ESCAPE_SYMBOL); discriminate.
    + pose proof (shunting_yard_balanced (Spec.expand (t :: toks))) as H.
      unfold Spec.balanced in *. rewrite balanced_expand in H.
      assert (Hne : Nat.eqb (List.length (Spec.expand (t :: toks))) 0 = false).
      { destruct (Spec.expand (t :: toks)) eqn:E; [|reflexivity].
        apply expand_nil in E. discriminate. }
      rewrite Hne in H. cbn [negb] in H. rewrite andb_true_l in H.
      destruct (shunting_yard (Some (Spec.expand (t :: toks)))) as [post|];
        destruct (Spec.balanced_from 0 (t :: toks)); try discriminate H;
        split.
      * unfold empty_regex. intros E. discriminate.
      * intros [E|E]; discriminate.
      * intros _. now right.
      * reflexivity.
Qed.

(** C2. [parse_regex(")")] and [parse_regex("(a")] return the empty
    failure result; more generally, on a non-empty pattern [parse_regex]
    returns the failure result (no items, size 0) exactly when the
    parentheses of its tokens do not match, that is, when a closing
    parenthesis meets no opener or an opener is still pending at the end
    of the input; no item sequence is returned with that failure (the
    empty pattern is the one other input that gives this result). *)
Theorem unbalanced_grouping_fails :
  parse_regex (Some ")"%string) = mk_regex None 0 /\
  parse_regex (Some "(a"%string) = mk_regex None 0 /\
  (forall str : string,
     parse_regex (Some str) = mk_regex None 0 <->
     str = EmptyString \/
     Spec.balanced (Spec.tokens (list_ascii_of_string str)) = false) /\
  (forall l : list item,
     shunting_yard (Some l) = None <-> l = [] \/ Spec.balanced l = false).
Proof.
  split; [reflexivity|]. split; [reflexivity|]. split.
  - apply parse_regex_fails_iff.
  - intros l. pose proof (shunting_yard_balanced l) as E.
    destruct l as [|it l]; [simpl; tauto|].
    cbn [List.length Nat.eqb negb andb] in E.
    destruct (shunting_yard (Some (it :: l)));
      destruct (Spec.balanced (it :: l)); try discriminate E.
    + split; [discriminate|intros [H|H]; discriminate].
    + split; [now right|reflexivity].
Qed.

(** C10. [parse_regex] on the empty string returns the same empty result
    as on a null pattern: the tokenizer returns an array of no items, and
    the concatenation stage rejects it by its test [size <= 0]. *)
Theorem parse_regex_empty_string :
  parse_regex (Some ""%string) = parse_regex None /\
  parse_regex (Some ""%string) = mk_regex None 0 /\
  itemize_regex (Some ""%string) = Some [] /\
  implicit_to_explicit_concatenation (Some []) = None.
Proof. repeat split. Qed.

(* ================================================================= *)
(** ** Well-formed patterns and the fragment stack *)

Lemma heights_app (a b : list item) :
  forall h,
    heights (a ++ b) h =
    match heights a h with
    | Some h' => heights b h'
    | None => None
    end.
Proof.
  induction a as [|it a IH]; intros h; simpl; [reflexivity|].
  destruct (height_step h (type it)); [apply IH|reflexivity].
Qed.

Lemma lparens_cons (it : item) (stack : list item) :
  lparens (it :: stack) =
  ((if is_lparen it then 1 else 0) + lparens stack)%nat.
Proof. unfold lparens. simpl. destruct (is_lparen it); reflexivity. Qed.

Lemma binops_cons (it : item) (stack : list item) :
  binops (it :: stack) =
  ((if is_binary it then 1 else 0) + binops stack)%nat.
Proof. unfold binops. simpl. destruct (is_binary it); reflexivity. Qed.

(** Moving an operator from the stack to the output keeps the invariant. *)
Lemma shunting_inv_pop (depth : nat) (top : item) (rest out : list item) :
  shunting_inv false depth (top :: rest) out ->
  is_lparen top = false ->
  shunting_inv false depth rest (out ++ [top]).
Proof.
  intros (Hd & Hs & h & Hh & Hb) Hl.
  rewrite lparens_cons, Hl in Hd.
  simpl in Hs. apply andb_prop in Hs as [Htop Hs].
  rewrite binops_cons in Hb.
  repeat split; try assumption.
  rewrite heights_app, Hh. simpl.
  unfold stackable in Htop. unfold is_lparen in Hl. unfold is_binary in Hb.
  destruct (type top); try discriminate; simpl.
  - exists h. split; [|lia]. destruct h; [lia|reflexivity].
  - exists h. split; [|lia]. destruct h; [lia|reflexivity].
  - exists h. split; [|lia]. destruct h; [lia|reflexivity].
  - destruct h as [|[|k]]; try lia. exists (S k). split; [reflexivity|lia].
  - destruct h as [|[|k]]; try lia. exists (S k). split; [reflexivity|lia].
Qed.

Lemma pop_operators_inv (cur : item_type) (depth : nat) (stack : list item) :
  forall out,
    shunting_inv false depth stack out ->
    shunting_inv false depth (fst (pop_operators cur stack out))
                 (snd (pop_operators cur stack out)).
Proof.
  induction stack as [|top rest IH]; intros out H; simpl; [exact H|].
  destruct (is_lparen top) eqn:E; simpl; [exact H|].
  destruct (get_precedence cur <=? get_precedence (type top)); simpl.
  - apply IH. now apply shunting_inv_pop.
  - exact H.
Qed.

Lemma pop_to_lparen_inv (depth : nat) (stack : list item) :
  forall out,
    shunting_inv false depth stack out ->
    shunting_inv false depth (fst (pop_to_lparen stack out))
                 (snd (pop_to_lparen stack out)).
Proof.
  induction stack as [|top rest IH]; intros out H; simpl; [exact H|].
  destruct (is_lparen top) eqn:E; simpl; [exact H|].
  apply IH. now apply shunting_inv_pop.
Qed.

Lemma drain_stack_inv (stack : list item) :
  forall out,
    shunting_inv false 0 stack out ->
    exists post, drain_stack stack out = Some post /\ heights post 0 = Some 1%nat.
Proof.
  induction stack as [|top rest IH]; intros out H.
  - destruct H as (_ & _ & h & Hh & Hb). unfold binops in Hb. simpl in Hb.
    exists out. split; [reflexivity|]. rewrite Hh. f_equal. lia.
  - simpl. destruct (is_lparen top) eqn:E.
    + destruct H as (Hd & _). rewrite lparens_cons, E in Hd. discriminate.
    + apply IH. now apply shunting_inv_pop.
Qed.

(** The case of an operator in the main loop: [expect'] tells whether an
    operand is expected after it. *)
Ltac push_operator op expect' :=
  match goal with
  | IH : forall _ _ _ _, _ -> _ -> exists _, _,
    Hinv : shunting_inv false ?depth ?stack ?out,
    T : type ?it = op |- _ =>
      let H := fresh "H" in
      pose proof (pop_operators_inv op depth stack out Hinv) as H;
      destruct (pop_operators op stack out) as [stack' out'];
      simpl in H; apply (IH expect' depth); [|assumption];
      destruct H as (Hd & Hs & h & Hh & Hb);
      repeat split;
      [ rewrite lparens_cons; unfold is_lparen; rewrite T; exact Hd
      | simpl; unfold stackable at 1; rewrite T; exact Hs
      | exists h; split; [exact Hh|];
        rewrite binops_cons; unfold is_binary; rewrite T; lia ]
  end.

(** On a well-formed input Shunting-Yard succeeds, and its output drives
    a fragment stack from empty to exactly one fragment. *)
Lemma shunting_from_well_formed (l : list item) :
  forall expect depth stack out,
    shunting_inv expect depth stack out ->
    Spec.well_formed_from expect depth l = true ->
    exists post,
      shunting_from l (stack, out) = Some post /\
      heights post 0 = Some 1%nat.
Proof.
  unfold shunting_from.
  induction l as [|it l IH]; intros expect depth stack out Hinv Hwf.
  - simpl in *. apply andb_prop in Hwf as [He Hd].
    destruct expect; [discriminate|]. apply Nat.eqb_eq in Hd. subst depth.
    now apply drain_stack_inv.
  - cbn [Spec.well_formed_from] in Hwf. cbn [shunting_loop shunting_step].
    destruct (type it) eqn:T; apply andb_prop in Hwf as [He Hwf];
      destruct expect; try discriminate He.
    + push_operator KLEENE_STAR false.
    + push_operator POSITIVE_CLOSURE false.
    + push_operator OPTIONAL false.
    + push_operator CONCATENATION true.
    + push_operator ALTERNATION true.
    + (* operand *)
      apply (IH false depth); [|exact Hwf].
      destruct Hinv as (Hd & Hs & h & Hh & Hb).
      repeat split; try assumption.
      exists (S h). split; [|lia].
      rewrite heights_app, Hh. simpl. rewrite T. reflexivity.
    + (* opener *)
      apply (IH true (S depth)); [|exact Hwf].
      destruct Hinv as (Hd & Hs & h & Hh & Hb).
      repeat split.
      * rewrite lparens_cons. unfold is_lparen. rewrite T. simpl. now f_equal.
      * simpl. unfold stackable at 1. rewrite T. exact Hs.
      * exists h. split; [exact Hh|].
        rewrite binops_cons. unfold is_binary. rewrite T. exact Hb.
    + (* closer *)
      destruct depth as [|d]; [discriminate|].
      pose proof (pop_to_lparen_inv (S d) stack out Hinv) as H.
      pose proof (pop_to_lparen_shape stack out) as Hshape.
      destruct (pop_to_lparen stack out) as [stack' out'].
      simpl in H, Hshape. destruct stack' as [|top rest].
      * destruct H as (Hd & _). discriminate.
      * apply (IH false d); [|exact Hwf].
        destruct Hshape as [Hl _].
        destruct H as (Hd & Hs & h & Hh & Hb).
        rewrite lparens_cons, Hl in Hd. rewrite binops_cons in Hb.
        simpl in Hs. apply andb_prop in Hs as [Htop Hs].
        assert (Hnb : is_binary top = false).
        { unfold is_lparen in Hl. unfold is_binary.
          destruct (type top); try discriminate; reflexivity. }
        rewrite Hnb in Hb.
        repeat split; [lia|exact Hs|].
        exists h. split; [exact Hh|exact Hb].
Qed.

Section Builder.

Variable EPSILON_SYMBOL : ascii.
Variable MAX_STATES : nat.

(** A successful iteration leaves the state as it is (a parenthesis) or
    pops the arguments of a constructor and pushes its result. *)
Lemma thompson_step_call (m m' : states_manager) (stk stk' : list t_nfa)
    (it : item) :
  thompson_step EPSILON_SYMBOL MAX_STATES (m, stk) it = Ok (m', stk') ->
  (m' = m /\ stk' = stk) \/
  exists popped rest build,
    fragment_call EPSILON_SYMBOL it popped build /\
    stk = popped ++ rest /\
    m' = snd (build m) /\ stk' = fst (build m) :: rest.
Proof.
  unfold thompson_step, push.
  destruct (type it) eqn:T;
    try (intros E; inversion E; now left);
    try (destruct stk as [|a stk1]; [discriminate|]; cbn [pop bind];
         match goal with
         | |- context [let '(_, _) := ?build m in _] =>
             destruct (build m) as [f m1] eqn:B;
             destruct (List.length stk1 <? MAX_STATES)%nat; [|discriminate];
             intros E; inversion E; subst; right;
             exists [a], stk1, build; rewrite B;
             repeat split; now constructor
         end);
    try (destruct stk as [|b [|a stk2]]; [discriminate|discriminate|];
         cbn [pop bind];
         match goal with
         | |- context [let '(_, _) := ?build m in _] =>
             destruct (build m) as [f m1] eqn:B;
             destruct (List.length stk2 <? MAX_STATES)%nat; [|discriminate];
             intros E; inversion E; subst; right;
             exists [b; a], stk2, build; rewrite B;
             repeat split; now constructor
         end).
  destruct (symbol_nfa EPSILON_SYMBOL (value it) m) as [f m1] eqn:B.
  destruct (List.length stk <? MAX_STATES)%nat; [|discriminate].
  intros E. inversion E. subst. right.
  exists [], stk, (symbol_nfa EPSILON_SYMBOL (value it)). rewrite B.
  repeat split. now constructor.
Qed.

(** Pushing on a stack of [k] fragments with [k < MAX_STATES]. *)
Ltac push_fits k :=
  unfold push;
  replace (k <? MAX_STATES)%nat with true
    by (symmetry; apply Nat.ltb_lt; simpl in *; lia);
  replace (S k <=? MAX_STATES)%nat with true
    by (symmetry; apply Nat.leb_le; simpl in *; lia);
  simpl; eauto.

(** One iteration of [regex_to_nfa] fails exactly as the height of its
    stack tells: below zero it underflows, above [MAX_STATES] it
    overflows. *)
Lemma thompson_step_height (m : states_manager) (stk : list t_nfa)
    (it : item) :
  (List.length stk <= MAX_STATES)%nat ->
  match height_step (List.length stk) (type it) with
  | None =>
      thompson_step EPSILON_SYMBOL MAX_STATES (m, stk) it =
      Fault StackUnderflow
  | Some h' =>
      if (h' <=? MAX_STATES)%nat then
        exists m' stk',
          thompson_step EPSILON_SYMBOL MAX_STATES (m, stk) it =
          Ok (m', stk') /\
          List.length stk' = h'
      else
        thompson_step EPSILON_SYMBOL MAX_STATES (m, stk) it =
        Fault StackOverflow
  end.
Proof.
  intros Hcap. unfold thompson_step, height_step.
  destruct (type it).
  - destruct stk as [|a stk1]; [reflexivity|]. cbn [pop bind List.length].
    destruct (kleene_closure_nfa EPSILON_SYMBOL a m) as [f m'].
    push_fits (List.length stk1).
  - destruct stk as [|a stk1]; [reflexivity|]. cbn [pop bind List.length].
    destruct (positive_closure_nfa EPSILON_SYMBOL a m) as [f m'].
    push_fits (List.length stk1).
  - destruct stk as [|a stk1]; [reflexivity|]. cbn [pop bind List.length].
    destruct (optional_nfa EPSILON_SYMBOL a m) as [f m'].
    push_fits (List.length stk1).
  - destruct stk as [|b [|a stk2]]; [reflexivity|reflexivity|].
    cbn [pop bind List.length].
    destruct (concat_nfa EPSILON_SYMBOL a b m) as [f m'].
    push_fits (List.length stk2).
  - destruct stk as [|b [|a stk2]]; [reflexivity|reflexivity|].
    cbn [pop bind List.length].
    destruct (union_nfa EPSILON_SYMBOL a b m) as [f m'].
    push_fits (List.length stk2).
  - destruct (symbol_nfa EPSILON_SYMBOL (value it) m) as [f m'].
    unfold push.
    destruct (S (List.length stk) <=? MAX_STATES)%nat eqn:E.
    + apply Nat.leb_le in E.
      replace (List.length stk <? MAX_STATES)%nat with true
        by (symmetry; apply Nat.ltb_lt; lia).
      simpl. eauto.
    + apply Nat.leb_gt in E.
      replace (List.length stk <? MAX_STATES)%nat with false
        by (symmetry; apply Nat.ltb_ge; lia).
      reflexivity.
  - replace (List.length stk <=? MAX_STATES)%nat with true
      by (symmetry; apply Nat.leb_le; lia).
    eauto.
  - replace (List.length stk <=? MAX_STATES)%nat with true
      by (symmetry; apply Nat.leb_le; lia).
    eauto.
Qed.

Lemma height_step_bound (h h' : nat) (it : item) :
  height_step h (type it) = Some h' ->
  (h' <= h + (if is_operand it then 1 else 0))%nat.
Proof.
  unfold height_step, is_operand.
  destruct (type it); simpl; try (destruct h as [|[|k]]);
    intros E; inversion E; lia.
Qed.

Lemma operands_cons (it : item) (l : list item) :
  operands (it :: l) = ((if is_operand it then 1 else 0) + operands l)%nat.
Proof. unfold operands, count. simpl. destruct (is_operand it); reflexivity. Qed.

(** A run that does not underflow never fails in another way than by
    overflowing the fragment stack. *)
Lemma thompson_loop_no_underflow (l : list item) :
  forall m stk h,
    (List.length stk <= MAX_STATES)%nat ->
    heights l (List.length stk) = Some h ->
    (exists m' stk',
       thompson_loop EPSILON_SYMBOL MAX_STATES l (m, stk) = Ok (m', stk') /\
       List.length stk' = h) \/
    thompson_loop EPSILON_SYMBOL MAX_STATES l (m, stk) = Fault StackOverflow.
Proof.
  induction l as [|it l IH]; intros m stk h Hcap Hh.
  - simpl in *. inversion Hh. left. eauto.
  - cbn [heights] in Hh. cbn [thompson_loop].
    pose proof (thompson_step_height m stk it Hcap) as Hstep.
    destruct (height_step (List.length stk) (type it)) as [h'|];
      [|discriminate].
    destruct (h' <=? MAX_STATES)%nat eqn:E.
    + destruct Hstep as (m' & stk' & Hs & Hlen). rewrite Hs. cbn [bind].
      apply Nat.leb_le in E. subst h'. now apply IH.
    + rewrite Hstep. now right.
Qed.

(** With room for one fragment per operand the run succeeds. *)
Lemma thompson_loop_heights (l : list item) :
  forall m stk h,
    (List.length stk + operands l <= MAX_STATES)%nat ->
    heights l (List.length stk) = Some h ->
    exists m' stk',
      thompson_loop EPSILON_SYMBOL MAX_STATES l (m, stk) = Ok (m', stk') /\
      List.length stk' = h.
Proof.
  induction l as [|it l IH]; intros m stk h Hcap Hh.
  - simpl in *. inversion Hh. eauto.
  - cbn [heights] in Hh. cbn [thompson_loop].
    rewrite operands_cons in Hcap.
    assert (Hcap0 : (List.length stk <= MAX_STATES)%nat) by lia.
    pose proof (thompson_step_height m stk it Hcap0) as Hstep.
    destruct (height_step (List.length stk) (type it)) as [h'|] eqn:Hs';
      [|discriminate].
    apply height_step_bound in Hs'.
    replace (h' <=? MAX_STATES)%nat with true in Hstep
      by (symmetry; apply Nat.leb_le; lia).
    destruct Hstep as (m' & stk' & Hs & Hlen). rewrite Hs. cbn [bind].
    subst h'. apply IH; [lia|exact Hh].
Qed.

End Builder.

(** Shunting-Yard moves the items around and drops the parentheses: it
    keeps the number of items of any kind [p] other than parentheses. *)
Section Counting.

Variable p : item -> bool.
Hypothesis p_lparen : forall it, type it = L_PARENTHESIS -> p it = false.
Hypothesis p_rparen : forall it, type it = R_PARENTHESIS -> p it = false.

Lemma count_cons (it : item) (l : list item) :
  count p (it :: l) = ((if p it then 1 else 0) + count p l)%nat.
Proof. unfold count. simpl. destruct (p it); reflexivity. Qed.

Lemma count_app (a b : list item) :
  count p (a ++ b) = (count p a + count p b)%nat.
Proof. unfold count. now rewrite filter_app, length_app. Qed.

Lemma count_snoc (l : list item) (it : item) :
  count p (l ++ [it]) = (count p l + (if p it then 1 else 0))%nat.
Proof.
  rewrite count_app, count_cons. change (count p []) with 0%nat. lia.
Qed.

Lemma pop_operators_count (cur : item_type) (stack : list item) :
  forall out,
    (count p (fst (pop_operators cur stack out)) +
     count p (snd (pop_operators cur stack out)) =
     count p stack + count p out)%nat.
Proof.
  induction stack as [|top rest IH]; intros out; simpl; [reflexivity|].
  destruct (negb (is_lparen top) &&
            (get_precedence cur <=? get_precedence (type top))); simpl.
  - rewrite IH, count_snoc, (count_cons top rest). lia.
  - reflexivity.
Qed.

Lemma pop_to_lparen_count (stack : list item) :
  forall out,
    (count p (fst (pop_to_lparen stack out)) +
     count p (snd (pop_to_lparen stack out)) =
     count p stack + count p out)%nat.
Proof.
  induction stack as [|top rest IH]; intros out; simpl; [reflexivity|].
  destruct (negb (is_lparen top)); simpl.
  - rewrite IH, count_snoc, (count_cons top rest). lia.
  - reflexivity.
Qed.

Lemma drain_stack_count (stack : list item) :
  forall out post,
    drain_stack stack out = Some post ->
    count p post = (count p stack + count p out)%nat.
Proof.
  induction stack as [|top rest IH]; intros out post H; simpl in H.
  - inversion H. reflexivity.
  - destruct (is_lparen top); [discriminate|].
    apply IH in H. rewrite H, count_snoc, (count_cons top rest). lia.
Qed.

Lemma shunting_from_count (l : list item) :
  forall stack out post,
    shunting_from l (stack, out) = Some post ->
    count p post = (count p l + count p stack + count p out)%nat.
Proof.
  unfold shunting_from.
  induction l as [|it l IH]; intros stack out post H.
  - simpl in H. apply drain_stack_count in H. rewrite H.
    change (count p []) with 0%nat. lia.
  - cbn [shunting_loop shunting_step] in H. rewrite (count_cons it l).
    destruct (type it) eqn:T;
      try (match type of H with
           | context [pop_operators ?op stack out] =>
               pose proof (pop_operators_count op stack out) as Hp;
               destruct (pop_operators op stack out) as [stack' out']
           end;
           simpl in Hp; apply IH in H; rewrite H, count_cons; lia).
    + apply IH in H. rewrite H, count_snoc. lia.
    + apply IH in H. rewrite H, count_cons, (p_lparen it T). lia.
    + pose proof (pop_to_lparen_count stack out) as Hp.
      pose proof (pop_to_lparen_shape stack out) as Hshape.
      destruct (pop_to_lparen stack out) as [stack' out'].
      simpl in Hp, Hshape. destruct stack' as [|top rest]; [discriminate|].
      apply IH in H. rewrite H, (p_rparen it T). rewrite count_cons in Hp.
      destruct Hshape as [Hl _].
      assert (Htop : p top = false).
      { apply p_lparen. unfold is_lparen in Hl.
        destruct (type top); try discriminate Hl. reflexivity. }
      rewrite Htop in Hp. lia.
Qed.

Hypothesis p_concat : p (new_item CONCAT_SYMBOL CONCATENATION) = false.

Lemma expand_cons (x y : item) (rest : list item) :
  Spec.expand (x :: y :: rest) =
  if Spec.can_terminate (type x) && Spec.can_begin (type y)
  then x :: new_item CONCAT_SYMBOL CONCATENATION :: Spec.expand (y :: rest)
  else x :: Spec.expand (y :: rest).
Proof. reflexivity. Qed.

Lemma count_expand (l : list item) : count p (Spec.expand l) = count p l.
Proof.
  induction l as [|x rest IH]; [reflexivity|].
  destruct rest as [|y rest']; [reflexivity|].
  rewrite expand_cons.
  destruct (Spec.can_terminate (type x) && Spec.can_begin (type y));
    rewrite !count_cons, IH, count_cons, ?p_concat; reflexivity.
Qed.

Lemma count_le_length (l : list item) : (count p l <= List.length l)%nat.
Proof. unfold count. apply filter_length_le. Qed.

End Counting.

Lemma shunting_from_operands (l stack out post : list item) :
  shunting_from l (stack, out) = Some post ->
  operands post = (operands l + operands stack + operands out)%nat.
Proof.
  apply shunting_from_count; intros it T; unfold is_operand; now rewrite T.
Qed.

Lemma operands_expand (l : list item) :
  operands (Spec.expand l) = operands l.
Proof. now apply count_expand. Qed.

Lemma operands_le_length (l : list item) : (operands l <= List.length l)%nat.
Proof. apply count_le_length. Qed.

Lemma tokens_cons (c d : ascii) (rest : list ascii) :
  Spec.tokens (c :: d :: rest) =
  if Ascii.eqb c ESCAPE_SYMBOL then new_item d OPERAND :: Spec.tokens rest
  else new_item c (get_item_type c) :: Spec.tokens (d :: rest).
Proof. reflexivity. Qed.

Lemma tokens_length_aux (s : list ascii) :
  (List.length (Spec.tokens s) <= List.length s)%nat /\
  forall c, (List.length (Spec.tokens (c :: s)) <= S (List.length s))%nat.
Proof.
  induction s as [|d rest [IH1 IH2]].
  - split; [simpl; lia|].
    intros c. simpl. destruct (Ascii.eqb c ESCAPE_SYMBOL); simpl; lia.
  - split; [apply IH2|].
    intros c. rewrite tokens_cons.
    destruct (Ascii.eqb c ESCAPE_SYMBOL); cbn [List.length].
    + lia.
    + specialize (IH2 d). lia.
Qed.

Lemma tokens_length (s : list ascii) :
  (List.length (Spec.tokens s) <= List.length s)%nat.
Proof. apply tokens_length_aux. Qed.

Lemma length_list_ascii_of_string (s : string) :
  List.length (list_ascii_of_string s) = String.length s.
Proof. induction s; simpl; congruence. Qed.

Lemma regex_items_parsed (post : list item) :
  regex_items (mk_regex (Some post) (Z.of_nat (List.length post))) = post.
Proof.
  unfold regex_items. simpl. rewrite Nat2Z.id. apply firstn_all.
Qed.

(** The postfix sequence of a well-formed pattern: it drives a fragment
    stack from empty to one fragment, and it has no more operands, and
    no more items that allocate states, than the pattern has characters. *)
Lemma well_formed_postfix (pattern : string) :
  Spec.well_formed pattern = true ->
  exists post : list item,
    parse_regex (Some pattern) =
      mk_regex (Some post) (Z.of_nat (List.length post)) /\
    heights post 0 = Some 1%nat /\
    (operands post <= String.length pattern)%nat /\
    (count allocates post <= String.length pattern)%nat.
Proof.
  intros Hwf. unfold Spec.well_formed in Hwf.
  rewrite parse_regex_stages.
  set (toks := Spec.tokens (list_ascii_of_string pattern)) in *.
  assert (Hinit : shunting_inv true 0 [] []).
  { repeat split. exists 0%nat. split; reflexivity. }
  destruct (shunting_from_well_formed (Spec.expand toks) true 0%nat [] []
              Hinit Hwf) as (post & Hpost & Hh).
  assert (Hne : toks <> []).
  { intros E. rewrite E in Hwf. discriminate. }
  assert (Hsy : shunting_yard (Some (Spec.expand toks)) = Some post).
  { unfold shunting_yard.
    destruct (Spec.expand toks) as [|x e] eqn:E.
    - apply expand_nil in E. contradiction.
    - replace (Z.of_nat (List.length (x :: e)) <=? 0) with false
        by (symmetry; apply Z.leb_gt; simpl; lia).
      exact Hpost. }
  assert (Hlen : (List.length toks <= String.length pattern)%nat).
  { pose proof (tokens_length (list_ascii_of_string pattern)) as H.
    now rewrite length_list_ascii_of_string in H. }
  assert (Hcount : forall p : item -> bool,
             (forall it, type it = L_PARENTHESIS -> p it = false) ->
             (forall it, type it = R_PARENTHESIS -> p it = false) ->
             p (new_item CONCAT_SYMBOL CONCATENATION) = false ->
             (count p post <= String.length pattern)%nat).
  { intros p Hl Hr Hc.
    rewrite (shunting_from_count p Hl Hr _ _ _ _ Hpost), (count_expand p Hc).
    change (count p []) with 0%nat.
    pose proof (count_le_length p toks). lia. }
  exists post. destruct toks as [|t toks']; [contradiction|].
  rewrite Hsy. split; [reflexivity|]. split; [exact Hh|].
  split; apply Hcount; try reflexivity;
    intros it T; unfold is_operand, allocates; now rewrite T.
Qed.

(** C1, as amended.  For every well-formed pattern (operands and
    operators alternate as in an infix expression and parentheses match)
    [parse_regex] succeeds with a non-empty postfix sequence, and the loop
    of [regex_to_nfa] consumes that sequence without popping from an
    empty or insufficient stack: it ends with exactly one fragment on the
    stack, unless the stack of [MAX_STATES] fragments overflows, which it
    does not when the pattern has at most [MAX_STATES] characters. *)
Theorem well_formed_pattern_builds
    (EPSILON_SYMBOL : ascii) (MAX_STATES : nat) (pattern : string) :
  Spec.well_formed pattern = true ->
  exists post : list item,
    parse_regex (Some pattern) =
      mk_regex (Some post) (Z.of_nat (List.length post)) /\
    post <> [] /\
    regex_items (parse_regex (Some pattern)) = post /\
    ((exists m f,
        thompson_loop EPSILON_SYMBOL MAX_STATES post
          (new_states_manager EPSILON_SYMBOL, []) = Ok (m, [f])) \/
     thompson_loop EPSILON_SYMBOL MAX_STATES post
       (new_states_manager EPSILON_SYMBOL, []) = Fault StackOverflow) /\
    ((String.length pattern <= MAX_STATES)%nat ->
     exists m f,
       thompson_loop EPSILON_SYMBOL MAX_STATES post
         (new_states_manager EPSILON_SYMBOL, []) = Ok (m, [f])).
Proof.
  intros Hwf.
  destruct (well_formed_postfix pattern Hwf) as (post & Hparse & Hh & Hops & _).
  exists post. rewrite Hparse, regex_items_parsed.
  repeat split.
  - intros E. rewrite E in Hh. discriminate.
  - destruct (thompson_loop_no_underflow EPSILON_SYMBOL MAX_STATES post
                (new_states_manager EPSILON_SYMBOL) [] 1%nat)
      as [(m & stk & Hrun & Hlen)|Hover]; [simpl; lia|exact Hh| |].
    + left. destruct stk as [|f [|g stk]]; try discriminate. eauto.
    + now right.
  - intros Hcap.
    destruct (thompson_loop_heights EPSILON_SYMBOL MAX_STATES post
                (new_states_manager EPSILON_SYMBOL) [] 1%nat)
      as (m & stk & Hrun & Hlen); [simpl; lia|exact Hh|].
    destruct stk as [|f [|g stk]]; try discriminate. eauto.
Qed.

Lemma well_formed_pattern_builds_witness :
  Spec.well_formed "(ab)*c" = true /\
  exists post : list item,
    parse_regex (Some "(ab)*c"%string) =
      mk_regex (Some post) (Z.of_nat (List.length post)) /\
    post <> [] /\
    regex_items (parse_regex (Some "(ab)*c"%string)) = post /\
    ((exists m f,
        thompson_loop zero 64 post (new_states_manager zero, []) =
        Ok (m, [f])) \/
     thompson_loop zero 64 post (new_states_manager zero, []) =
     Fault StackOverflow) /\
    ((String.length "(ab)*c" <= 64)%nat ->
     exists m f,
       thompson_loop zero 64 post (new_states_manager zero, []) =
       Ok (m, [f])).
Proof.
  split; [reflexivity|].
  apply (well_formed_pattern_builds zero 64 "(ab)*c"). reflexivity.
Defined.

(** C1, as stated, fails: [parse_regex] accepts the pattern "*" and returns
    the one-item postfix sequence holding the star; on it [regex_to_nfa]
    pops from the empty fragment stack, whatever the epsilon symbol and
    the capacity of the stack. *)
Lemma star_pattern_underflows :
  parse_regex (Some "*"%string) =
    mk_regex (Some [new_item "*" KLEENE_STAR]) 1 /\
  (forall (EPSILON_SYMBOL : ascii) (MAX_STATES : nat),
     thompson_loop EPSILON_SYMBOL MAX_STATES
       (regex_items (parse_regex (Some "*"%string)))
       (new_states_manager EPSILON_SYMBOL, []) = Fault StackUnderflow) /\
  (forall (EPSILON_SYMBOL : ascii) (MAX_STATES : nat),
     regex_to_nfa EPSILON_SYMBOL MAX_STATES (parse_regex (Some "*"%string)) =
     Fault StackUnderflow).
Proof. repeat split. Qed.

(* ================================================================= *)
(** ** The claims on the tokenizer and the expander *)

(** C7. On a non-empty token sequence the expander returns the sequence
    [Spec.expand]: every token of the input, in order, each followed by a
    concatenation token exactly when it is a literal, a closing
    parenthesis or a postfix operator and its right neighbour is a
    literal or an opening parenthesis; the test of the source,
    [should_insert_concat], holds exactly for these pairs.  (On the empty
    sequence it returns no sequence at all.) *)
Theorem expander_inserts_concatenation :
  (forall l : list item,
     implicit_to_explicit_concatenation (Some l) =
     match l with [] => None | _ :: _ => Some (Spec.expand l) end) /\
  (forall x : item, Spec.expand [x] = [x]) /\
  (forall (x y : item) (rest : list item),
     Spec.expand (x :: y :: rest) =
     if should_insert_concat x y
     then x :: new_item "." CONCATENATION :: Spec.expand (y :: rest)
     else x :: Spec.expand (y :: rest)) /\
  (forall left right : item,
     should_insert_concat left right = true <->
     (type left = OPERAND \/ type left = R_PARENTHESIS \/
      type left = KLEENE_STAR \/ type left = POSITIVE_CLOSURE \/
      type left = OPTIONAL) /\
     (type right = OPERAND \/ type right = L_PARENTHESIS)).
Proof.
  split; [exact implicit_to_explicit_concatenation_expand|].
  split; [reflexivity|]. split.
  - intros x y rest. rewrite should_insert_concat_spec. apply expand_cons.
  - intros l r. unfold should_insert_concat.
    destruct (type l), (type r); simpl; split;
      try discriminate; try (intros _; split; tauto);
      intros [[H|[H|[H|[H|H]]]] [H'|H']]; discriminate.
Qed.

(* ================================================================= *)
(** ** The alphabet *)

Lemma nth_store {A : Type} (l : list A) :
  forall (i j : nat) (x d : A),
    nth j (store l i x) d =
    if (j =? i)%nat && (i <? List.length l)%nat then x else nth j l d.
Proof.
  induction l as [|y l IH]; intros i j x d.
  - simpl. destruct j; rewrite andb_false_r; reflexivity.
  - destruct i as [|i], j as [|j]; simpl; try reflexivity.
    rewrite IH. reflexivity.
Qed.

Lemma length_store {A : Type} (l : list A) :
  forall (i : nat) (x : A), List.length (store l i x) = List.length l.
Proof.
  induction l as [|y l IH]; intros [|i] x; simpl; auto.
Qed.

Lemma nat_of_ascii_inj (c d : ascii) :
  nat_of_ascii c = nat_of_ascii d -> c = d.
Proof.
  intros H. rewrite <- (ascii_nat_embedding c), <- (ascii_nat_embedding d).
  now rewrite H.
Qed.

Lemma nat_of_ascii_eqb (c d : ascii) :
  (nat_of_ascii c =? nat_of_ascii d)%nat = Ascii.eqb c d.
Proof.
  destruct (Ascii.eqb c d) eqn:E.
  - apply Ascii.eqb_eq in E. subst. apply Nat.eqb_refl.
  - apply Nat.eqb_neq. intros H. apply nat_of_ascii_inj in H.
    apply Ascii.eqb_neq in E. contradiction.
Qed.

Lemma position_range (l : list ascii) (c : ascii) :
  position l c = -1 \/ 0 <= position l c < Z.of_nat (List.length l).
Proof.
  induction l as [|x l IH]; [now left|].
  cbn [position List.length]. destruct (Ascii.eqb x c); [right; lia|].
  destruct (position l c =? -1) eqn:E; [now left|].
  apply Z.eqb_neq in E. right. lia.
Qed.

Lemma position_none (l : list ascii) (c : ascii) :
  position l c = -1 <-> ~ In c l.
Proof.
  induction l as [|x l IH]; [simpl; tauto|].
  cbn [position In]. destruct (Ascii.eqb x c) eqn:E.
  - apply Ascii.eqb_eq in E. split; [discriminate|tauto].
  - apply Ascii.eqb_neq in E.
    pose proof (position_range l c).
    destruct (position l c =? -1) eqn:E'.
    + apply Z.eqb_eq in E'. tauto.
    + apply Z.eqb_neq in E'. split; [lia|]. intros H'. exfalso. tauto.
Qed.

Lemma position_nth_error (l : list ascii) (c : ascii) :
  forall k, position l c = Z.of_nat k -> nth_error l k = Some c.
Proof.
  induction l as [|x l IH]; intros k H; [simpl in H; lia|].
  cbn [position] in H. destruct (Ascii.eqb x c) eqn:E.
  - apply Ascii.eqb_eq in E. subst x.
    destruct k; [reflexivity|lia].
  - pose proof (position_range l c).
    destruct (position l c =? -1) eqn:E'; [lia|].
    destruct k as [|k]; [lia|]. simpl. apply IH. lia.
Qed.

Lemma nth_error_position (l : list ascii) (c : ascii) :
  NoDup l ->
  forall k, nth_error l k = Some c -> position l c = Z.of_nat k.
Proof.
  induction l as [|x l IH]; intros Hnd k H; [destruct k; discriminate|].
  inversion Hnd as [|? ? Hnotin Hnd']; subst.
  cbn [position]. destruct k as [|k]; simpl in H.
  - inversion H. subst. now rewrite Ascii.eqb_refl.
  - destruct (Ascii.eqb x c) eqn:E.
    + apply Ascii.eqb_eq in E. subst x. apply nth_error_In in H. contradiction.
    + rewrite (IH Hnd' k H).
      replace (Z.of_nat k =? -1) with false by (symmetry; apply Z.eqb_neq; lia).
      lia.
Qed.

Lemma position_app (l : list ascii) (x c : ascii) :
  position (l ++ [x]) c =
  if position l c =? -1
  then if Ascii.eqb x c then Z.of_nat (List.length l) else -1
  else position l c.
Proof.
  induction l as [|y l IH].
  - simpl. destruct (Ascii.eqb x c); reflexivity.
  - cbn [app position List.length]. destruct (Ascii.eqb y c); [reflexivity|].
    rewrite IH. pose proof (position_range l c) as Hr. cbv zeta.
    destruct (position l c =? -1) eqn:E.
    + destruct (Ascii.eqb x c); [|reflexivity].
      replace (Z.of_nat (List.length l) =? -1) with false
        by (symmetry; apply Z.eqb_neq; lia).
      rewrite Z.eqb_refl. lia.
    + rewrite E. apply Z.eqb_neq in E.
      replace (position l c + 1 =? -1) with false
        by (symmetry; apply Z.eqb_neq; lia).
      reflexivity.
Qed.

Lemma existsb_eqb_position (l : list ascii) (c : ascii) :
  existsb (Ascii.eqb c) l = negb (position l c =? -1).
Proof.
  induction l as [|x l IH]; [reflexivity|].
  cbn [existsb position]. rewrite (Ascii.eqb_sym c x).
  destruct (Ascii.eqb x c); [reflexivity|]. simpl. rewrite IH.
  pose proof (position_range l c).
  destruct (position l c =? -1) eqn:E; simpl; [reflexivity|].
  apply Z.eqb_neq in E.
  replace (position l c + 1 =? -1) with false
    by (symmetry; apply Z.eqb_neq; lia).
  reflexivity.
Qed.

Section Alphabet.

Variable EPSILON_SYMBOL : ascii.

Lemma new_alphabet_inv : alphabet_inv (new_alphabet EPSILON_SYMBOL).
Proof.
  split; [|split].
  - unfold new_alphabet. cbn [char_to_col].
    rewrite length_store. apply repeat_length.
  - constructor; [simpl; tauto|constructor].
  - intros c. unfold col_of, new_alphabet. cbn [char_to_col symbols position].
    rewrite nth_store, nat_of_ascii_eqb, (Ascii.eqb_sym c), repeat_length.
    replace (nat_of_ascii EPSILON_SYMBOL <? 256)%nat with true
      by (symmetry; apply Nat.ltb_lt; apply nat_ascii_bounded).
    rewrite andb_true_r. destruct (Ascii.eqb EPSILON_SYMBOL c); [reflexivity|].
    rewrite nth_repeat. reflexivity.
Qed.

(** [add_symbol] appends a symbol that has no column yet, and does
    nothing else. *)
Lemma add_symbol_symbols (a : alphabet) (sym : ascii) :
  alphabet_inv a ->
  In EPSILON_SYMBOL (symbols a) ->
  symbols (add_symbol EPSILON_SYMBOL a sym) =
  if existsb (Ascii.eqb sym) (symbols a) then symbols a
  else symbols a ++ [sym].
Proof.
  intros (Hlen & Hnd & Hcol) Heps. unfold add_symbol.
  rewrite existsb_eqb_position, <- Hcol.
  destruct (Ascii.eqb sym EPSILON_SYMBOL) eqn:E.
  - apply Ascii.eqb_eq in E. subst sym.
    destruct (col_of a EPSILON_SYMBOL =? -1) eqn:E'; [|reflexivity].
    apply Z.eqb_eq in E'. rewrite Hcol in E'. apply position_none in E'.
    contradiction.
  - destruct (col_of a sym =? -1); reflexivity.
Qed.

Lemma add_symbol_inv (a : alphabet) (sym : ascii) :
  alphabet_inv a -> alphabet_inv (add_symbol EPSILON_SYMBOL a sym).
Proof.
  intros (Hlen & Hnd & Hcol). unfold add_symbol.
  destruct (Ascii.eqb sym EPSILON_SYMBOL); [now repeat split|].
  destruct (col_of a sym =? -1) eqn:E; [|now repeat split].
  apply Z.eqb_eq in E. simpl.
  assert (Hnotin : ~ In sym (symbols a)).
  { apply position_none. now rewrite <- Hcol. }
  repeat split; cbn [char_to_col symbols].
  - now rewrite length_store.
  - apply NoDup_app; [exact Hnd|constructor; [simpl; tauto|constructor]|].
    intros x Hx [H|[]]. subst. contradiction.
  - intros c. unfold col_of at 1. cbn [char_to_col].
    rewrite nth_store, nat_of_ascii_eqb, position_app, Hlen.
    replace (nat_of_ascii sym <? 256)%nat with true
      by (symmetry; apply Nat.ltb_lt; apply nat_ascii_bounded).
    rewrite andb_true_r, (Ascii.eqb_sym c sym). unfold symbol_count.
    destruct (Ascii.eqb sym c) eqn:E'.
    + apply Ascii.eqb_eq in E'. subst c. rewrite <- Hcol, E.
      reflexivity.
    + fold (col_of a c). rewrite <- Hcol.
      destruct (col_of a c =? -1) eqn:E''; [now apply Z.eqb_eq|reflexivity].
Qed.

Lemma first_seen_snoc (syms : list ascii) (c : ascii) :
  first_seen EPSILON_SYMBOL (syms ++ [c]) =
  if existsb (Ascii.eqb c) (first_seen EPSILON_SYMBOL syms)
  then first_seen EPSILON_SYMBOL syms
  else first_seen EPSILON_SYMBOL syms ++ [c].
Proof. unfold first_seen. rewrite fold_left_app. reflexivity. Qed.

(** What holds of every manager of a compilation. *)
Lemma reachable_inv (m : states_manager) :
  reachable EPSILON_SYMBOL m ->
  alphabet_inv (manager_alphabet m) /\
  symbols (manager_alphabet m) =
    first_seen EPSILON_SYMBOL (map symbol (transitions m)) /\
  nth_error (symbols (manager_alphabet m)) 0 = Some EPSILON_SYMBOL /\
  forall t, In t (transitions m) -> In (symbol t) (symbols (manager_alphabet m)).
Proof.
  induction 1 as [|m Hm IH|m from sym to Hm IH].
  - split; [apply new_alphabet_inv|]. repeat split. intros t [].
  - exact IH.
  - destruct IH as (Hinv & Hseen & Heps & Htrans).
    cbn [add_transition snd manager_alphabet transitions].
    assert (HinE : In EPSILON_SYMBOL (symbols (manager_alphabet m))).
    { eapply nth_error_In. exact Heps. }
    pose proof (add_symbol_symbols (manager_alphabet m) sym Hinv HinE) as Hsym.
    split; [now apply add_symbol_inv|].
    split; [|split].
    + rewrite map_app. cbn [map symbol]. rewrite first_seen_snoc, <- Hseen.
      exact Hsym.
    + rewrite Hsym.
      destruct (existsb (Ascii.eqb sym) (symbols (manager_alphabet m)));
        [exact Heps|].
      destruct (symbols (manager_alphabet m)); [discriminate|exact Heps].
    + intros t Ht. rewrite Hsym. apply in_app_or in Ht.
      destruct (existsb (Ascii.eqb sym) (symbols (manager_alphabet m))) eqn:E.
      * destruct Ht as [Ht|[Ht|[]]]; [now apply Htrans|].
        subst t. cbn [symbol]. apply existsb_exists in E.
        destruct E as (x & Hx & Hxe). apply Ascii.eqb_eq in Hxe. now subst.
      * apply in_or_app. destruct Ht as [Ht|[Ht|[]]];
          [left; now apply Htrans|right; subst t; now left].
Qed.

(** The fragment constructors only make such calls. *)
Lemma fragment_call_reachable (it : item) (popped : list t_nfa)
    (build : State t_nfa) (m : states_manager) :
  fragment_call EPSILON_SYMBOL it popped build ->
  reachable EPSILON_SYMBOL m ->
  reachable EPSILON_SYMBOL (snd (build m)).
Proof.
  intros Hcall H.
  destruct Hcall;
    repeat first [ exact H
                 | apply (reach_transition EPSILON_SYMBOL)
                 | apply (reach_state EPSILON_SYMBOL) ].
Qed.

Lemma thompson_step_reachable (MAX_STATES : nat) (m m' : states_manager)
    (stk stk' : list t_nfa) (it : item) :
  reachable EPSILON_SYMBOL m ->
  thompson_step EPSILON_SYMBOL MAX_STATES (m, stk) it = Ok (m', stk') ->
  reachable EPSILON_SYMBOL m'.
Proof.
  intros Hm H. apply thompson_step_call in H.
  destruct H as [[-> _]|(popped & rest & build & Hcall & _ & -> & _)];
    [exact Hm|].
  eapply fragment_call_reachable; eassumption.
Qed.

Lemma thompson_loop_reachable (MAX_STATES : nat) (l : list item) :
  forall m stk m' stk',
    reachable EPSILON_SYMBOL m ->
    thompson_loop EPSILON_SYMBOL MAX_STATES l (m, stk) = Ok (m', stk') ->
    reachable EPSILON_SYMBOL m'.
Proof.
  induction l as [|it l IH]; intros m stk m' stk' Hm H.
  - inversion H. subst. exact Hm.
  - cbn [thompson_loop] in H.
    destruct (thompson_step EPSILON_SYMBOL MAX_STATES (m, stk) it)
      as [[m1 stk1]|] eqn:E; [|discriminate].
    cbn [bind] in H. eapply IH; [|exact H].
    eapply thompson_step_reachable; eassumption.
Qed.

End Alphabet.

(** C8. At every point of a compilation (every manager reached from
    [new_states_manager] by calls of [new_state] and [add_transition],
    which is all that [regex_to_nfa] does to it, see
    [thompson_loop_reachable]) the alphabet satisfies [alphabet_facts]:
    epsilon in column 0, exactly one column for every symbol of a
    recorded transition, columns in first-seen order, and no change when
    epsilon or a symbol already present is added. *)
Theorem alphabet_invariant (EPSILON_SYMBOL : ascii) (m : states_manager) :
  reachable EPSILON_SYMBOL m -> alphabet_facts EPSILON_SYMBOL m.
Proof.
  intros Hm.
  destruct (reachable_inv EPSILON_SYMBOL m Hm)
    as ((Hlen & Hnd & Hcol) & Hseen & Heps & Htrans).
  assert (Hiff : forall (c : ascii) (k : nat),
             col_of (manager_alphabet m) c = Z.of_nat k <->
             nth_error (symbols (manager_alphabet m)) k = Some c).
  { intros c k. rewrite Hcol. split.
    - apply position_nth_error.
    - now apply nth_error_position. }
  unfold alphabet_facts. repeat apply conj.
  - apply (Hiff EPSILON_SYMBOL 0%nat). exact Heps.
  - exact Heps.
  - intros t Ht. apply Htrans in Ht.
    apply In_nth_error in Ht. destruct Ht as (k & Hk).
    exists k. split; [now apply Hiff|].
    intros k'. split.
    + intros Hk'. apply Hiff in Hk, Hk'. lia.
    + intros E. now subst.
  - exact Hiff.
  - intros c. rewrite Hcol. apply position_none.
  - exact Hseen.
  - unfold add_symbol. now rewrite Ascii.eqb_refl.
  - intros c Hc. unfold add_symbol.
    destruct (Ascii.eqb c EPSILON_SYMBOL); [reflexivity|].
    apply Z.eqb_neq in Hc. now rewrite Hc.
Qed.

Lemma alphabet_invariant_witness :
  reachable zero (snd (symbol_nfa zero "a" (new_states_manager zero))) /\
  alphabet_facts zero (snd (symbol_nfa zero "a" (new_states_manager zero))).
Proof.
  assert (H : reachable zero
                (snd (symbol_nfa zero "a" (new_states_manager zero)))).
  { apply (reach_transition zero (snd (new_state (snd (new_state
             (new_states_manager zero))))) 0 "a" 1).
    apply reach_state, reach_state, reach_new. }
  split; [exact H|].
  apply (alphabet_invariant zero _ H).
Defined.

(* ================================================================= *)
(** ** State sets as 64-bit words *)

Lemma bounded_0 (n : Z) : bounded n 0.
Proof. split; [lia|]. intros i _. apply Z.bits_0. Qed.

Lemma bounded_lor (n x y : Z) :
  bounded n x -> bounded n y -> bounded n (Z.lor x y).
Proof.
  intros [Hx Hbx] [Hy Hby]. split.
  - now apply Z.lor_nonneg.
  - intros i Hi. rewrite Z.lor_spec, Hbx, Hby by assumption. reflexivity.
Qed.

Lemma bounded_land_l (n x y : Z) : bounded n x -> bounded n (Z.land x y).
Proof.
  intros [Hx Hbx]. split.
  - apply Z.land_nonneg. now left.
  - intros i Hi. rewrite Z.land_spec, Hbx by assumption. reflexivity.
Qed.

Lemma bounded_bit (n s : Z) : 0 <= s < n -> bounded n (Z.shiftl 1 s).
Proof.
  intros Hs. rewrite Z.shiftl_1_l. split.
  - apply Z.pow_nonneg. lia.
  - intros i Hi. apply Z.pow2_bits_false. lia.
Qed.

Lemma bounded_weaken (n n' x : Z) : n <= n' -> bounded n x -> bounded n' x.
Proof. intros Hn [Hx Hb]. split; [exact Hx|]. intros i Hi. apply Hb. lia. Qed.

Lemma shl1_ok (s : Z) : s < 64 -> shl1 s = Ok (Z.shiftl 1 s).
Proof.
  intros Hs. unfold shl1.
  replace (s <? 64) with true by (symmetry; apply Z.ltb_lt; lia).
  reflexivity.
Qed.

Lemma shl1_inv (s b : Z) : shl1 s = Ok b -> s < 64 /\ b = Z.shiftl 1 s.
Proof.
  unfold shl1. destruct (s <? 64) eqn:E; [|discriminate].
  apply Z.ltb_lt in E. intros H. inversion H. auto.
Qed.

(** The bits of [tmp & ~(1ULL << s)]: those of [tmp] except bit [s]. *)
Lemma testbit_clear (tmp s i : Z) :
  0 <= s < 64 -> 0 <= i ->
  Z.testbit (Z.land tmp (not64 (Z.shiftl 1 s))) i =
  Z.testbit tmp i && (i <? 64) && negb (i =? s).
Proof.
  intros Hs Hi. unfold not64.
  rewrite Z.land_spec, Z.lxor_spec, Z.shiftl_1_l, Z.pow2_bits_eqb by lia.
  rewrite Z.testbit_ones_nonneg by lia.
  rewrite (Z.eqb_sym s i).
  destruct (i =? s) eqn:E, (i <? 64) eqn:E'; simpl;
    rewrite ?andb_true_r, ?andb_false_r; try reflexivity.
  apply Z.eqb_eq in E. apply Z.ltb_ge in E'. lia.
Qed.

Lemma bounded_clear (n tmp s : Z) :
  0 <= s < 64 -> bounded n tmp ->
  bounded n (Z.land tmp (not64 (Z.shiftl 1 s))).
Proof. intros _. apply bounded_land_l. Qed.

(** [ctz_from] returns the first set bit at or after [i], if there is one
    within [fuel] positions. *)
Lemma ctz_from_spec (x : Z) :
  forall (fuel : nat) (i k : Z),
    i <= k < i + Z.of_nat fuel ->
    Z.testbit x k = true ->
    i <= ctz_from fuel i x <= k /\
    Z.testbit x (ctz_from fuel i x) = true /\
    forall j, i <= j < ctz_from fuel i x -> Z.testbit x j = false.
Proof.
  induction fuel as [|fuel IH]; intros i k Hk Hbit; [lia|].
  cbn [ctz_from]. destruct (Z.testbit x i) eqn:E.
  - split; [lia|]. split; [exact E|]. intros j Hj. lia.
  - assert (Hik : i <> k) by (intros ->; congruence).
    destruct (IH (i + 1) k ltac:(lia) Hbit) as (Hr & Hb & Hlow).
    split; [lia|]. split; [exact Hb|].
    intros j Hj. destruct (Z.eq_dec j i) as [->|Hne]; [exact E|].
    apply Hlow. lia.
Qed.

Lemma ctzll_spec (n x : Z) :
  n <= 64 -> bounded n x -> x <> 0 ->
  0 <= ctzll x < n /\
  Z.testbit x (ctzll x) = true /\
  forall j, 0 <= j < ctzll x -> Z.testbit x j = false.
Proof.
  intros Hn [Hx Hb] Hne.
  assert (Hpos : 0 < x) by lia.
  pose proof (Z.bit_log2 x Hpos) as Hlog.
  pose proof (Z.log2_nonneg x) as Hlog0.
  assert (Hlt : Z.log2 x < n).
  { destruct (Z_lt_le_dec (Z.log2 x) n) as [H|H]; [exact H|].
    rewrite (Hb _ H) in Hlog. discriminate. }
  destruct (ctz_from_spec x 64 0 (Z.log2 x) ltac:(lia) Hlog)
    as (Hr & Hbit & Hlow).
  unfold ctzll. split; [lia|]. split; assumption.
Qed.

(* ================================================================= *)
(** ** Array accesses *)

Lemma read_ok {A : Type} (l : list A) (i : Z) :
  0 <= i < Z.of_nat (List.length l) ->
  exists x, read l i = Ok x /\ In x l.
Proof.
  intros Hi. unfold read.
  replace ((0 <=? i) && (i <? Z.of_nat (List.length l))) with true
    by (symmetry; apply andb_true_intro; split;
        [apply Z.leb_le|apply Z.ltb_lt]; lia).
  destruct (nth_error l (Z.to_nat i)) as [x|] eqn:E.
  - exists x. split; [reflexivity|]. eapply nth_error_In. exact E.
  - apply nth_error_None in E. lia.
Qed.

Lemma read_inv {A : Type} (l : list A) (i : Z) (x : A) :
  read l i = Ok x -> 0 <= i < Z.of_nat (List.length l) /\ In x l.
Proof.
  unfold read.
  destruct ((0 <=? i) && (i <? Z.of_nat (List.length l))) eqn:E;
    [|discriminate].
  apply andb_prop in E as [E1 E2]. apply Z.leb_le in E1. apply Z.ltb_lt in E2.
  destruct (nth_error l (Z.to_nat i)) as [y|] eqn:E'; [|discriminate].
  intros H. inversion H. subst. split; [lia|].
  eapply nth_error_In. exact E'.
Qed.

Lemma In_store {A : Type} (l : list A) :
  forall (i : nat) (x y : A), In y (store l i x) -> y = x \/ In y l.
Proof.
  induction l as [|z l IH]; intros [|i] x y H; simpl in *; try tauto.
  - destruct H as [H|H]; auto.
  - destruct H as [H|H]; auto. apply IH in H. tauto.
Qed.

Lemma write_inv {A : Type} (l l' : list A) (i : Z) (x : A) :
  write l i x = Ok l' ->
  List.length l' = List.length l /\ forall y, In y l' -> y = x \/ In y l.
Proof.
  unfold write.
  destruct ((0 <=? i) && (i <? Z.of_nat (List.length l))); [|discriminate].
  intros H. inversion H. subst. split; [apply length_store|].
  intros y. apply In_store.
Qed.

(* ================================================================= *)
(** ** The matcher on a well-formed automaton *)

(** The loop over the bits of [tmp] ends within the fuel it is given, and
    returns a set of states when [f] does: [j] bounds from below the bits
    still set. *)
Lemma union_over_ok (n n' : Z) (f : Z -> result Z) :
  n <= 64 ->
  (forall s, 0 <= s < n -> exists v, f s = Ok v /\ bounded n' v) ->
  forall (fuel : nat) (j tmp acc : Z),
    0 <= j ->
    bounded n tmp ->
    (forall i, 0 <= i < j -> Z.testbit tmp i = false) ->
    Z.max 0 (n - j) < Z.of_nat fuel ->
    bounded n' acc ->
    exists v, union_over fuel f tmp acc = Ok v /\ bounded n' v.
Proof.
  intros Hn Hf.
  induction fuel as [|fuel IH]; intros j tmp acc Hj Hb Hlow Hfuel Hacc;
    [lia|].
  cbn [union_over]. destruct (tmp =? 0) eqn:E; [eauto|].
  apply Z.eqb_neq in E.
  destruct (ctzll_spec n tmp Hn Hb E) as (Hs & Hbit & Hmin).
  set (s := ctzll tmp) in *.
  assert (Hjs : j <= s).
  { destruct (Z_lt_le_dec s j) as [H|H]; [|exact H].
    rewrite Hlow in Hbit by lia. discriminate. }
  rewrite (shl1_ok s) by lia. cbn [bind].
  destruct (Hf s Hs) as (v & Hv & Hbv). rewrite Hv. cbn [bind].
  apply (IH (s + 1)).
  - lia.
  - apply bounded_clear; [lia|exact Hb].
  - intros i Hi. rewrite testbit_clear by lia.
    destruct (Z.eq_dec i s) as [->|Hne].
    + rewrite Z.eqb_refl. now rewrite andb_false_r.
    + rewrite Hmin by lia. reflexivity.
  - lia.
  - now apply bounded_lor.
Qed.

Lemma move_ok (a : nfa) (col current : Z) :
  nfa_wf a ->
  0 <= col < symbol_count (nfa_alphabet a) ->
  bounded (nfa_states a) current ->
  exists v, move a col current = Ok v /\ bounded (nfa_states a) v.
Proof.
  intros (Hn & Hlt & Hlc & Hstart & Hrows & Hcl & Hcols) Hcol Hcur.
  unfold move.
  destruct (union_over_ok (nfa_states a) (nfa_states a)
              (fun s => row <- read (nfa_transitions a) s ;; read row col)
              ltac:(lia)) with (fuel := 65%nat) (j := 0) (tmp := current)
              (acc := 0) as (next & Hnext & Hbn);
    try lia; try assumption; try apply bounded_0.
  - intros s Hs.
    destruct (read_ok (nfa_transitions a) s ltac:(lia)) as (row & Hr & Hin).
    rewrite Hr. cbn [bind].
    destruct (Hrows row Hin) as [Hlen Hent].
    destruct (read_ok row col ltac:(lia)) as (e & He & Hine).
    exists e. split; [exact He|]. now apply Hent.
  - rewrite Hnext. cbn [bind].
    apply (union_over_ok (nfa_states a) (nfa_states a)) with (j := 0);
      try lia; try assumption; try apply bounded_0.
    intros s Hs.
    destruct (read_ok (epsilon_closures a) s ltac:(lia)) as (e & He & Hin).
    exists e. split; [exact He|]. now apply Hcl.
Qed.

(** On a well-formed automaton the matcher returns a verdict. *)
Lemma match_loop_total (a : nfa) :
  nfa_wf a ->
  forall (input : list ascii) (current : Z),
    bounded (nfa_states a) current ->
    exists b, match_loop a input current = Ok b.
Proof.
  intros Hwf. induction input as [|c input IH]; intros current Hcur.
  - simpl. eauto.
  - cbn [match_loop].
    destruct (col_of (nfa_alphabet a) c =? -1) eqn:E; [eauto|].
    apply Z.eqb_neq in E.
    assert (Hcol : 0 <= col_of (nfa_alphabet a) c < symbol_count (nfa_alphabet a)).
    { destruct Hwf as (_ & _ & _ & _ & _ & _ & Hcols).
      destruct (Hcols c); [contradiction|assumption]. }
    destruct (move_ok a _ current Hwf Hcol Hcur) as (v & Hv & Hbv).
    rewrite Hv. cbn [bind]. destruct (v =? 0); [eauto|]. now apply IH.
Qed.

(** A character without a column makes the loop return [false], at that
    character or before it. *)
Lemma match_loop_unregistered (a : nfa) (c : ascii) :
  nfa_wf a ->
  col_of (nfa_alphabet a) c = -1 ->
  forall (input : list ascii) (current : Z),
    In c input ->
    bounded (nfa_states a) current ->
    match_loop a input current = Ok false.
Proof.
  intros Hwf Hc. induction input as [|c0 input IH]; intros current Hin Hcur;
    [contradiction|].
  cbn [match_loop].
  destruct (col_of (nfa_alphabet a) c0 =? -1) eqn:E; [reflexivity|].
  apply Z.eqb_neq in E.
  destruct Hin as [->|Hin]; [contradiction|].
  assert (Hcol : 0 <= col_of (nfa_alphabet a) c0 < symbol_count (nfa_alphabet a)).
  { destruct Hwf as (_ & _ & _ & _ & _ & _ & Hcols).
    destruct (Hcols c0); [contradiction|assumption]. }
  destruct (move_ok a _ current Hwf Hcol Hcur) as (v & Hv & Hbv).
  rewrite Hv. cbn [bind]. destruct (v =? 0); [reflexivity|]. now apply IH.
Qed.

Lemma match_nfa_unregistered (a : nfa) (c : ascii) (input : list ascii) :
  nfa_wf a ->
  col_of (nfa_alphabet a) c = -1 ->
  In c input ->
  match_nfa a input = Ok false.
Proof.
  intros Hwf Hc Hin. unfold match_nfa.
  pose proof Hwf as (Hn & Hlt & Hlc & Hstart & Hrows & Hcl & Hcols).
  destruct (read_ok (epsilon_closures a) (start_state a) ltac:(lia))
    as (cur & Hr & Hcur).
  rewrite Hr. cbn [bind].
  apply (match_loop_unregistered a c Hwf Hc); [exact Hin|now apply Hcl].
Qed.

Lemma match_nfa_total (a : nfa) (input : list ascii) :
  nfa_wf a -> exists b, match_nfa a input = Ok b.
Proof.
  intros Hwf. unfold match_nfa.
  pose proof Hwf as (Hn & Hlt & Hlc & Hstart & Hrows & Hcl & Hcols).
  destruct (read_ok (epsilon_closures a) (start_state a) ltac:(lia))
    as (cur & Hr & Hcur).
  rewrite Hr. cbn [bind]. apply match_loop_total; [exact Hwf|now apply Hcl].
Qed.

(* ================================================================= *)
(** ** Compiled automata are well formed *)

Lemma to_uint8_range (n : Z) : 0 <= n -> 0 <= to_uint8 n <= n.
Proof.
  intros Hn. unfold to_uint8. split.
  - apply Z.mod_pos_bound. lia.
  - apply Z.mod_le; lia.
Qed.

Lemma to_uint8_small (n : Z) : 0 <= n < 256 -> to_uint8 n = n.
Proof. intros Hn. unfold to_uint8. now apply Z.mod_small. Qed.

(** Unfolds the state-passing code of a fragment constructor. *)
Ltac run_state :=
  unfold symbol_nfa, concat_nfa, union_nfa, kleene_closure_nfa,
    positive_closure_nfa, optional_nfa, sbind, ret, new_state,
    add_transition;
  cbn [fst snd next_id states transitions manager_alphabet start end_].

Section CompiledAutomata.

Variable EPSILON_SYMBOL : ascii.
Variable MAX_STATES : nat.

Lemma new_states_manager_wf :
  manager_wf (new_states_manager EPSILON_SYMBOL) [].
Proof. split; [reflexivity|]. split; intros ? []. Qed.

(** The ids of the states allocated from [m] are below the new [next_id];
    those in use before stay so. *)
Ltac solve_manager_wf m :=
  let H1 := fresh in let H2 := fresh in
  pose proof (to_uint8_range (next_id m)) as H1;
  pose proof (to_uint8_range (next_id m + 1)) as H2;
  unfold manager_wf, fragment_wf, states_count in *;
  cbn [next_id states transitions manager_alphabet start end_] in *;
  repeat rewrite length_app; cbn [List.length];
  repeat match goal with
         | H : _ /\ _ |- _ => destruct H
         end;
  split; [lia|];
  split; intros x Hin;
  [ repeat (apply in_app_or in Hin; destruct Hin as [Hin|Hin]);
    first [ destruct Hin as [Hin|[]]; subst x;
            cbn [from_state to_state]; lia
          | match goal with
            | H : forall t, In t (transitions m) -> _ |- _ =>
                apply H in Hin; lia
            end ]
  | destruct Hin as [Hin|Hin];
    [ subst x; cbn [start end_]; lia
    | match goal with
      | H : forall f, In f _ -> _ |- _ => apply H in Hin; lia
      end ] ].

Lemma symbol_nfa_wf (m : states_manager) (stk : list t_nfa) (c : ascii) :
  manager_wf m stk ->
  manager_wf (snd (symbol_nfa EPSILON_SYMBOL c m))
             (fst (symbol_nfa EPSILON_SYMBOL c m) :: stk).
Proof. intros H. run_state. solve_manager_wf m. Qed.

Lemma concat_nfa_wf (m : states_manager) (stk : list t_nfa) (a b : t_nfa) :
  manager_wf m stk -> fragment_wf m a -> fragment_wf m b ->
  manager_wf (snd (concat_nfa EPSILON_SYMBOL a b m))
             (fst (concat_nfa EPSILON_SYMBOL a b m) :: stk).
Proof. intros H Ha Hb. run_state. solve_manager_wf m. Qed.

Lemma union_nfa_wf (m : states_manager) (stk : list t_nfa) (a b : t_nfa) :
  manager_wf m stk -> fragment_wf m a -> fragment_wf m b ->
  manager_wf (snd (union_nfa EPSILON_SYMBOL a b m))
             (fst (union_nfa EPSILON_SYMBOL a b m) :: stk).
Proof. intros H Ha Hb. run_state. solve_manager_wf m. Qed.

Lemma positive_closure_nfa_wf (m : states_manager) (stk : list t_nfa)
    (a : t_nfa) :
  manager_wf m stk -> fragment_wf m a ->
  manager_wf (snd (positive_closure_nfa EPSILON_SYMBOL a m))
             (fst (positive_closure_nfa EPSILON_SYMBOL a m) :: stk).
Proof. intros H Ha. run_state. solve_manager_wf m. Qed.

Lemma kleene_closure_nfa_wf (m : states_manager) (stk : list t_nfa)
    (a : t_nfa) :
  manager_wf m stk -> fragment_wf m a ->
  manager_wf (snd (kleene_closure_nfa EPSILON_SYMBOL a m))
             (fst (kleene_closure_nfa EPSILON_SYMBOL a m) :: stk).
Proof. intros H Ha. run_state. solve_manager_wf m. Qed.

Lemma optional_nfa_wf (m : states_manager) (stk : list t_nfa) (a : t_nfa) :
  manager_wf m stk -> fragment_wf m a ->
  manager_wf (snd (optional_nfa EPSILON_SYMBOL a m))
             (fst (optional_nfa EPSILON_SYMBOL a m) :: stk).
Proof. intros H Ha. run_state. solve_manager_wf m. Qed.

Lemma manager_wf_pop (m : states_manager) (f : t_nfa) (stk : list t_nfa) :
  manager_wf m (f :: stk) -> manager_wf m stk /\ fragment_wf m f.
Proof.
  intros (Hn & Ht & Hs). split; [|apply Hs; now left].
  split; [exact Hn|]. split; [exact Ht|].
  intros g Hg. apply Hs. now right.
Qed.

Lemma fragment_call_wf (it : item) (popped rest : list t_nfa)
    (build : State t_nfa) (m : states_manager) :
  fragment_call EPSILON_SYMBOL it popped build ->
  manager_wf m (popped ++ rest) ->
  manager_wf (snd (build m)) (fst (build m) :: rest).
Proof.
  intros Hcall Hwf.
  destruct Hcall; cbn [app] in Hwf;
    repeat match goal with
           | H : manager_wf m (?f :: _) |- _ =>
               let Hf := fresh "Hf" in
               apply manager_wf_pop in H as [H Hf]
           end.
  - now apply symbol_nfa_wf.
  - now apply concat_nfa_wf.
  - now apply union_nfa_wf.
  - now apply kleene_closure_nfa_wf.
  - now apply positive_closure_nfa_wf.
  - now apply optional_nfa_wf.
Qed.

Lemma thompson_step_wf (m m' : states_manager) (stk stk' : list t_nfa)
    (it : item) :
  manager_wf m stk ->
  thompson_step EPSILON_SYMBOL MAX_STATES (m, stk) it = Ok (m', stk') ->
  manager_wf m' stk'.
Proof.
  intros Hwf H. apply thompson_step_call in H.
  destruct H as [[-> ->]|(popped & rest & build & Hcall & -> & -> & ->)];
    [exact Hwf|].
  eapply fragment_call_wf; eassumption.
Qed.

Lemma thompson_loop_wf (l : list item) :
  forall m stk m' stk',
    manager_wf m stk ->
    thompson_loop EPSILON_SYMBOL MAX_STATES l (m, stk) = Ok (m', stk') ->
    manager_wf m' stk'.
Proof.
  induction l as [|it l IH]; intros m stk m' stk' Hwf H.
  - inversion H. subst. exact Hwf.
  - cbn [thompson_loop] in H.
    destruct (thompson_step EPSILON_SYMBOL MAX_STATES (m, stk) it)
      as [[m1 stk1]|] eqn:E; [|discriminate].
    cbn [bind] in H. eapply IH; [|exact H].
    eapply thompson_step_wf; eassumption.
Qed.


Lemma or_entry_wf (n cols : Z) (tbl tbl' : list (list Z)) (from col bit : Z) :
  table_wf n cols tbl ->
  bounded n bit ->
  or_entry tbl from col bit = Ok tbl' ->
  table_wf n cols tbl'.
Proof.
  intros [Hlen Hrows] Hbit. unfold or_entry.
  destruct (read tbl from) as [row|] eqn:Hr; [|discriminate]. cbn [bind].
  destruct (read row col) as [old|] eqn:Ho; [|discriminate]. cbn [bind].
  destruct (write row col (Z.lor old bit)) as [row'|] eqn:Hw; [|discriminate].
  cbn [bind]. intros Hw'.
  apply read_inv in Hr as [_ Hrow]. apply read_inv in Ho as [_ Hold].
  apply write_inv in Hw as [Hl1 Hin1]. apply write_inv in Hw' as [Hl2 Hin2].
  destruct (Hrows row Hrow) as [Hrl Hre].
  split; [congruence|].
  intros r Hr. apply Hin2 in Hr. destruct Hr as [->|Hr]; [|now apply Hrows].
  split; [congruence|].
  intros e He. apply Hin1 in He. destruct He as [->|He]; [|now apply Hre].
  apply bounded_lor; [now apply Hre|exact Hbit].
Qed.

Lemma fill_table_wf (n cols : Z) (a : alphabet) (ts : list t_transition) :
  forall tbl tbl',
    table_wf n cols tbl ->
    (forall t, In t ts -> 0 <= to_state t < n) ->
    fill_table a ts tbl = Ok tbl' ->
    table_wf n cols tbl'.
Proof.
  induction ts as [|t ts IH]; intros tbl tbl' Hwf Hto H.
  - inversion H. subst. exact Hwf.
  - cbn [fill_table] in H.
    destruct (shl1 (to_state t)) as [bit|] eqn:Hs; [|discriminate].
    cbn [bind] in H. apply shl1_inv in Hs as [_ ->].
    destruct (or_entry tbl (from_state t) (col_of a (symbol t))
                (Z.shiftl 1 (to_state t))) as [tbl1|] eqn:Ho; [|discriminate].
    cbn [bind] in H. apply (IH tbl1); [| |exact H].
    + eapply or_entry_wf; [exact Hwf| |exact Ho].
      apply bounded_bit. apply Hto. now left.
    + intros t' Ht'. apply Hto. now right.
Qed.

Lemma empty_table_wf (n cols : nat) :
  table_wf (Z.of_nat n) (Z.of_nat cols) (repeat (repeat 0 cols) n).
Proof.
  split; [now rewrite repeat_length|].
  intros row Hrow. apply repeat_spec in Hrow. subst row.
  split; [now rewrite repeat_length|].
  intros e He. apply repeat_spec in He. subst e. apply bounded_0.
Qed.

(** The closure loop keeps [closure] and [stack] among the states. *)
Lemma closure_loop_bounded (n cols : Z) (tbl : list (list Z)) (epsilon_col : Z) :
  n <= 64 ->
  table_wf n cols tbl ->
  forall (fuel : nat) (closure stack c : Z),
    bounded n closure -> bounded n stack ->
    closure_loop fuel tbl epsilon_col closure stack = Ok c ->
    bounded n c.
Proof.
  intros Hn [Hlen Hrows].
  induction fuel as [|fuel IH]; intros closure stack c Hc Hs H;
    [discriminate|].
  cbn [closure_loop] in H. destruct (stack =? 0) eqn:E.
  - inversion H. subst. exact Hc.
  - apply Z.eqb_neq in E.
    destruct (ctzll_spec n stack Hn Hs E) as (Hr & _).
    rewrite (shl1_ok (ctzll stack)) in H by lia. cbn [bind] in H.
    assert (Hbit : bounded n (Z.shiftl 1 (ctzll stack)))
      by now apply bounded_bit.
    assert (Hs1 : bounded n (Z.land stack (not64 (Z.shiftl 1 (ctzll stack)))))
      by (apply bounded_clear; [lia|exact Hs]).
    destruct (negb (Z.land closure (Z.shiftl 1 (ctzll stack)) =? 0)).
    + apply (IH _ _ _ Hc Hs1 H).
    + destruct (read tbl (ctzll stack)) as [row|] eqn:Hrd; [|discriminate].
      cbn [bind] in H.
      destruct (read row epsilon_col) as [next|] eqn:Hnx; [|discriminate].
      cbn [bind] in H.
      apply read_inv in Hrd as [_ Hrow]. apply read_inv in Hnx as [_ Hnext].
      destruct (Hrows row Hrow) as [_ Hent].
      apply (IH (Z.lor closure (Z.shiftl 1 (ctzll stack)))
                (Z.lor (Z.land stack (not64 (Z.shiftl 1 (ctzll stack)))) next));
        [now apply bounded_lor| |exact H].
      apply bounded_lor; [exact Hs1|now apply Hent].
Qed.

Lemma epsilon_closure_inv (a : alphabet) (tbl : list (list Z)) (i c : Z) :
  epsilon_closure EPSILON_SYMBOL a tbl i = Ok c ->
  i < 64 /\
  exists fuel,
    closure_loop fuel tbl (col_of a EPSILON_SYMBOL) 0 (Z.shiftl 1 i) = Ok c.
Proof.
  unfold epsilon_closure. generalize closure_fuel. intros fuel.
  unfold shl1. destruct (i <? 64) eqn:E; [|discriminate].
  cbn [bind]. intros H. split; [now apply Z.ltb_lt|now exists fuel].
Qed.

Lemma calculate_epsilon_closure_wf (n cols : Z) (a : alphabet)
    (tbl : list (list Z)) :
  n <= 64 ->
  table_wf n cols tbl ->
  forall (k : nat) (i : Z) (cs : list Z),
    0 <= i -> i + Z.of_nat k <= n ->
    calculate_epsilon_closure EPSILON_SYMBOL a tbl k i = Ok cs ->
    List.length cs = k /\ forall e, In e cs -> bounded n e.
Proof.
  intros Hn Hwf.
  induction k as [|k IH]; intros i cs Hi Hk H.
  - inversion H. split; [reflexivity|]. intros e [].
  - cbn [calculate_epsilon_closure] in H.
    destruct (epsilon_closure EPSILON_SYMBOL a tbl i) as [c|] eqn:Hc;
      [|discriminate].
    cbn [bind] in H.
    destruct (calculate_epsilon_closure EPSILON_SYMBOL a tbl k (i + 1))
      as [cs'|] eqn:Hcs; [|discriminate].
    cbn [bind] in H. inversion H. subst cs.
    destruct (IH (i + 1) cs' ltac:(lia) ltac:(lia) Hcs) as [Hl Hb].
    split; [simpl; congruence|].
    intros e [<-|He]; [|now apply Hb].
    apply epsilon_closure_inv in Hc as (_ & fuel & Hc).
    eapply closure_loop_bounded; [exact Hn|exact Hwf| | |exact Hc].
    + apply bounded_0.
    + apply bounded_bit. lia.
Qed.

(** The closures of 65 states or more cannot be computed: state 64 has
    no bit in a 64-bit word. *)
Lemma calculate_epsilon_closure_limit (a : alphabet) (tbl : list (list Z)) :
  forall (k : nat) (i : Z) (cs : list Z),
    0 <= i ->
    calculate_epsilon_closure EPSILON_SYMBOL a tbl k i = Ok cs ->
    k = 0%nat \/ i + Z.of_nat k <= 64.
Proof.
  induction k as [|k IH]; intros i cs Hi H; [now left|right].
  cbn [calculate_epsilon_closure] in H.
  destruct (epsilon_closure EPSILON_SYMBOL a tbl i) as [c|] eqn:Hc;
    [|discriminate].
  cbn [bind] in H.
  destruct (calculate_epsilon_closure EPSILON_SYMBOL a tbl k (i + 1))
    as [cs'|] eqn:Hcs; [|discriminate].
  apply epsilon_closure_inv in Hc as (Hlt & _).
  destruct (IH (i + 1) cs' ltac:(lia) Hcs) as [->|Hle]; lia.
Qed.

Lemma t_nfa_to_nfa_wf (f : t_nfa) (m : states_manager) (a : nfa) :
  manager_wf m [f] ->
  reachable EPSILON_SYMBOL m ->
  t_nfa_to_nfa EPSILON_SYMBOL f m = Ok a ->
  nfa_wf a /\ nfa_alphabet a = manager_alphabet m.
Proof.
  intros (Hid & Htrans & Hstk) Hreach. unfold t_nfa_to_nfa.
  destruct (shl1 (end_ f)) as [accept|]; [|discriminate]. cbn [bind].
  set (N := states_count m).
  set (alpha := manager_alphabet m).
  destruct (fill_table alpha (transitions m)
              (repeat (repeat 0 (Z.to_nat (symbol_count alpha)))
                      (Z.to_nat (to_uint8 N)))) as [tbl|] eqn:Hfill;
    [|discriminate].
  cbn [bind].
  destruct (calculate_epsilon_closure EPSILON_SYMBOL alpha tbl (Z.to_nat N) 0)
    as [cs|] eqn:Hcalc; [|discriminate].
  cbn [bind]. intros E. inversion E. subst a. clear E.
  split; [|reflexivity].
  assert (HN0 : 0 <= N) by (unfold N, states_count; lia).
  assert (HN : N <= 64).
  { destruct (calculate_epsilon_closure_limit alpha tbl _ 0 cs ltac:(lia) Hcalc)
      as [H|H]; lia. }
  assert (Hframe : fragment_wf m f) by (apply Hstk; now left).
  assert (Htbl : table_wf N (symbol_count alpha) tbl).
  { eapply fill_table_wf; [| |exact Hfill].
    - rewrite (to_uint8_small N) by lia.
      pose proof (empty_table_wf (Z.to_nat N) (Z.to_nat (symbol_count alpha)))
        as H.
      rewrite !Z2Nat.id in H by (unfold symbol_count; lia). exact H.
    - intros t Ht. apply Htrans in Ht. fold N in Hid. lia. }
  destruct (calculate_epsilon_closure_wf N (symbol_count alpha) alpha tbl HN
              Htbl (Z.to_nat N) 0 cs ltac:(lia) ltac:(lia) Hcalc) as [Hlen Hcs].
  destruct (reachable_inv EPSILON_SYMBOL m Hreach) as ((_ & _ & Hcol) & _).
  unfold nfa_wf.
  cbn [nfa_states nfa_transitions epsilon_closures start_state nfa_alphabet].
  destruct Htbl as [Htl Hrows]. destruct Hframe as [Hst _].
  fold N in Hid. rewrite Hid in Hst.
  repeat apply conj; try lia; try assumption.
  intros c. fold alpha in Hcol. rewrite Hcol. unfold symbol_count.
  apply position_range.
Qed.

(** Every automaton that [regex_to_nfa] returns is well formed, and its
    alphabet is the one of a manager of the compilation. *)
Lemma regex_to_nfa_wf (r : regex) (a : nfa) :
  regex_to_nfa EPSILON_SYMBOL MAX_STATES r = Ok a ->
  nfa_wf a /\
  exists m stk,
    thompson_loop EPSILON_SYMBOL MAX_STATES (regex_items r)
      (new_states_manager EPSILON_SYMBOL, []) = Ok (m, stk) /\
    nfa_alphabet a = manager_alphabet m.
Proof.
  unfold regex_to_nfa.
  destruct (thompson_loop EPSILON_SYMBOL MAX_STATES (regex_items r)
              (new_states_manager EPSILON_SYMBOL, [])) as [[m stk]|] eqn:Hloop;
    [|discriminate].
  cbn [bind]. destruct stk as [|f stk]; [discriminate|]. cbn [pop bind fst].
  intros H.
  pose proof (thompson_loop_wf _ _ _ _ _ new_states_manager_wf Hloop) as Hwf.
  pose proof (thompson_loop_reachable EPSILON_SYMBOL MAX_STATES _ _ _ _ _
                (reach_new EPSILON_SYMBOL) Hloop) as Hreach.
  assert (Hwf1 : manager_wf m [f]).
  { destruct Hwf as (H1 & H2 & H3). split; [exact H1|]. split; [exact H2|].
    intros g [<-|[]]. apply H3. now left. }
  destruct (t_nfa_to_nfa_wf f m a Hwf1 Hreach H) as [Ha Halpha].
  split; [exact Ha|]. eauto.
Qed.

End CompiledAutomata.

(* ================================================================= *)
(** ** The closure loop ends within its fuel *)

Lemma filter_length_flip (f g : Z -> bool) (s : Z) (l : list Z) :
  NoDup l -> In s l ->
  f s = true -> g s = false ->
  (forall i, In i l -> i <> s -> g i = f i) ->
  S (List.length (filter g l)) = List.length (filter f l).
Proof.
  intros Hnd Hin Hf Hg Hagree.
  induction l as [|x l IH]; [contradiction|].
  inversion Hnd as [|? ? Hx Hnd']; subst.
  destruct Hin as [->|Hin].
  - simpl. rewrite Hf, Hg. simpl. f_equal.
    f_equal. apply filter_ext_in. intros i Hi. apply Hagree; [now right|].
    intros ->. contradiction.
  - simpl. rewrite (Hagree x) by (try (now left); intros ->; contradiction).
    destruct (f x); simpl; [f_equal|]; apply IH; try assumption;
      intros i Hi; apply Hagree; now right.
Qed.

Lemma positions64_NoDup : NoDup positions64.
Proof.
  unfold positions64. apply NoDup_map_NoDup_ForallPairs.
  - intros x y _ _. apply Nat2Z.inj.
  - apply seq_NoDup.
Qed.

Lemma positions64_In (s : Z) : In s positions64 <-> 0 <= s < 64.
Proof.
  unfold positions64. rewrite in_map_iff. split.
  - intros (k & <- & Hk). apply in_seq in Hk. lia.
  - intros Hs. exists (Z.to_nat s). split; [lia|]. apply in_seq. lia.
Qed.

Lemma popcount64_le (x : Z) : (popcount64 x <= 64)%nat.
Proof.
  unfold popcount64.
  pose proof (filter_length_le (Z.testbit x) positions64) as H.
  unfold positions64 in H at 2. rewrite length_map, length_seq in H.
  exact H.
Qed.

Lemma popcount64_clear (x s : Z) :
  0 <= s < 64 -> Z.testbit x s = true ->
  S (popcount64 (Z.land x (not64 (Z.shiftl 1 s)))) = popcount64 x.
Proof.
  intros Hs Hbit. unfold popcount64.
  apply (filter_length_flip _ _ s);
    [apply positions64_NoDup|now apply positions64_In|exact Hbit| |].
  - rewrite testbit_clear by lia. rewrite Z.eqb_refl. apply andb_false_r.
  - intros i Hi Hne. apply positions64_In in Hi.
    rewrite testbit_clear by lia.
    replace (i <? 64) with true by (symmetry; apply Z.ltb_lt; lia).
    replace (i =? s) with false by (symmetry; apply Z.eqb_neq; lia).
    now rewrite !andb_true_r.
Qed.

Lemma popcount64_set (x s : Z) :
  0 <= s < 64 -> Z.testbit x s = false ->
  popcount64 (Z.lor x (Z.shiftl 1 s)) = S (popcount64 x).
Proof.
  intros Hs Hbit. unfold popcount64. symmetry.
  apply (filter_length_flip _ _ s);
    [apply positions64_NoDup|now apply positions64_In| |exact Hbit|].
  - rewrite Z.lor_spec, Z.shiftl_1_l, Z.pow2_bits_eqb, Z.eqb_refl by lia.
    apply orb_true_r.
  - intros i Hi Hne. apply positions64_In in Hi.
    rewrite Z.lor_spec, Z.shiftl_1_l, Z.pow2_bits_eqb by lia.
    replace (s =? i) with false by (symmetry; apply Z.eqb_neq; lia).
    now rewrite orb_false_r.
Qed.

(** The test [closure & (1ULL << s)] of the loop. *)
Lemma land_bit_eqb (x s : Z) :
  0 <= s -> (Z.land x (Z.shiftl 1 s) =? 0) = negb (Z.testbit x s).
Proof.
  intros Hs. rewrite Z.shiftl_1_l.
  destruct (Z.testbit x s) eqn:E; simpl.
  - apply Z.eqb_neq. intros H.
    assert (Hb : Z.testbit (Z.land x (2 ^ s)) s = true).
    { rewrite Z.land_spec, E, Z.pow2_bits_eqb, Z.eqb_refl by lia.
      reflexivity. }
    rewrite H, Z.bits_0 in Hb. discriminate.
  - apply Z.eqb_eq. apply Z.bits_inj_0. intros i.
    rewrite Z.land_spec.
    destruct (Z.eq_dec i s) as [->|Hne]; [now rewrite E|].
    rewrite Z.pow2_bits_false by lia. apply andb_false_r.
Qed.

Lemma closure_loop_unfold (fuel : nat) (tbl : list (list Z))
    (epsilon_col closure stack : Z) :
  closure_loop (S fuel) tbl epsilon_col closure stack =
  if stack =? 0 then Ok closure
  else
    b <- shl1 (ctzll stack) ;;
    if negb (Z.land closure b =? 0) then
      closure_loop fuel tbl epsilon_col closure (Z.land stack (not64 b))
    else
      row <- read tbl (ctzll stack) ;;
      next <- read row epsilon_col ;;
      closure_loop fuel tbl epsilon_col (Z.lor closure b)
        (Z.lor (Z.land stack (not64 b)) next).
Proof. reflexivity. Qed.

(** The measure decreases at every iteration. *)
Lemma closure_measure_skip (closure stack stack1 : Z) :
  S (popcount64 stack1) = popcount64 stack ->
  S (closure_measure closure stack1) = closure_measure closure stack.
Proof.
  unfold closure_measure.
  generalize (popcount64 closure), (popcount64 stack), (popcount64 stack1).
  intros. lia.
Qed.

Lemma closure_measure_add (closure closure1 stack stack1 : Z) :
  popcount64 closure1 = S (popcount64 closure) ->
  (closure_measure closure1 stack1 < closure_measure closure stack)%nat.
Proof.
  intros H.
  pose proof (popcount64_le closure1) as H1.
  pose proof (popcount64_le stack1) as H2.
  unfold closure_measure. revert H H1 H2.
  generalize (popcount64 closure), (popcount64 stack), (popcount64 stack1),
    (popcount64 closure1).
  intros. lia.
Qed.
(** On a table of state sets the closure loop returns a set of states:
    it reads inside the table, and it stops before its fuel is spent when
    the fuel exceeds the measure. *)
Lemma closure_loop_total (n cols : Z) (tbl : list (list Z)) (epsilon_col : Z) :
  n <= 64 ->
  table_wf n cols tbl ->
  0 <= epsilon_col < cols ->
  forall (fuel : nat) (closure stack : Z),
    bounded n closure -> bounded n stack ->
    (closure_measure closure stack < fuel)%nat ->
    exists c, closure_loop fuel tbl epsilon_col closure stack = Ok c /\
              bounded n c.
Proof.
  intros Hn [Hlen Hrows] Hcol.
  induction fuel as [|fuel IH]; intros closure stack Hc Hs Hfuel; [lia|].
  rewrite closure_loop_unfold. destruct (stack =? 0) eqn:E; [eauto|].
  apply Z.eqb_neq in E.
  destruct (ctzll_spec n stack Hn Hs E) as (Hr & Hbit & _).
  remember (ctzll stack) as s eqn:Heqs. clear Heqs.
  rewrite (shl1_ok s) by lia. cbn [bind].
  rewrite land_bit_eqb by lia. rewrite negb_involutive.
  pose proof (popcount64_clear stack s ltac:(lia) Hbit) as Hclear.
  assert (Hs1 : bounded n (Z.land stack (not64 (Z.shiftl 1 s))))
    by (apply bounded_clear; [lia|exact Hs]).
  destruct (Z.testbit closure s) eqn:Hin.
  - apply IH; [exact Hc|exact Hs1|].
    apply closure_measure_skip with (closure := closure) in Hclear.
    revert Hclear Hfuel.
    generalize (closure_measure closure stack),
      (closure_measure closure (Z.land stack (not64 (Z.shiftl 1 s)))).
    intros; lia.
  - destruct (read_ok tbl s ltac:(lia)) as (row & Hrd & Hrow).
    rewrite Hrd. cbn [bind].
    destruct (Hrows row Hrow) as [Hrl Hent].
    destruct (read_ok row epsilon_col ltac:(lia)) as (next & Hnx & Hnext).
    rewrite Hnx. cbn [bind].
    pose proof (popcount64_set closure s ltac:(lia) Hin) as Hset.
    apply IH.
    + apply bounded_lor; [exact Hc|apply bounded_bit; lia].
    + apply bounded_lor; [exact Hs1|now apply Hent].
    + pose proof (closure_measure_add closure _ stack
                    (Z.lor (Z.land stack (not64 (Z.shiftl 1 s))) next) Hset)
        as Hadd.
      revert Hadd Hfuel.
      generalize (closure_measure closure stack),
        (closure_measure (Z.lor closure (Z.shiftl 1 s))
           (Z.lor (Z.land stack (not64 (Z.shiftl 1 s))) next)).
      intros; lia.
Qed.

(* ================================================================= *)
(** ** Compilation succeeds within the capacity of 64 states *)

Lemma write_ok {A : Type} (l : list A) (i : Z) (x : A) :
  0 <= i < Z.of_nat (List.length l) -> exists l', write l i x = Ok l'.
Proof.
  intros Hi. unfold write.
  replace ((0 <=? i) && (i <? Z.of_nat (List.length l))) with true
    by (symmetry; apply andb_true_intro; split;
        [apply Z.leb_le|apply Z.ltb_lt]; lia).
  eauto.
Qed.

Lemma or_entry_ok (n cols : Z) (tbl : list (list Z)) (from col bit : Z) :
  table_wf n cols tbl ->
  0 <= from < n -> 0 <= col < cols ->
  exists tbl', or_entry tbl from col bit = Ok tbl'.
Proof.
  intros [Hlen Hrows] Hfrom Hcol. unfold or_entry.
  destruct (read_ok tbl from ltac:(lia)) as (row & Hr & Hrow).
  rewrite Hr. cbn [bind].
  destruct (Hrows row Hrow) as [Hrl _].
  destruct (read_ok row col ltac:(lia)) as (old & Ho & _).
  rewrite Ho. cbn [bind].
  destruct (write_ok row col (Z.lor old bit) ltac:(lia)) as (row' & Hw).
  rewrite Hw. cbn [bind].
  apply write_ok. lia.
Qed.

Lemma fill_table_ok (n cols : Z) (a : alphabet) (ts : list t_transition) :
  n <= 64 ->
  (forall t, In t ts ->
     0 <= from_state t < n /\ 0 <= to_state t < n /\
     0 <= col_of a (symbol t) < cols) ->
  forall tbl,
    table_wf n cols tbl ->
    exists tbl', fill_table a ts tbl = Ok tbl' /\ table_wf n cols tbl'.
Proof.
  intros Hn. induction ts as [|t ts IH]; intros Hts tbl Hwf.
  - simpl. eauto.
  - cbn [fill_table].
    destruct (Hts t (or_introl eq_refl)) as (Hfrom & Hto & Hcol).
    rewrite (shl1_ok (to_state t)) by lia. cbn [bind].
    destruct (or_entry_ok n cols tbl (from_state t) (col_of a (symbol t))
                (Z.shiftl 1 (to_state t)) Hwf Hfrom Hcol) as (tbl1 & Ho).
    rewrite Ho. cbn [bind]. apply IH.
    + intros t' Ht'. apply Hts. now right.
    + eapply or_entry_wf; [exact Hwf| |exact Ho]. now apply bounded_bit.
Qed.

Lemma closure_fuel_enough (closure stack : Z) :
  (closure_measure closure stack < closure_fuel)%nat.
Proof.
  pose proof (popcount64_le stack) as H. unfold closure_measure.
  revert H. generalize (popcount64 closure), (popcount64 stack).
  intros c s H.
  assert (Hf : closure_fuel = 4225%nat) by (vm_compute; reflexivity).
  rewrite Hf. lia.
Qed.

Section Compilation.

Variable EPSILON_SYMBOL : ascii.
Variable MAX_STATES : nat.

Lemma epsilon_closure_ok (n cols : Z) (a : alphabet) (tbl : list (list Z))
    (i : Z) :
  n <= 64 ->
  table_wf n cols tbl ->
  0 <= col_of a EPSILON_SYMBOL < cols ->
  0 <= i < n ->
  exists c, epsilon_closure EPSILON_SYMBOL a tbl i = Ok c.
Proof.
  intros Hn Hwf Hcol Hi. unfold epsilon_closure.
  rewrite (shl1_ok i) by lia. cbn [bind].
  destruct (closure_loop_total n cols tbl (col_of a EPSILON_SYMBOL) Hn Hwf
              Hcol closure_fuel 0 (Z.shiftl 1 i)) as (c & Hc & _);
    [apply bounded_0|now apply bounded_bit|apply closure_fuel_enough|].
  eauto.
Qed.

Lemma calculate_epsilon_closure_ok (n cols : Z) (a : alphabet)
    (tbl : list (list Z)) :
  n <= 64 ->
  table_wf n cols tbl ->
  0 <= col_of a EPSILON_SYMBOL < cols ->
  forall (k : nat) (i : Z),
    0 <= i -> i + Z.of_nat k <= n ->
    exists cs, calculate_epsilon_closure EPSILON_SYMBOL a tbl k i = Ok cs.
Proof.
  intros Hn Hwf Hcol.
  induction k as [|k IH]; intros i Hi Hk; [simpl; eauto|].
  cbn [calculate_epsilon_closure].
  destruct (epsilon_closure_ok n cols a tbl i Hn Hwf Hcol ltac:(lia))
    as (c & Hc).
  rewrite Hc. cbn [bind].
  destruct (IH (i + 1) ltac:(lia) ltac:(lia)) as (cs & Hcs).
  rewrite Hcs. cbn [bind]. eauto.
Qed.

(** The table and the closures can be built for every manager of a
    compilation that holds at most 64 states. *)
Lemma t_nfa_to_nfa_ok (f : t_nfa) (m : states_manager) :
  manager_wf m [f] ->
  reachable EPSILON_SYMBOL m ->
  states_count m <= 64 ->
  exists a, t_nfa_to_nfa EPSILON_SYMBOL f m = Ok a.
Proof.
  intros (Hid & Htrans & Hstk) Hreach Hcap. unfold t_nfa_to_nfa.
  destruct (Hstk f (or_introl eq_refl)) as [_ Hend].
  rewrite (shl1_ok (end_ f)) by lia. cbn [bind].
  set (N := states_count m) in *.
  set (alpha := manager_alphabet m).
  assert (HN0 : 0 <= N) by (unfold N, states_count; lia).
  destruct (reachable_inv EPSILON_SYMBOL m Hreach)
    as ((_ & _ & Hcol) & _ & Heps & Hsyms).
  fold alpha in Hcol, Heps, Hsyms.
  assert (Hreg : forall c, In c (symbols alpha) ->
                           0 <= col_of alpha c < symbol_count alpha).
  { intros c Hc. rewrite Hcol. unfold symbol_count.
    destruct (position_range (symbols alpha) c) as [H|H]; [|exact H].
    apply position_none in H. contradiction. }
  rewrite (to_uint8_small N) by lia.
  destruct (fill_table_ok N (symbol_count alpha) alpha (transitions m) Hcap)
    with (tbl := repeat (repeat 0 (Z.to_nat (symbol_count alpha)))
                        (Z.to_nat N)) as (tbl & Hfill & Htbl).
  - intros t Ht. destruct (Htrans t Ht) as [Hfrom Hto].
    rewrite Hid in Hfrom, Hto. fold N in Hfrom, Hto.
    repeat split; try lia; apply Hreg; now apply Hsyms.
  - pose proof (empty_table_wf (Z.to_nat N) (Z.to_nat (symbol_count alpha)))
      as H.
    rewrite !Z2Nat.id in H by (unfold symbol_count; lia). exact H.
  - rewrite Hfill. cbn [bind].
    destruct (calculate_epsilon_closure_ok N (symbol_count alpha) alpha tbl
                Hcap Htbl) with (k := Z.to_nat N) (i := 0) as (cs & Hcs);
      try lia.
    + apply Hreg. eapply nth_error_In. exact Heps.
    + rewrite Hcs. cbn [bind]. eauto.
Qed.

(** Each iteration allocates two states for an item that is neither a
    concatenation nor a parenthesis, and none for the others. *)
Lemma fragment_call_states (it : item) (popped : list t_nfa)
    (build : State t_nfa) (m : states_manager) :
  fragment_call EPSILON_SYMBOL it popped build ->
  List.length (states (snd (build m))) =
  (List.length (states m) + (if allocates it then 2 else 0))%nat.
Proof.
  intros Hcall. unfold allocates.
  destruct Hcall as [T|a b T|a b T|a T|a T|a T]; rewrite T; run_state;
    rewrite ?length_app; simpl; lia.
Qed.

Lemma thompson_loop_states (l : list item) :
  forall m stk m' stk',
    thompson_loop EPSILON_SYMBOL MAX_STATES l (m, stk) = Ok (m', stk') ->
    (List.length (states m') <=
     List.length (states m) + 2 * count allocates l)%nat.
Proof.
  induction l as [|it l IH]; intros m stk m' stk' H.
  - inversion H. subst. lia.
  - cbn [thompson_loop] in H.
    destruct (thompson_step EPSILON_SYMBOL MAX_STATES (m, stk) it)
      as [[m1 stk1]|] eqn:E; [|discriminate].
    cbn [bind] in H. apply IH in H.
    assert (Hstep : (List.length (states m1) <=
                     List.length (states m) +
                     (if allocates it then 2 else 0))%nat).
    { apply thompson_step_call in E.
      destruct E as [[-> _]|(popped & rest & build & Hcall & _ & -> & _)];
        [lia|].
      rewrite (fragment_call_states _ _ _ _ Hcall). lia. }
    unfold count in *. cbn [filter].
    destruct (allocates it); cbn [List.length]; lia.
Qed.

(** Compilation succeeds when the loop of [regex_to_nfa] ends with a
    fragment on its stack and at most 64 states. *)
Lemma regex_to_nfa_ok (r : regex) (m : states_manager) (f : t_nfa)
    (stk : list t_nfa) :
  thompson_loop EPSILON_SYMBOL MAX_STATES (regex_items r)
    (new_states_manager EPSILON_SYMBOL, []) = Ok (m, f :: stk) ->
  states_count m <= 64 ->
  exists a, regex_to_nfa EPSILON_SYMBOL MAX_STATES r = Ok a.
Proof.
  intros Hloop Hcap. unfold regex_to_nfa. rewrite Hloop. cbn [bind pop fst].
  pose proof (thompson_loop_wf EPSILON_SYMBOL MAX_STATES _ _ _ _ _
                (new_states_manager_wf EPSILON_SYMBOL) Hloop) as Hwf.
  pose proof (thompson_loop_reachable EPSILON_SYMBOL MAX_STATES _ _ _ _ _
                (reach_new EPSILON_SYMBOL) Hloop) as Hreach.
  apply t_nfa_to_nfa_ok; [|exact Hreach|exact Hcap].
  destruct Hwf as (H1 & H2 & H3). split; [exact H1|]. split; [exact H2|].
  intros g [<-|[]]. apply H3. now left.
Qed.

(** Every well-formed pattern of at most 32 characters compiles, when
    the fragment stack has room for one fragment per character: the
    closure loops end, no table is read outside its bounds and no shift
    exceeds the 64 bits of a state set. *)
Lemma well_formed_pattern_compiles (pattern : string) :
  Spec.well_formed pattern = true ->
  (String.length pattern <= MAX_STATES)%nat ->
  (String.length pattern <= 32)%nat ->
  exists a,
    compile EPSILON_SYMBOL MAX_STATES pattern = Ok a /\ nfa_wf a.
Proof.
  intros Hwf Hmax Hlen.
  destruct (well_formed_postfix pattern Hwf)
    as (post & Hparse & Hh & Hops & Halloc).
  destruct (thompson_loop_heights EPSILON_SYMBOL MAX_STATES post
              (new_states_manager EPSILON_SYMBOL) [] 1%nat)
    as (m & stk & Hrun & Hstk); [simpl; lia|exact Hh|].
  destruct stk as [|f stk]; [discriminate|].
  pose proof (thompson_loop_states _ _ _ _ _ Hrun) as Hstates.
  cbn [new_states_manager states List.length] in Hstates.
  unfold compile.
  destruct (regex_to_nfa_ok (parse_regex (Some pattern)) m f stk) as (a & Ha).
  - rewrite Hparse, regex_items_parsed. exact Hrun.
  - unfold states_count. lia.
  - exists a. split; [exact Ha|].
    now destruct (regex_to_nfa_wf EPSILON_SYMBOL MAX_STATES _ _ Ha).
Qed.

End Compilation.

(* ================================================================= *)
(** ** Where the symbols of an alphabet come from *)

Lemma first_seen_In (epsilon : ascii) (syms : list ascii) (c : ascii) :
  In c (first_seen epsilon syms) -> c = epsilon \/ In c syms.
Proof.
  induction syms as [|x syms IH] using rev_ind.
  - simpl. intros [H|[]]. now left.
  - rewrite first_seen_snoc.
    destruct (existsb (Ascii.eqb x) (first_seen epsilon syms)).
    + intros H. apply IH in H. rewrite in_app_iff. tauto.
    + rewrite !in_app_iff. simpl. intros [H|[H|[]]]; [|now auto].
      apply IH in H. tauto.
Qed.

Section Symbols.

Variable EPSILON_SYMBOL : ascii.
Variable MAX_STATES : nat.

(** An iteration of [regex_to_nfa] records transitions on the epsilon
    symbol and, for an operand, one transition on its character. *)
Lemma fragment_call_symbols (it : item) (popped : list t_nfa)
    (build : State t_nfa) (m : states_manager) :
  fragment_call EPSILON_SYMBOL it popped build ->
  forall t, In t (transitions (snd (build m))) ->
    In t (transitions m) \/ symbol t = EPSILON_SYMBOL \/
    (type it = OPERAND /\ symbol t = value it).
Proof.
  intros Hcall t.
  destruct Hcall; run_state; intros Ht;
    repeat (apply in_app_or in Ht; destruct Ht as [Ht|Ht]);
    try (now left);
    destruct Ht as [<-|[]]; right; cbn [symbol]; auto.
Qed.

Lemma thompson_step_symbols (m m' : states_manager) (stk stk' : list t_nfa)
    (it : item) :
  thompson_step EPSILON_SYMBOL MAX_STATES (m, stk) it = Ok (m', stk') ->
  forall t, In t (transitions m') ->
    In t (transitions m) \/ symbol t = EPSILON_SYMBOL \/
    (type it = OPERAND /\ symbol t = value it).
Proof.
  intros H t Ht. apply thompson_step_call in H.
  destruct H as [[-> _]|(popped & rest & build & Hcall & _ & -> & _)];
    [now left|].
  eapply fragment_call_symbols; eassumption.
Qed.

Lemma thompson_loop_symbols (l : list item) :
  forall m stk m' stk',
    thompson_loop EPSILON_SYMBOL MAX_STATES l (m, stk) = Ok (m', stk') ->
    forall t, In t (transitions m') ->
      In t (transitions m) \/ symbol t = EPSILON_SYMBOL \/
      exists it, In it l /\ type it = OPERAND /\ value it = symbol t.
Proof.
  induction l as [|it l IH]; intros m stk m' stk' H t Ht.
  - inversion H. subst. now left.
  - cbn [thompson_loop] in H.
    destruct (thompson_step EPSILON_SYMBOL MAX_STATES (m, stk) it)
      as [[m1 stk1]|] eqn:E; [|discriminate].
    cbn [bind] in H.
    destruct (IH _ _ _ _ H t Ht) as [H1|[H1|(it' & Hin & Hty & Hv)]].
    + destruct (thompson_step_symbols _ _ _ _ _ E t H1) as [H2|[H2|[H2 H3]]].
      * now left.
      * right. now left.
      * right. right. exists it. split; [now left|]. split; congruence.
    + right. now left.
    + right. right. exists it'. split; [now right|]. now split.
Qed.

(** The characters with a column in a compiled automaton: the epsilon
    symbol and the operands of the postfix sequence, nothing else. *)
Lemma regex_to_nfa_symbols (r : regex) (a : nfa) (c : ascii) :
  regex_to_nfa EPSILON_SYMBOL MAX_STATES r = Ok a ->
  col_of (nfa_alphabet a) c <> -1 ->
  c = EPSILON_SYMBOL \/
  exists it, In it (regex_items r) /\ type it = OPERAND /\ value it = c.
Proof.
  intros Hcompile Hc.
  destruct (regex_to_nfa_wf EPSILON_SYMBOL MAX_STATES r a Hcompile)
    as (_ & m & stk & Hloop & Halpha).
  pose proof (thompson_loop_reachable EPSILON_SYMBOL MAX_STATES _ _ _ _ _
                (reach_new EPSILON_SYMBOL) Hloop) as Hreach.
  destruct (reachable_inv EPSILON_SYMBOL m Hreach)
    as ((_ & _ & Hcol) & Hseen & _).
  rewrite Halpha, Hcol in Hc.
  assert (Hin : In c (symbols (manager_alphabet m))).
  { destruct (in_dec ascii_dec c (symbols (manager_alphabet m))) as [H|H];
      [exact H|]. apply position_none in H. contradiction. }
  rewrite Hseen in Hin. apply first_seen_In in Hin.
  destruct Hin as [Hin|Hin]; [now left|].
  apply in_map_iff in Hin. destruct Hin as (t & Ht & Hin).
  destruct (thompson_loop_symbols _ _ _ _ _ Hloop t Hin)
    as [[]|[H|(it & H1 & H2 & H3)]].
  - left. congruence.
  - right. exists it. split; [exact H1|]. split; congruence.
Qed.

End Symbols.

(** Shunting-Yard outputs items of its input only. *)
Lemma pop_operators_In (cur : item_type) (stack : list item) :
  forall out it,
    In it (fst (pop_operators cur stack out)) \/
    In it (snd (pop_operators cur stack out)) ->
    In it stack \/ In it out.
Proof.
  induction stack as [|top rest IH]; intros out it; simpl; [tauto|].
  destruct (negb (is_lparen top) &&
            (get_precedence cur <=? get_precedence (type top))); simpl.
  - intros H. apply IH in H. rewrite in_app_iff in H. simpl in H. tauto.
  - tauto.
Qed.

Lemma pop_to_lparen_In (stack : list item) :
  forall out it,
    In it (fst (pop_to_lparen stack out)) \/
    In it (snd (pop_to_lparen stack out)) ->
    In it stack \/ In it out.
Proof.
  induction stack as [|top rest IH]; intros out it; simpl; [tauto|].
  destruct (negb (is_lparen top)); simpl.
  - intros H. apply IH in H. rewrite in_app_iff in H. simpl in H. tauto.
  - tauto.
Qed.

Lemma drain_stack_In (stack : list item) :
  forall out post it,
    drain_stack stack out = Some post ->
    In it post -> In it stack \/ In it out.
Proof.
  induction stack as [|top rest IH]; intros out post it H Hin; simpl in H.
  - inversion H. subst. now right.
  - destruct (is_lparen top); [discriminate|].
    destruct (IH _ _ _ H Hin) as [H'|H']; [left; now right|].
    rewrite in_app_iff in H'. simpl in H'. simpl. tauto.
Qed.

Lemma shunting_from_In (l : list item) :
  forall stack out post it,
    shunting_from l (stack, out) = Some post ->
    In it post -> In it l \/ In it stack \/ In it out.
Proof.
  unfold shunting_from.
  induction l as [|cur l IH]; intros stack out post it H Hin.
  - right. eapply drain_stack_In; eassumption.
  - cbn [shunting_loop shunting_step] in H.
    destruct (type cur) eqn:T;
      try (match type of H with
           | context [pop_operators ?op stack out] =>
               pose proof (pop_operators_In op stack out it) as Hp;
               destruct (pop_operators op stack out) as [stack' out']
           end;
           simpl in Hp;
           destruct (IH _ _ _ _ H Hin) as [H'|[[H'|H']|H']];
           simpl; tauto).
    + destruct (IH _ _ _ _ H Hin) as [H'|[H'|H']]; simpl; try tauto.
      rewrite in_app_iff in H'. simpl in H'. tauto.
    + destruct (IH _ _ _ _ H Hin) as [H'|[[H'|H']|H']]; simpl; tauto.
    + pose proof (pop_to_lparen_In stack out it) as Hp.
      destruct (pop_to_lparen stack out) as [stack' out'].
      simpl in Hp. destruct stack' as [|top rest]; [discriminate|].
      destruct (IH _ _ _ _ H Hin) as [H'|[H'|H']]; simpl in *; tauto.
Qed.

Lemma shunting_yard_In (l post : list item) (it : item) :
  shunting_yard (Some l) = Some post -> In it post -> In it l.
Proof.
  unfold shunting_yard.
  destruct (Z.of_nat (List.length l) <=? 0); [discriminate|].
  intros H Hin.
  destruct (shunting_from_In l [] [] post it H Hin) as [H'|[[]|[]]].
  exact H'.
Qed.

Lemma expand_In (l : list item) (it : item) :
  In it (Spec.expand l) ->
  In it l \/ it = new_item CONCAT_SYMBOL CONCATENATION.
Proof.
  induction l as [|x rest IH]; [simpl; tauto|].
  destruct rest as [|y rest']; [simpl; tauto|].
  rewrite expand_cons.
  destruct (Spec.can_terminate (type x) && Spec.can_begin (type y));
    cbn [In]; intros H; repeat destruct H as [H|H]; auto;
    apply IH in H; cbn [In] in *; tauto.
Qed.

(** A literal dot among the tokens comes from an escaped dot. *)
Lemma tokens_literal_dot_aux (s : list ascii) :
  (In (new_item "." OPERAND) (Spec.tokens s) ->
   exists pre rest, s = pre ++ ESCAPE_SYMBOL :: "."%char :: rest) /\
  forall c,
    In (new_item "." OPERAND) (Spec.tokens (c :: s)) ->
    exists pre rest, c :: s = pre ++ ESCAPE_SYMBOL :: "."%char :: rest.
Proof.
  assert (Hsingle : forall c : ascii,
             new_item c (get_item_type c) <> new_item "." OPERAND).
  { intros c H. inversion H as [[Hv Ht]]. subst c. discriminate. }
  induction s as [|d rest [IH1 IH2]].
  - split; [intros []|].
    intros c. simpl. destruct (Ascii.eqb c ESCAPE_SYMBOL).
    + intros [H|[]]. discriminate.
    + intros [H|[]]. now apply Hsingle in H.
  - split; [apply IH2|].
    intros c. rewrite tokens_cons.
    destruct (Ascii.eqb c ESCAPE_SYMBOL) eqn:E.
    + apply Ascii.eqb_eq in E. subst c. intros [H|H].
      * inversion H. subst d. exists [], rest. reflexivity.
      * destruct (IH1 H) as (pre & rest' & ->).
        exists (ESCAPE_SYMBOL :: d :: pre), rest'. reflexivity.
    + intros [H|H]; [now apply Hsingle in H|].
      destruct (IH2 d H) as (pre & rest' & Heq).
      exists (c :: pre), rest'. simpl. now rewrite Heq.
Qed.

(** The character of a token is a character of the string. *)
Lemma tokens_value_In_aux (s : list ascii) (it : item) :
  (In it (Spec.tokens s) -> In (value it) s) /\
  forall c, In it (Spec.tokens (c :: s)) -> In (value it) (c :: s).
Proof.
  induction s as [|d rest [IH1 IH2]].
  - split; [intros []|].
    intros c. simpl. destruct (Ascii.eqb c ESCAPE_SYMBOL) eqn:E.
    + apply Ascii.eqb_eq in E. intros [<-|[]]. left. now subst.
    + intros [<-|[]]. now left.
  - split; [apply IH2|].
    intros c. rewrite tokens_cons.
    destruct (Ascii.eqb c ESCAPE_SYMBOL).
    + intros [<-|H]; [right; now left|]. right. right. now apply IH1.
    + intros [<-|H]; [now left|]. right. now apply IH2.
Qed.

Lemma tokens_value_In (s : list ascii) (it : item) :
  In it (Spec.tokens s) -> In (value it) s.
Proof. apply tokens_value_In_aux. Qed.

(** The operands of the postfix sequence are tokens of the pattern. *)
Lemma parse_regex_operand (pattern : string) (it : item) :
  In it (regex_items (parse_regex (Some pattern))) ->
  type it = OPERAND ->
  In it (Spec.tokens (list_ascii_of_string pattern)).
Proof.
  intros Hit Hty. rewrite parse_regex_stages in Hit.
  destruct (Spec.tokens (list_ascii_of_string pattern)) as [|t toks] eqn:Ht;
    [contradiction|].
  destruct (shunting_yard (Some (Spec.expand (t :: toks)))) as [post|] eqn:Hs;
    [|contradiction].
  rewrite regex_items_parsed in Hit.
  apply (shunting_yard_In _ _ _ Hs) in Hit.
  apply expand_In in Hit. destruct Hit as [Hit|Hit]; [exact Hit|].
  subst it. discriminate.
Qed.

Lemma tokens_literal_dot (s : list ascii) :
  In (new_item "." OPERAND) (Spec.tokens s) ->
  exists pre rest, s = pre ++ ESCAPE_SYMBOL :: "."%char :: rest.
Proof. apply tokens_literal_dot_aux. Qed.

(** C6. For every automaton that [regex_to_nfa] returns and every
    input that holds a character without a column in its alphabet,
    whatever stands before and after that character, [match_nfa] returns
    the ordinary result [false] (not a fault). *)
Theorem unregistered_symbol_fails
    (EPSILON_SYMBOL : ascii) (MAX_STATES : nat) (r : regex) (a : nfa)
    (before after : list ascii) (c : ascii) :
  regex_to_nfa EPSILON_SYMBOL MAX_STATES r = Ok a ->
  col_of (nfa_alphabet a) c = -1 ->
  match_nfa a (before ++ c :: after) = Ok false.
Proof.
  intros Hcompile Hc.
  destruct (regex_to_nfa_wf EPSILON_SYMBOL MAX_STATES r a Hcompile) as [Hwf _].
  apply (match_nfa_unregistered a c); [exact Hwf|exact Hc|].
  apply in_or_app. right. now left.
Qed.

Lemma unregistered_symbol_fails_witness :
  regex_to_nfa zero 64 (parse_regex (Some "a"%string)) = Ok literal_a_nfa /\
  col_of (nfa_alphabet literal_a_nfa) "b" = -1 /\
  match_nfa literal_a_nfa (["a"%char] ++ "b"%char :: ["a"%char]) = Ok false.
Proof.
  assert (H : regex_to_nfa zero 64 (parse_regex (Some "a"%string)) =
              Ok literal_a_nfa) by (vm_compute; reflexivity).
  split; [exact H|]. split; [reflexivity|].
  apply (unregistered_symbol_fails zero 64 (parse_regex (Some "a"%string))
           literal_a_nfa ["a"%char] ["a"%char] "b"%char H).
  reflexivity.
Defined.

(* ================================================================= *)
(** ** Matching: the examples of the specification

    The statements hold for every value of [EPSILON_SYMBOL] (excluding,
    where stated, a character of the pattern) and for every capacity
    [MAX_STATES] of the fragment stack that the pattern fits in; the proofs
    run the compiler and the matcher for each of the 256 byte values. *)

Ltac each_epsilon eps :=
  destruct eps as [[] [] [] [] [] [] [] []];
  first [ solve [vm_compute; repeat split; reflexivity]
        | exfalso; congruence ].

(** C4. The literal, closure and alternation examples: "a" matches "a"
    and neither "b" nor the empty input; "a*" matches the empty input and
    "aaaa"; "a+" matches "a" and not the empty input; "a|b" matches "a"
    and not "c".  The epsilon symbol is assumed not to be the letter a,
    and the fragment stack to have room for two fragments. *)
Theorem literal_closure_alternation_examples
    (EPSILON_SYMBOL : ascii) (MAX_STATES : nat) :
  EPSILON_SYMBOL <> "a"%char ->
  (2 <= MAX_STATES)%nat ->
  matches EPSILON_SYMBOL MAX_STATES "a" "a" = Ok true /\
  matches EPSILON_SYMBOL MAX_STATES "a" "b" = Ok false /\
  matches EPSILON_SYMBOL MAX_STATES "a" "" = Ok false /\
  matches EPSILON_SYMBOL MAX_STATES "a*" "" = Ok true /\
  matches EPSILON_SYMBOL MAX_STATES "a*" "aaaa" = Ok true /\
  matches EPSILON_SYMBOL MAX_STATES "a+" "" = Ok false /\
  matches EPSILON_SYMBOL MAX_STATES "a+" "a" = Ok true /\
  matches EPSILON_SYMBOL MAX_STATES "a|b" "a" = Ok true /\
  matches EPSILON_SYMBOL MAX_STATES "a|b" "c" = Ok false.
Proof.
  intros Heps Hmax.
  destruct MAX_STATES as [|[|n]]; [lia|lia|clear Hmax].
  each_epsilon EPSILON_SYMBOL.
Qed.

Lemma literal_closure_alternation_examples_witness :
  zero <> "a"%char /\ (2 <= 64)%nat /\
  matches zero 64 "a" "a" = Ok true /\
  matches zero 64 "a" "b" = Ok false /\
  matches zero 64 "a" "" = Ok false /\
  matches zero 64 "a*" "" = Ok true /\
  matches zero 64 "a*" "aaaa" = Ok true /\
  matches zero 64 "a+" "" = Ok false /\
  matches zero 64 "a+" "a" = Ok true /\
  matches zero 64 "a|b" "a" = Ok true /\
  matches zero 64 "a|b" "c" = Ok false.
Proof.
  split; [discriminate|]. split; [lia|].
  apply (literal_closure_alternation_examples zero 64); [discriminate|lia].
Defined.

(** C5. The tokenizer returns [Spec.tokens]: one token per character,
    classified by [get_item_type], except that an escape symbol followed
    by a character gives the single literal token of that character, and
    that a trailing escape symbol gives a literal escape character.
    Consequently the pattern a\* matches the input "a*" and not "aa"
    (for every epsilon symbol, the fragment stack having room for two
    fragments). *)
Theorem tokenizer_escapes (EPSILON_SYMBOL : ascii) (MAX_STATES : nat) :
  (2 <= MAX_STATES)%nat ->
  (forall str : string,
     itemize_regex (Some str) =
     Some (Spec.tokens (list_ascii_of_string str))) /\
  Spec.tokens [] = [] /\
  (forall (c : ascii) (rest : list ascii),
     c <> "\"%char ->
     Spec.tokens (c :: rest) =
     new_item c (get_item_type c) :: Spec.tokens rest) /\
  (forall (d : ascii) (rest : list ascii),
     Spec.tokens ("\"%char :: d :: rest) =
     new_item d OPERAND :: Spec.tokens rest) /\
  Spec.tokens ["\"%char] = [new_item "\" OPERAND] /\
  matches EPSILON_SYMBOL MAX_STATES "a\*" "a*" = Ok true /\
  matches EPSILON_SYMBOL MAX_STATES "a\*" "aa" = Ok false.
Proof.
  intros Hmax.
  split; [exact itemize_regex_tokens|]. split; [reflexivity|].
  split.
  { intros c rest Hc. apply Ascii.eqb_neq in Hc.
    destruct rest as [|d rest]; [simpl|rewrite tokens_cons];
      unfold ESCAPE_SYMBOL; rewrite Hc; reflexivity. }
  split; [reflexivity|]. split; [reflexivity|].
  destruct MAX_STATES as [|[|n]]; [lia|lia|clear Hmax].
  each_epsilon EPSILON_SYMBOL.
Qed.

Lemma tokenizer_escapes_witness :
  (2 <= 64)%nat /\
  (forall str : string,
     itemize_regex (Some str) =
     Some (Spec.tokens (list_ascii_of_string str))) /\
  Spec.tokens [] = [] /\
  (forall (c : ascii) (rest : list ascii),
     c <> "\"%char ->
     Spec.tokens (c :: rest) =
     new_item c (get_item_type c) :: Spec.tokens rest) /\
  (forall (d : ascii) (rest : list ascii),
     Spec.tokens ("\"%char :: d :: rest) =
     new_item d OPERAND :: Spec.tokens rest) /\
  Spec.tokens ["\"%char] = [new_item "\" OPERAND] /\
  matches zero 64 "a\*" "a*" = Ok true /\
  matches zero 64 "a\*" "aa" = Ok false.
Proof.
  split; [lia|]. apply (tokenizer_escapes zero 64). lia.
Defined.

(** C9. An unescaped dot is tokenized as the concatenation operator: the
    scanner turns a dot into a concatenation token, and a literal dot
    among the tokens only comes from an escaped dot of the pattern.
    Consequently the pattern a.b matches "ab" and not "a.b", the pattern
    a\.b matches "a.b", and an input that holds a dot is rejected by the
    automaton of every pattern without an escaped dot.  The epsilon symbol
    is assumed not to be the dot. *)
Theorem dot_is_concatenation (EPSILON_SYMBOL : ascii) (MAX_STATES : nat) :
  EPSILON_SYMBOL <> "."%char ->
  (2 <= MAX_STATES)%nat ->
  get_item_type "." = CONCATENATION /\
  (forall rest : list ascii,
     Spec.tokens ("."%char :: rest) =
     new_item "." CONCATENATION :: Spec.tokens rest) /\
  (forall (str : string) (toks : list item),
     itemize_regex (Some str) = Some toks ->
     In (new_item "." OPERAND) toks ->
     exists pre rest,
       list_ascii_of_string str = pre ++ "\"%char :: "."%char :: rest) /\
  matches EPSILON_SYMBOL MAX_STATES "a.b" "ab" = Ok true /\
  matches EPSILON_SYMBOL MAX_STATES "a.b" "a.b" = Ok false /\
  matches EPSILON_SYMBOL MAX_STATES "a\.b" "a.b" = Ok true /\
  (forall (pattern : string) (a : nfa) (input : list ascii),
     compile EPSILON_SYMBOL MAX_STATES pattern = Ok a ->
     In "."%char input ->
     match_nfa a input = Ok false \/
     exists pre rest,
       list_ascii_of_string pattern = pre ++ "\"%char :: "."%char :: rest).
Proof.
  intros Heps Hmax.
  split; [reflexivity|].
  split; [intros [|d rest]; reflexivity|].
  split.
  { intros str toks H Hin. rewrite itemize_regex_tokens in H.
    inversion H. subst toks. now apply tokens_literal_dot. }
  assert (Hgeneral :
    forall (pattern : string) (a : nfa) (input : list ascii),
      compile EPSILON_SYMBOL MAX_STATES pattern = Ok a ->
      In "."%char input ->
      match_nfa a input = Ok false \/
      exists pre rest,
        list_ascii_of_string pattern = pre ++ "\"%char :: "."%char :: rest).
  { intros pattern a input Hcompile Hin. unfold compile in Hcompile.
    destruct (regex_to_nfa_wf _ _ _ _ Hcompile) as [Hwf _].
    destruct (Z.eq_dec (col_of (nfa_alphabet a) ".") (-1)) as [Hcol|Hcol].
    { left. now apply (match_nfa_unregistered a "."%char). }
    right.
    destruct (regex_to_nfa_symbols _ _ _ _ _ Hcompile Hcol)
      as [H|(it & Hit & Hty & Hv)]; [congruence|].
    assert (Heq : it = new_item "." OPERAND).
    { destruct it as [v t]. simpl in *. now subst. }
    subst it. clear Hv.
    apply tokens_literal_dot. now apply parse_regex_operand. }
  destruct MAX_STATES as [|[|n]]; [lia|lia|clear Hmax].
  repeat (split; [clear Hgeneral; each_epsilon EPSILON_SYMBOL|]).
  exact Hgeneral.
Qed.

(* ================================================================= *)
(** ** Whole-string matching *)

Lemma all_ascii_complete (c : ascii) : In c all_ascii.
Proof.
  unfold all_ascii. apply in_map_iff. exists (nat_of_ascii c).
  split; [apply ascii_nat_embedding|].
  apply in_seq. pose proof (nat_ascii_bounded c). lia.
Qed.

Lemma match_loop_step (a : nfa) (c : ascii) (w : list ascii) (current : Z) :
  match_loop a (c :: w) current =
  match match_step a current c with
  | Ok None => Ok false
  | Ok (Some expanded) => match_loop a w expanded
  | Fault f => Fault f
  end.
Proof.
  cbn [match_loop]. unfold match_step.
  destruct (col_of (nfa_alphabet a) c =? -1); [reflexivity|].
  destruct (move a (col_of (nfa_alphabet a) c) current) as [e|]; cbn [bind];
    [|reflexivity].
  destruct (e =? 0); reflexivity.
Qed.

Lemma step_is_spec (a : nfa) (current : Z) (c : ascii) (e : option Z) :
  step_is a current c e = true -> match_step a current c = Ok e.
Proof.
  unfold step_is. destruct (match_step a current c) as [r|]; [|discriminate].
  destruct r as [u|], e as [v|]; simpl; try discriminate; [|reflexivity].
  intros H. apply Z.eqb_eq in H. now subst.
Qed.

Lemma ab_star_c_table_ok (EPSILON_SYMBOL : ascii) (n : nat) :
  EPSILON_SYMBOL <> "a"%char ->
  EPSILON_SYMBOL <> "b"%char ->
  EPSILON_SYMBOL <> "c"%char ->
  ab_star_c_table EPSILON_SYMBOL (S (S n)) = true.
Proof.
  intros Ha Hb Hc.
  destruct EPSILON_SYMBOL as [[] [] [] [] [] [] [] []];
    first [ vm_compute; reflexivity | exfalso; congruence ].
Qed.

Section AbStarC.

Variable automaton : nfa.
Variable EPSILON_SYMBOL : ascii.

Hypothesis start_set :
  read (epsilon_closures automaton) (start_state automaton) = Ok 113.
Hypothesis reject_113 : (Z.land 113 (accept_states automaton) =? 0) = true.
Hypothesis reject_6 : (Z.land 6 (accept_states automaton) =? 0) = true.
Hypothesis reject_105 : (Z.land 105 (accept_states automaton) =? 0) = true.
Hypothesis accept_128 : (Z.land 128 (accept_states automaton) =? 0) = false.
Hypothesis moves :
  forall c, c <> EPSILON_SYMBOL ->
    match_step automaton 113 c =
      Ok (if Ascii.eqb c "a" then Some 6
          else if Ascii.eqb c "c" then Some 128 else None) /\
    match_step automaton 105 c =
      Ok (if Ascii.eqb c "a" then Some 6
          else if Ascii.eqb c "c" then Some 128 else None) /\
    match_step automaton 6 c =
      Ok (if Ascii.eqb c "b" then Some 105 else None) /\
    match_step automaton 128 c = Ok None.

Lemma after_c (w : list ascii) :
  ~ In EPSILON_SYMBOL w ->
  match_loop automaton w 128 = Ok (match w with [] => true | _ => false end).
Proof.
  destruct w as [|c w]; intros Hw.
  - cbn [match_loop]. now rewrite accept_128.
  - rewrite match_loop_step.
    destruct (moves c) as (_ & _ & _ & H); [intros ->; apply Hw; now left|].
    now rewrite H.
Qed.

Lemma at_start (w : list ascii) :
  ~ In EPSILON_SYMBOL w ->
  match_loop automaton w 113 = Ok (in_ab_star_c w) /\
  match_loop automaton w 105 = Ok (in_ab_star_c w).
Proof.
  remember (List.length w) as k eqn:Hk. revert w Hk.
  induction k as [k IH] using lt_wf_ind. intros w Hk Hw.
  destruct w as [|c w].
  - cbn [match_loop in_ab_star_c]. now rewrite reject_113, reject_105.
  - rewrite !match_loop_step.
    destruct (moves c) as (H0 & H2 & _); [intros ->; apply Hw; now left|].
    rewrite H0, H2.
    destruct (Ascii.eqb c "a") eqn:Ea.
    + (* after an a: a b must follow *)
      assert (H6 : match_loop automaton w 6 =
                   Ok (in_ab_star_c (c :: w))).
      { destruct w as [|d w].
        - cbn [match_loop in_ab_star_c]. rewrite reject_6.
          apply Ascii.eqb_eq in Ea. now subst.
        - rewrite match_loop_step.
          destruct (moves d) as (_ & _ & H1 & _);
            [intros ->; apply Hw; right; now left|].
          rewrite H1. cbn [in_ab_star_c]. rewrite Ea. cbn [andb].
          destruct (Ascii.eqb d "b"); [|reflexivity].
          cbn [andb].
          apply (IH (List.length w)); [simpl in Hk; lia|reflexivity|].
          intros H. apply Hw. right. now right. }
      now rewrite H6.
    + destruct (Ascii.eqb c "c") eqn:Ec.
      * rewrite after_c by (intros H; apply Hw; now right).
        destruct w as [|d w]; cbn [in_ab_star_c]; rewrite ?Ec, ?Ea;
          now split.
      * destruct w as [|d w]; cbn [in_ab_star_c]; rewrite ?Ec, ?Ea;
          now split.
Qed.

Lemma match_nfa_ab_star_c (w : list ascii) :
  ~ In EPSILON_SYMBOL w ->
  match_nfa automaton w = Ok (in_ab_star_c w).
Proof.
  intros Hw. unfold match_nfa. rewrite start_set. cbn [bind].
  now apply at_start.
Qed.

End AbStarC.

Lemma in_ab_star_c_spec (w : list ascii) :
  in_ab_star_c w = true <->
  exists n : nat, w = List.concat (repeat ["a"%char; "b"%char] n) ++ ["c"%char].
Proof.
  remember (List.length w) as k eqn:Hk. revert w Hk.
  induction k as [k IH] using lt_wf_ind. intros w Hk.
  destruct w as [|x [|y w]].
  - simpl. split; [discriminate|]. intros ([|n] & H); discriminate.
  - simpl. split.
    + intros H. apply Ascii.eqb_eq in H. subst. now exists 0%nat.
    + intros ([|n] & H); simpl in H; inversion H. reflexivity.
  - cbn [in_ab_star_c]. split.
    + intros H. apply andb_prop in H as [H H3]. apply andb_prop in H as [H1 H2].
      apply Ascii.eqb_eq in H1, H2. subst x y.
      apply (IH (List.length w)) in H3; [|simpl in Hk; lia|reflexivity].
      destruct H3 as (n & ->). now exists (S n).
    + intros ([|n] & H); simpl in H; [discriminate|].
      injection H as Hx Hy Hw. subst x y w.
      rewrite !Ascii.eqb_refl. cbn [andb].
      apply (IH (List.length (List.concat (repeat ["a"%char; "b"%char] n) ++
                              ["c"%char]))); [simpl in Hk; lia|reflexivity|].
      now exists n.
Qed.

Lemma dot_is_concatenation_witness :
  zero <> "."%char /\ (2 <= 64)%nat /\
  get_item_type "." = CONCATENATION /\
  (forall rest : list ascii,
     Spec.tokens ("."%char :: rest) =
     new_item "." CONCATENATION :: Spec.tokens rest) /\
  (forall (str : string) (toks : list item),
     itemize_regex (Some str) = Some toks ->
     In (new_item "." OPERAND) toks ->
     exists pre rest,
       list_ascii_of_string str = pre ++ "\"%char :: "."%char :: rest) /\
  matches zero 64 "a.b" "ab" = Ok true /\
  matches zero 64 "a.b" "a.b" = Ok false /\
  matches zero 64 "a\.b" "a.b" = Ok true /\
  (forall (pattern : string) (a : nfa) (input : list ascii),
     compile zero 64 pattern = Ok a ->
     In "."%char input ->
     match_nfa a input = Ok false \/
     exists pre rest,
       list_ascii_of_string pattern = pre ++ "\"%char :: "."%char :: rest).
Proof.
  split; [discriminate|]. split; [lia|].
  apply (dot_is_concatenation zero 64); [discriminate|lia].
Defined.

(** A byte equal to the epsilon symbol in the input is looked up in
    column 0 and follows the epsilon transitions, so that the automaton
    of (ab)*c accepts the two-byte input made of the epsilon symbol and
    the letter c. *)
Lemma epsilon_byte_in_input (EPSILON_SYMBOL : ascii) (MAX_STATES : nat) :
  (2 <= MAX_STATES)%nat ->
  EPSILON_SYMBOL <> "c"%char ->
  (a <- compile EPSILON_SYMBOL MAX_STATES "(ab)*c" ;;
   match_nfa a [EPSILON_SYMBOL; "c"%char]) = Ok true.
Proof.
  intros Hmax Hc.
  destruct MAX_STATES as [|[|n]]; [lia|lia|clear Hmax].
  each_epsilon EPSILON_SYMBOL.
Qed.

(* ================================================================= *)
(** * Further properties of regex.c, nfa.c and main.c *)


(* ================================================================= *)
(** ** Shunting-Yard: what it moves to the output *)

Lemma pop_operators_popped (cur : item_type) (stack : list item) :
  forall out,
    exists popped,
      stack = popped ++ fst (pop_operators cur stack out) /\
      snd (pop_operators cur stack out) = out ++ popped /\
      forallb (fun it => negb (is_lparen it)) popped = true.
Proof.
  induction stack as [|top rest IH]; intros out.
  - exists []. cbn. rewrite app_nil_r. auto.
  - cbn [pop_operators].
    destruct (negb (is_lparen top) &&
              (get_precedence cur <=? get_precedence (type top))) eqn:E.
    + destruct (IH (out ++ [top])) as [popped [H1 [H2 H3]]].
      exists (top :: popped). split; [|split].
      * cbn. f_equal. exact H1.
      * rewrite H2, <- app_assoc. reflexivity.
      * cbn. apply andb_true_iff in E. destruct E as [E _]. rewrite E. exact H3.
    + exists []. cbn. rewrite app_nil_r. auto.
Qed.

Lemma pop_to_lparen_popped (stack : list item) :
  forall out,
    exists popped,
      stack = popped ++ fst (pop_to_lparen stack out) /\
      snd (pop_to_lparen stack out) = out ++ popped /\
      forallb (fun it => negb (is_lparen it)) popped = true.
Proof.
  induction stack as [|top rest IH]; intros out.
  - exists []. cbn. rewrite app_nil_r. auto.
  - cbn [pop_to_lparen].
    destruct (negb (is_lparen top)) eqn:E.
    + destruct (IH (out ++ [top])) as [popped [H1 [H2 H3]]].
      exists (top :: popped). split; [|split].
      * cbn. f_equal. exact H1.
      * rewrite H2, <- app_assoc. reflexivity.
      * cbn. rewrite E. exact H3.
    + exists []. cbn. rewrite app_nil_r. auto.
Qed.

Lemma drain_stack_popped (stack : list item) :
  forall out post,
    drain_stack stack out = Some post ->
    post = out ++ stack /\
    forallb (fun it => negb (is_lparen it)) stack = true.
Proof.
  induction stack as [|top rest IH]; intros out post H.
  - cbn in H. injection H as <-. rewrite app_nil_r. auto.
  - cbn [drain_stack] in H. destruct (is_lparen top) eqn:E; [discriminate|].
    apply IH in H. destruct H as [H1 H2]. split.
    + rewrite H1, <- app_assoc. reflexivity.
    + cbn. rewrite E. exact H2.
Qed.

Lemma pending_app (l1 l2 : list item) :
  pending (l1 ++ l2) = pending l1 ++ pending l2.
Proof. apply filter_app. Qed.

Lemma pending_all (l : list item) :
  forallb (fun it => negb (is_lparen it)) l = true -> pending l = l.
Proof.
  induction l as [|x l IH]; cbn; [reflexivity|].
  intros H. apply andb_true_iff in H. destruct H as [H1 H2].
  rewrite H1. f_equal. auto.
Qed.

Lemma shunting_from_permutation (l : list item) :
  forall stack out post,
    shunting_from l (stack, out) = Some post ->
    Permutation post (out ++ pending stack ++ filter not_paren l).
Proof.
  induction l as [|it l IH]; intros stack out post H.
  - unfold shunting_from in H. cbn in H.
    apply drain_stack_popped in H. destruct H as [-> H].
    rewrite (pending_all _ H). cbn. rewrite app_nil_r. apply Permutation_refl.
  - unfold shunting_from in H. cbn [shunting_loop] in H.
    destruct (shunting_step (stack, out) it) as [[stack' out']|] eqn:Hs;
      [|discriminate].
    change (shunting_from l (stack', out') = Some post) in H.
    apply IH in H. unfold shunting_step in Hs.
    assert (Hnp : not_paren it =
                  match type it with
                  | L_PARENTHESIS | R_PARENTHESIS => false
                  | _ => true
                  end)
      by (unfold not_paren, is_paren; destruct (type it); reflexivity).
    cbn [filter]. rewrite Hnp.
    destruct (pop_operators_popped (type it) stack out) as [po [Po1 [Po2 Po3]]].
    destruct (pop_to_lparen_popped stack out) as [pl [Pl1 [Pl2 Pl3]]].
    assert (Hop : forall stack1 out1,
              pop_operators (type it) stack out = (stack1, out1) ->
              Some (it :: stack1, out1) = Some (stack', out') ->
              is_lparen it = false ->
              Permutation post (out ++ pending stack ++ it :: filter not_paren l)).
    { intros stack1 out1 E1 E2 Hit. injection E2 as <- <-.
      rewrite E1 in Po1, Po2. cbn [fst snd] in Po1, Po2.
      rewrite H. subst out1. rewrite Po1.
      rewrite pending_app, (pending_all _ Po3).
      cbn [pending filter]. rewrite Hit. cbn [negb].
      fold (pending stack1).
      rewrite <- !app_assoc. apply Permutation_app_head, Permutation_app_head.
      cbn [app]. apply Permutation_middle. }
    destruct (type it) eqn:Ht; cbn [negb].
    1-5: destruct (pop_operators _ stack out) as [stack1 out1] eqn:E1;
         apply (Hop _ _ eq_refl Hs); unfold is_lparen; rewrite Ht; reflexivity.
    + injection Hs as <- <-. rewrite H, <- app_assoc. cbn [app].
      apply Permutation_app_head. apply Permutation_middle.
    + injection Hs as <- <-. rewrite H. cbn [pending filter].
      unfold is_lparen at 1. rewrite Ht. cbn. apply Permutation_refl.
    + destruct (pop_to_lparen stack out) as [stack1 out1] eqn:E1.
      cbn [fst snd] in Pl1, Pl2.
      destruct stack1 as [|lp rest]; [discriminate|]. injection Hs as <- <-.
      rewrite H. subst out1. rewrite Pl1.
      rewrite pending_app, (pending_all _ Pl3). cbn [pending filter].
      assert (Hlp : is_lparen lp = true).
      { pose proof (pop_to_lparen_shape stack out) as Hsh. rewrite E1 in Hsh.
        cbn in Hsh. exact (proj1 Hsh). }
      rewrite Hlp. cbn [negb]. fold (pending rest).
      rewrite <- !app_assoc. apply Permutation_refl.
Qed.

(** X5. The postfix sequence that [shunting_yard] returns is a
    permutation of the input items that are not parentheses: every
    operand and operator is output exactly once, and no parenthesis is
    output. *)
Theorem shunting_yard_permutation (l post : list item) :
  shunting_yard (Some l) = Some post ->
  Permutation post (filter not_paren l).
Proof.
  unfold shunting_yard.
  destruct (Z.of_nat (List.length l) <=? 0); [discriminate|].
  intros H. apply (shunting_from_permutation l [] [] post H).
Qed.

Lemma shunting_yard_permutation_witness :
  Permutation
    [new_item "a" OPERAND; new_item "b" OPERAND; new_item "|" ALTERNATION;
     new_item "*" KLEENE_STAR]
    (filter not_paren
       [new_item "(" L_PARENTHESIS; new_item "a" OPERAND;
        new_item "|" ALTERNATION; new_item "b" OPERAND;
        new_item ")" R_PARENTHESIS; new_item "*" KLEENE_STAR]).
Proof.
  apply (shunting_yard_permutation
           [new_item "(" L_PARENTHESIS; new_item "a" OPERAND;
            new_item "|" ALTERNATION; new_item "b" OPERAND;
            new_item ")" R_PARENTHESIS; new_item "*" KLEENE_STAR]).
  reflexivity.
Defined.

(* ================================================================= *)
(** ** Shunting-Yard keeps the order of the operands *)

Lemma filter_operand_popped (l : list item) :
  filter is_operand l = [] ->
  forall pre suf, l = pre ++ suf ->
    filter is_operand pre = [] /\ filter is_operand suf = [].
Proof.
  intros H pre suf ->. rewrite filter_app in H.
  apply app_eq_nil in H. exact H.
Qed.

Lemma shunting_from_operand_order (l : list item) :
  forall stack out post,
    filter is_operand stack = [] ->
    shunting_from l (stack, out) = Some post ->
    filter is_operand post = filter is_operand out ++ filter is_operand l.
Proof.
  induction l as [|it l IH]; intros stack out post Hst H.
  - unfold shunting_from in H. cbn in H.
    apply drain_stack_popped in H. destruct H as [-> _].
    rewrite filter_app, Hst. reflexivity.
  - unfold shunting_from in H. cbn [shunting_loop] in H.
    destruct (shunting_step (stack, out) it) as [[stack' out']|] eqn:Hs;
      [|discriminate].
    change (shunting_from l (stack', out') = Some post) in H.
    unfold shunting_step in Hs.
    destruct (pop_operators_popped (type it) stack out) as [po [Po1 [Po2 _]]].
    destruct (pop_to_lparen_popped stack out) as [pl [Pl1 [Pl2 _]]].
    destruct (filter_operand_popped stack Hst _ _ Po1) as [Hpo Hs1].
    destruct (filter_operand_popped stack Hst _ _ Pl1) as [Hpl Hs2].
    assert (Hop : forall stack1 out1,
              pop_operators (type it) stack out = (stack1, out1) ->
              Some (it :: stack1, out1) = Some (stack', out') ->
              is_operand it = false ->
              filter is_operand post =
              filter is_operand out ++ filter is_operand (it :: l)).
    { intros stack1 out1 E1 E2 Hit. injection E2 as <- <-.
      rewrite E1 in Po2, Hs1. cbn [fst snd] in Po2, Hs1.
      rewrite (IH (it :: stack1) out1 post); [| |exact H].
      - subst out1. rewrite filter_app, Hpo, app_nil_r.
        cbn [filter]. rewrite Hit. reflexivity.
      - cbn [filter]. rewrite Hit. exact Hs1. }
    assert (Hit : is_operand it = item_type_eqb (type it) OPERAND)
      by reflexivity.
    destruct (type it) eqn:Ht; cbn [item_type_eqb] in Hit.
    1-5: destruct (pop_operators _ stack out) as [stack1 out1] eqn:E1;
         apply (Hop _ _ eq_refl Hs Hit).
    + injection Hs as <- <-. rewrite (IH stack (out ++ [it]) post Hst H).
      rewrite filter_app. cbn [filter]. rewrite Hit.
      rewrite <- app_assoc. reflexivity.
    + injection Hs as <- <-. cbn [filter]. rewrite Hit.
      apply (IH (it :: stack) out post); [|exact H].
      cbn [filter]. rewrite Hit. exact Hst.
    + destruct (pop_to_lparen stack out) as [stack1 out1] eqn:E1.
      cbn [fst snd] in Pl1, Pl2, Hs2.
      destruct stack1 as [|lp rest]; [discriminate|]. injection Hs as <- <-.
      cbn [filter]. rewrite Hit.
      rewrite (IH rest out1 post); [| |exact H].
      * subst out1. rewrite filter_app, Hpl, app_nil_r. reflexivity.
      * cbn [filter] in Hs2. destruct (is_operand lp); [discriminate|exact Hs2].
Qed.

(** X6. [shunting_yard] keeps the operands in their order: the operands
    of the postfix sequence are the operands of the input, from left to
    right. *)
Theorem shunting_yard_operand_order (l post : list item) :
  shunting_yard (Some l) = Some post ->
  filter is_operand post = filter is_operand l.
Proof.
  unfold shunting_yard.
  destruct (Z.of_nat (List.length l) <=? 0); [discriminate|].
  intros H. apply (shunting_from_operand_order l [] [] post eq_refl H).
Qed.

Lemma shunting_yard_operand_order_witness :
  filter is_operand
    [new_item "a" OPERAND; new_item "b" OPERAND; new_item "|" ALTERNATION;
     new_item "c" OPERAND; new_item "." CONCATENATION] =
  filter is_operand
    [new_item "(" L_PARENTHESIS; new_item "a" OPERAND;
     new_item "|" ALTERNATION; new_item "b" OPERAND;
     new_item ")" R_PARENTHESIS; new_item "." CONCATENATION;
     new_item "c" OPERAND].
Proof.
  apply (shunting_yard_operand_order
           [new_item "(" L_PARENTHESIS; new_item "a" OPERAND;
            new_item "|" ALTERNATION; new_item "b" OPERAND;
            new_item ")" R_PARENTHESIS; new_item "." CONCATENATION;
            new_item "c" OPERAND]).
  reflexivity.
Defined.

(* ================================================================= *)
(** ** The expander is idempotent *)

Lemma expand_head (x : item) (rest : list item) :
  exists tl, Spec.expand (x :: rest) = x :: tl.
Proof.
  destruct rest as [|y rest]; [exists []; reflexivity|].
  rewrite expand_cons.
  destruct (Spec.can_terminate (type x) && Spec.can_begin (type y)); eauto.
Qed.

Lemma expand_idempotent (l : list item) :
  Spec.expand (Spec.expand l) = Spec.expand l.
Proof.
  induction l as [|x rest IH]; [reflexivity|].
  destruct rest as [|y rest]; [reflexivity|].
  rewrite expand_cons.
  destruct (expand_head y rest) as [tl Htl].
  destruct (Spec.can_terminate (type x) && Spec.can_begin (type y)) eqn:E.
  - rewrite Htl in *. rewrite expand_cons.
    cbn [type new_item Spec.can_begin andb].
    rewrite andb_false_r. rewrite expand_cons.
    cbn [type new_item Spec.can_terminate andb]. rewrite IH. reflexivity.
  - rewrite Htl in *. rewrite expand_cons, E, IH. reflexivity.
Qed.

(** X3. [implicit_to_explicit_concatenation] is idempotent: on its own
    output it inserts no further concatenation item, and on [NULL] or an
    empty array it returns [NULL] again. *)
Theorem implicit_to_explicit_concatenation_idempotent
    (its : option (list item)) :
  implicit_to_explicit_concatenation (implicit_to_explicit_concatenation its) =
  implicit_to_explicit_concatenation its.
Proof.
  destruct its as [l|]; [|reflexivity].
  rewrite (implicit_to_explicit_concatenation_expand l).
  destruct l as [|x rest]; [reflexivity|].
  rewrite implicit_to_explicit_concatenation_expand.
  rewrite expand_idempotent.
  destruct (expand_head x rest) as [tl ->]. reflexivity.
Qed.

(* ================================================================= *)
(** ** The arrays of regex.c are large enough *)

Lemma tokens_length_lower_aux (s : list ascii) :
  (List.length s <= 2 * List.length (Spec.tokens s))%nat /\
  forall c, (S (List.length s) <= 2 * List.length (Spec.tokens (c :: s)))%nat.
Proof.
  induction s as [|d rest [IH1 IH2]].
  - split; [simpl; lia|].
    intros c. simpl. destruct (Ascii.eqb c ESCAPE_SYMBOL); simpl; lia.
  - split; [apply IH2|].
    intros c. rewrite tokens_cons.
    destruct (Ascii.eqb c ESCAPE_SYMBOL); cbn [List.length].
    + lia.
    + specialize (IH2 d). cbn [List.length] in IH2. lia.
Qed.

(** X1. [itemize_regex] writes at most one item per character of the
    pattern and at least one item for every two characters: the count
    never passes the [strlen(regex_str)] items that it allocates, and an
    escape pair is the only way for two characters to give one item. *)
Theorem itemize_regex_count (str : string) (toks : list item) :
  itemize_regex (Some str) = Some toks ->
  (List.length toks <= String.length str <= 2 * List.length toks)%nat.
Proof.
  rewrite itemize_regex_tokens. intros H. injection H as <-.
  rewrite <- length_list_ascii_of_string. split.
  - apply tokens_length.
  - apply tokens_length_lower_aux.
Qed.

Lemma itemize_regex_count_witness :
  (List.length
     [new_item "a" OPERAND; new_item "*" OPERAND; new_item "b" OPERAND] <=
   String.length "a\*b" <=
   2 * List.length
     [new_item "a" OPERAND; new_item "*" OPERAND; new_item "b" OPERAND])%nat.
Proof. apply (itemize_regex_count "a\*b"). reflexivity. Defined.

Lemma expand_length (rest : list item) :
  forall x,
    (List.length (x :: rest) <= List.length (Spec.expand (x :: rest)) /\
     List.length (Spec.expand (x :: rest)) < 2 * List.length (x :: rest))%nat.
Proof.
  induction rest as [|y rest IH]; intros x; [cbn; lia|].
  rewrite expand_cons. specialize (IH y).
  destruct (Spec.can_terminate (type x) && Spec.can_begin (type y));
    cbn [List.length] in *; lia.
Qed.

(** X2. When [implicit_to_explicit_concatenation] returns an array for
    [size] input items, the array holds at least [size] and fewer than
    [2 * size] items: the writes stay inside the [size * 2] items that it
    allocates. *)
Theorem implicit_to_explicit_concatenation_count (l r : list item) :
  implicit_to_explicit_concatenation (Some l) = Some r ->
  (List.length l <= List.length r < 2 * List.length l)%nat.
Proof.
  rewrite implicit_to_explicit_concatenation_expand.
  destruct l as [|x rest]; [discriminate|]. intros H. injection H as <-.
  apply expand_length.
Qed.

Lemma implicit_to_explicit_concatenation_count_witness :
  (List.length [new_item "a" OPERAND; new_item "b" OPERAND] <=
   List.length [new_item "a" OPERAND; new_item "." CONCATENATION;
                new_item "b" OPERAND] <
   2 * List.length [new_item "a" OPERAND; new_item "b" OPERAND])%nat.
Proof.
  apply (implicit_to_explicit_concatenation_count
           [new_item "a" OPERAND; new_item "b" OPERAND]).
  reflexivity.
Defined.

Lemma shunting_step_room (stack out stack' out' : list item) (it : item) :
  shunting_step (stack, out) it = Some (stack', out') ->
  (List.length stack' + List.length out' <=
   S (List.length stack + List.length out))%nat.
Proof.
  unfold shunting_step. intros Hs.
  destruct (pop_operators_popped (type it) stack out) as [po [Po1 [Po2 _]]].
  destruct (pop_to_lparen_popped stack out) as [pl [Pl1 [Pl2 _]]].
  apply (f_equal (@List.length item)) in Po1, Po2, Pl1, Pl2.
  rewrite length_app in Po1, Po2, Pl1, Pl2.
  destruct (type it).
  1-5: destruct (pop_operators _ stack out) as [stack1 out1];
       injection Hs as <- <-; cbn [fst snd List.length] in *; lia.
  - injection Hs as <- <-. rewrite length_app. cbn. lia.
  - injection Hs as <- <-. cbn. lia.
  - destruct (pop_to_lparen stack out) as [stack1 out1].
    destruct stack1 as [|lp rest]; [discriminate|]. injection Hs as <- <-.
    cbn [fst snd List.length] in *. lia.
Qed.

Lemma shunting_loop_room (l : list item) :
  forall stack out stack' out',
    shunting_loop l (stack, out) = Some (stack', out') ->
    (List.length stack' + List.length out' <=
     List.length stack + List.length out + List.length l)%nat.
Proof.
  induction l as [|it l IH]; intros stack out stack' out' H.
  - cbn in H. injection H as <- <-. cbn. lia.
  - cbn [shunting_loop] in H.
    destruct (shunting_step (stack, out) it) as [[s1 o1]|] eqn:Hs;
      [|discriminate].
    apply shunting_step_room in Hs. apply IH in H. cbn [List.length]. lia.
Qed.

(** X4. After any number of iterations of the main loop of
    [shunting_yard], the operator stack and the output together hold at
    most as many items as the input has: the writes to [stack] and
    [output] stay inside the [size] items allocated for each. *)
Theorem shunting_yard_within_allocation (done todo stack out : list item) :
  shunting_loop done ([], []) = Some (stack, out) ->
  (List.length stack + List.length out <= List.length (done ++ todo))%nat.
Proof.
  intros H. apply shunting_loop_room in H. rewrite length_app.
  cbn [List.length] in H. lia.
Qed.

Lemma shunting_yard_within_allocation_witness :
  (List.length [new_item "|" ALTERNATION; new_item "(" L_PARENTHESIS] +
   List.length [new_item "a" OPERAND] <=
   List.length ([new_item "(" L_PARENTHESIS; new_item "a" OPERAND;
                 new_item "|" ALTERNATION] ++
                [new_item "b" OPERAND; new_item ")" R_PARENTHESIS]))%nat.
Proof.
  apply (shunting_yard_within_allocation
           [new_item "(" L_PARENTHESIS; new_item "a" OPERAND;
            new_item "|" ALTERNATION]).
  reflexivity.
Defined.
(* ================================================================= *)
(** ** The transition table *)

Lemma testbit_shl1 (k t : Z) :
  0 <= t -> Z.testbit (Z.shiftl 1 k) t = (t =? k).
Proof.
  intros Ht. rewrite Z.shiftl_1_l.
  destruct (Z.ltb_spec k 0) as [Hk|Hk].
  - rewrite Z.pow_neg_r by lia. rewrite Z.bits_0. symmetry. apply Z.eqb_neq. lia.
  - rewrite Z.pow2_bits_eqb by lia. apply Z.eqb_sym.
Qed.

Lemma nth_error_store {A : Type} (l : list A) :
  forall (i j : nat) (x : A),
    (i < List.length l)%nat ->
    nth_error (store l i x) j = if (j =? i)%nat then Some x else nth_error l j.
Proof.
  induction l as [|y l IH]; intros i j x Hi; [cbn in Hi; lia|].
  destruct i as [|i]; destruct j as [|j]; cbn; try reflexivity.
  apply IH. cbn in Hi. lia.
Qed.

Lemma read_write {A : Type} (l l' : list A) (i j : Z) (x : A) :
  write l i x = Ok l' ->
  read l' j = if j =? i then Ok x else read l j.
Proof.
  unfold write, read.
  destruct ((0 <=? i) && (i <? Z.of_nat (List.length l))) eqn:Hi; [|discriminate].
  intros E. injection E as <-. rewrite length_store.
  apply andb_true_iff in Hi. destruct Hi as [Hi1 Hi2].
  apply Z.leb_le in Hi1. apply Z.ltb_lt in Hi2.
  destruct ((0 <=? j) && (j <? Z.of_nat (List.length l))) eqn:Hj.
  - apply andb_true_iff in Hj. destruct Hj as [Hj1 Hj2].
    apply Z.leb_le in Hj1. apply Z.ltb_lt in Hj2.
    rewrite nth_error_store by lia.
    destruct (Z.eqb_spec j i) as [->|Hne].
    + rewrite Nat.eqb_refl. reflexivity.
    + replace (Z.to_nat j =? Z.to_nat i)%nat with false; [reflexivity|].
      symmetry. apply Nat.eqb_neq. lia.
  - destruct (Z.eqb_spec j i) as [->|Hne]; [|reflexivity].
    apply andb_false_iff in Hj. destruct Hj as [Hj|Hj].
    + apply Z.leb_gt in Hj. lia.
    + apply Z.ltb_ge in Hj. lia.
Qed.

Lemma or_entry_entry (tbl tbl' : list (list Z)) (from col bit s c : Z) :
  or_entry tbl from col bit = Ok tbl' ->
  entry tbl' s c =
  if (s =? from) && (c =? col) then Z.lor (entry tbl s c) bit
  else entry tbl s c.
Proof.
  unfold or_entry.
  destruct (read tbl from) as [row|] eqn:Hrow; [|discriminate]. cbn [bind].
  destruct (read row col) as [old|] eqn:Hold; [|discriminate]. cbn [bind].
  destruct (write row col (Z.lor old bit)) as [row'|] eqn:Hw; [|discriminate].
  cbn [bind]. intros Ht. unfold entry.
  rewrite (read_write _ _ _ s _ Ht).
  destruct (Z.eqb_spec s from) as [->|Hs]; cbn [andb]; [|reflexivity].
  rewrite Hrow. rewrite (read_write _ _ _ c _ Hw).
  destruct (Z.eqb_spec c col) as [->|Hc]; [|reflexivity].
  rewrite Hold. reflexivity.
Qed.

Lemma fill_table_entry (a : alphabet) (ts : list t_transition) :
  forall tbl tbl' s col t,
    fill_table a ts tbl = Ok tbl' ->
    0 <= t ->
    Z.testbit (entry tbl' s col) t =
    Z.testbit (entry tbl s col) t || recorded a ts s col t.
Proof.
  induction ts as [|tr ts IH]; intros tbl tbl' s col t H Ht.
  - cbn in H. injection H as <-. cbn. now rewrite orb_false_r.
  - cbn [fill_table] in H.
    destruct (shl1 (to_state tr)) as [bit|] eqn:Hb; [|discriminate].
    cbn [bind] in H.
    destruct (or_entry tbl (from_state tr) (col_of a (symbol tr)) bit)
      as [tbl1|] eqn:Ho; [|discriminate].
    cbn [bind] in H. rewrite (IH _ _ _ _ _ H Ht).
    rewrite (or_entry_entry _ _ _ _ _ s col Ho).
    apply shl1_inv in Hb. destruct Hb as [_ ->].
    unfold recorded. cbn [existsb]. fold (recorded a ts s col t).
    rewrite (Z.eqb_sym (from_state tr) s), (Z.eqb_sym (col_of a (symbol tr)) col),
      (Z.eqb_sym (to_state tr) t).
    destruct ((s =? from_state tr) && (col =? col_of a (symbol tr))) eqn:E.
    + rewrite Z.lor_spec, testbit_shl1 by exact Ht.
      cbn [andb]. now rewrite orb_assoc.
    + cbn [andb orb]. reflexivity.
Qed.

Lemma entry_empty (rows cols : nat) (s col : Z) :
  entry (repeat (repeat 0 cols) rows) s col = 0.
Proof.
  unfold entry.
  destruct (read (repeat (repeat 0 cols) rows) s) as [row|] eqn:Hr;
    [|reflexivity].
  apply read_inv in Hr. destruct Hr as [_ Hin]. apply repeat_spec in Hin.
  subst row. destruct (read (repeat 0 cols) col) as [e|] eqn:He; [|reflexivity].
  apply read_inv in He. destruct He as [_ Hin]. now apply repeat_spec in Hin.
Qed.

Section Table.

Variable EPSILON_SYMBOL : ascii.
Variable MAX_STATES : nat.

(** What [regex_to_nfa] returns, in terms of the manager that its loop
    leaves. *)
Lemma regex_to_nfa_inv (r : regex) (a : nfa) :
  regex_to_nfa EPSILON_SYMBOL MAX_STATES r = Ok a ->
  exists m f stk,
    thompson_loop EPSILON_SYMBOL MAX_STATES (regex_items r)
      (new_states_manager EPSILON_SYMBOL, []) = Ok (m, f :: stk) /\
    t_nfa_to_nfa EPSILON_SYMBOL f m = Ok a /\
    manager_wf m (f :: stk) /\
    reachable EPSILON_SYMBOL m.
Proof.
  unfold regex_to_nfa. intros H.
  destruct (thompson_loop EPSILON_SYMBOL MAX_STATES (regex_items r)
              (new_states_manager EPSILON_SYMBOL, [])) as [[m stk]|] eqn:E;
    [|discriminate].
  cbn [bind] in H. destruct stk as [|f stk]; [discriminate|].
  cbn [pop bind fst] in H. exists m, f, stk.
  split; [reflexivity|]. split; [exact H|]. split.
  - apply (thompson_loop_wf EPSILON_SYMBOL MAX_STATES _ _ _ _ _
             (new_states_manager_wf EPSILON_SYMBOL) E).
  - apply (thompson_loop_reachable EPSILON_SYMBOL MAX_STATES _ _ _ _ _
             (reach_new EPSILON_SYMBOL) E).
Qed.

Lemma t_nfa_to_nfa_fields (f : t_nfa) (m : states_manager) (a : nfa) :
  t_nfa_to_nfa EPSILON_SYMBOL f m = Ok a ->
  start_state a = start f /\
  nfa_states a = states_count m /\
  accept_states a = Z.shiftl 1 (end_ f) /\ end_ f < 64 /\
  nfa_alphabet a = manager_alphabet m /\
  fill_table (manager_alphabet m) (transitions m)
    (repeat (repeat 0 (Z.to_nat (symbol_count (manager_alphabet m))))
            (Z.to_nat (to_uint8 (states_count m)))) =
    Ok (nfa_transitions a) /\
  calculate_epsilon_closure EPSILON_SYMBOL (manager_alphabet m)
    (nfa_transitions a) (Z.to_nat (states_count m)) 0 =
    Ok (epsilon_closures a).
Proof.
  unfold t_nfa_to_nfa. intros H.
  destruct (shl1 (end_ f)) as [acc|] eqn:Hacc; [|discriminate].
  cbn [bind] in H.
  destruct (fill_table _ _ _) as [tbl|] eqn:Hfill; [|discriminate].
  cbn [bind] in H.
  destruct (calculate_epsilon_closure _ _ _ _ _) as [cs|] eqn:Hcs;
    [|discriminate].
  cbn [bind] in H. injection H as <-. cbn.
  apply shl1_inv in Hacc. destruct Hacc as [Hlt ->].
  repeat split; auto.
Qed.

Lemma recorded_In (m : states_manager) (s t : Z) (c : ascii) :
  reachable EPSILON_SYMBOL m ->
  recorded (manager_alphabet m) (transitions m) s
           (col_of (manager_alphabet m) c) t = true <->
  In (mk_transition s c t) (transitions m).
Proof.
  intros Hreach.
  destruct (reachable_inv EPSILON_SYMBOL m Hreach) as [[_ [_ Hcol]] [_ [_ Hin]]].
  unfold recorded. rewrite existsb_exists. split.
  - intros [tr [Htr Heq]].
    apply andb_true_iff in Heq. destruct Heq as [Heq H3].
    apply andb_true_iff in Heq. destruct Heq as [H1 H2].
    apply Z.eqb_eq in H1, H2, H3.
    assert (Hc : symbol tr = c).
    { specialize (Hin tr Htr). rewrite !Hcol in H2.
      destruct (position_range (symbols (manager_alphabet m)) (symbol tr))
        as [Hn|Hr].
      - apply position_none in Hn. contradiction.
      - pose proof (position_nth_error (symbols (manager_alphabet m))
                      (symbol tr)
                      (Z.to_nat (position (symbols (manager_alphabet m))
                                          (symbol tr)))) as P1.
        pose proof (position_nth_error (symbols (manager_alphabet m)) c
                      (Z.to_nat (position (symbols (manager_alphabet m))
                                          (symbol tr)))) as P2.
        rewrite Z2Nat.id in P1, P2 by lia.
        specialize (P1 eq_refl). specialize (P2 (eq_sym H2)).
        congruence. }
    destruct tr as [fr sy to]. cbn in *. subst. exact Htr.
  - intros Hi. exists (mk_transition s c t). split; [exact Hi|]. cbn.
    now rewrite !Z.eqb_refl.
Qed.

Lemma t_nfa_to_nfa_table (f : t_nfa) (m : states_manager)
    (stk : list t_nfa) (a : nfa) :
  manager_wf m stk ->
  reachable EPSILON_SYMBOL m ->
  t_nfa_to_nfa EPSILON_SYMBOL f m = Ok a ->
  forall (s t : Z) (c : ascii),
    Z.testbit (entry (nfa_transitions a) s (col_of (nfa_alphabet a) c)) t
      = true <->
    In (mk_transition s c t) (transitions m).
Proof.
  intros Hwf Hre Ht s t c.
  destruct (t_nfa_to_nfa_fields f m a Ht) as (_ & _ & _ & _ & Ha & Hfill & _).
  rewrite Ha. rewrite <- (recorded_In m s t c Hre).
  destruct (Z.ltb_spec t 0) as [Hneg|Hpos].
  - rewrite Z.testbit_neg_r by exact Hneg. split; [discriminate|].
    intros Hr. apply (recorded_In m s t c Hre) in Hr.
    destruct Hwf as [_ [Hts _]]. apply Hts in Hr. cbn in Hr. lia.
  - rewrite (fill_table_entry _ _ _ _ s _ t Hfill Hpos).
    rewrite entry_empty, Z.bits_0. reflexivity.
Qed.

(** X11. The transition table that [t_nfa_to_nfa] fills is exact: the
    bit [t] of the entry of state [s] and of the column of the character
    [c] is set if and only if the builder recorded the transition from
    [s] to [t] on [c]. *)
Theorem transition_table_exact (r : regex) (a : nfa) :
  regex_to_nfa EPSILON_SYMBOL MAX_STATES r = Ok a ->
  exists m stk,
    thompson_loop EPSILON_SYMBOL MAX_STATES (regex_items r)
      (new_states_manager EPSILON_SYMBOL, []) = Ok (m, stk) /\
    forall (s t : Z) (c : ascii),
      Z.testbit (entry (nfa_transitions a) s (col_of (nfa_alphabet a) c)) t
        = true <->
      In (mk_transition s c t) (transitions m).
Proof.
  intros H.
  destruct (regex_to_nfa_inv r a H) as (m & f & stk & Hl & Ht & Hwf & Hre).
  exists m, (f :: stk). split; [exact Hl|].
  apply (t_nfa_to_nfa_table f m (f :: stk) a Hwf Hre Ht).
Qed.

End Table.

Lemma transition_table_exact_witness :
  regex_to_nfa zero 64 (parse_regex (Some "a"%string)) = Ok literal_a_nfa /\
  exists m stk,
    thompson_loop zero 64 (regex_items (parse_regex (Some "a"%string)))
      (new_states_manager zero, []) = Ok (m, stk) /\
    forall (s t : Z) (c : ascii),
      Z.testbit (entry (nfa_transitions literal_a_nfa) s
                       (col_of (nfa_alphabet literal_a_nfa) c)) t = true <->
      In (mk_transition s c t) (transitions m).
Proof.
  assert (H : regex_to_nfa zero 64 (parse_regex (Some "a"%string)) =
              Ok literal_a_nfa)
    by (vm_compute; reflexivity).
  split; [exact H|].
  apply (transition_table_exact zero 64 _ _ H).
Defined.

(* ================================================================= *)
(** ** Epsilon closures *)

Lemma read_entry (tbl : list (list Z)) (s col : Z) (row : list Z) (e : Z) :
  read tbl s = Ok row -> read row col = Ok e -> entry tbl s col = e.
Proof. unfold entry. intros -> ->. reflexivity. Qed.

Lemma testbit_nonneg (x i : Z) : Z.testbit x i = true -> 0 <= i.
Proof.
  intros H. destruct (Z.ltb_spec i 0) as [Hn|Hp]; [|exact Hp].
  rewrite Z.testbit_neg_r in H by exact Hn. discriminate.
Qed.

Lemma testbit_bounded (n x i : Z) :
  bounded n x -> Z.testbit x i = true -> 0 <= i < n.
Proof.
  intros [_ Hb] H. split; [exact (testbit_nonneg _ _ H)|].
  destruct (Z.ltb_spec i n) as [Hlt|Hge]; [exact Hlt|].
  rewrite (Hb i Hge) in H. discriminate.
Qed.

Section Closure.

Variables (n cols : Z) (tbl : list (list Z)) (epsilon_col s0 : Z).
Hypothesis n_small : n <= 64.
Hypothesis tbl_wf : table_wf n cols tbl.

Lemma closure_loop_path :
  forall (fuel : nat) (closure stack c : Z),
    bounded n closure -> bounded n stack ->
    closure_inv tbl epsilon_col s0 closure stack ->
    closure_loop fuel tbl epsilon_col closure stack = Ok c ->
    forall t, Z.testbit c t = true <-> path tbl epsilon_col s0 t.
Proof.
  induction fuel as [|fuel IH]; intros closure stack c Hc Hs Hinv H;
    [discriminate|].
  rewrite closure_loop_unfold in H.
  destruct Hinv as (Hsound & Hstart & Hclosed).
  destruct (Z.eqb_spec stack 0) as [->|Hne].
  - injection H as <-. intros t. split.
    + intros Ht. apply Hsound. now left.
    + intros Hp. induction Hp as [|u t _ IHu Hut].
      * destruct Hstart as [Hst|Hst]; [exact Hst|].
        rewrite Z.bits_0 in Hst. discriminate.
      * destruct (Hclosed u t IHu Hut) as [Ht|Ht]; [exact Ht|].
        rewrite Z.bits_0 in Ht. discriminate.
  - destruct (ctzll_spec n stack n_small Hs Hne) as (Hr & Hbit & _).
    set (s := ctzll stack) in *.
    rewrite (shl1_ok s) in H by lia. cbn [bind] in H.
    assert (Hclear : forall i, Z.testbit (Z.land stack (not64 (Z.shiftl 1 s))) i
                               = true ->
                               Z.testbit stack i = true /\ i <> s).
    { intros i Hi. pose proof (testbit_nonneg _ _ Hi) as Hi0.
      rewrite testbit_clear in Hi by lia.
      apply andb_true_iff in Hi. destruct Hi as [Hi Hi2].
      apply andb_true_iff in Hi. destruct Hi as [Hi _].
      split; [exact Hi|]. apply negb_true_iff, Z.eqb_neq in Hi2. exact Hi2. }
    assert (Hkeep : forall i, Z.testbit stack i = true -> i <> s ->
                              Z.testbit (Z.land stack (not64 (Z.shiftl 1 s))) i
                              = true).
    { intros i Hi Hneq. destruct (testbit_bounded _ _ _ Hs Hi) as [Hi0 Hi1].
      rewrite testbit_clear by lia. rewrite Hi. cbn [andb].
      apply andb_true_iff. split.
      - apply Z.ltb_lt. lia.
      - apply negb_true_iff, Z.eqb_neq. exact Hneq. }
    rewrite land_bit_eqb in H by lia. rewrite negb_involutive in H.
    destruct (Z.testbit closure s) eqn:Hin.
    + apply (IH _ _ _ Hc (bounded_clear n stack s ltac:(lia) Hs)); [|exact H].
      split; [|split].
      * intros t [Ht|Ht]; apply Hsound; [now left|].
        right. now apply Hclear.
      * destruct Hstart as [Hst|Hst]; [now left|].
        destruct (Z.eq_dec s0 s) as [->|Hneq]; [now left|].
        right. now apply Hkeep.
      * intros u t Hu Hut. destruct (Hclosed u t Hu Hut) as [Ht|Ht];
          [now left|].
        destruct (Z.eq_dec t s) as [->|Hneq]; [now left|].
        right. now apply Hkeep.
    + destruct (read tbl s) as [row|] eqn:Hrow; [|discriminate].
      cbn [bind] in H.
      destruct (read row epsilon_col) as [next|] eqn:Hnext; [|discriminate].
      cbn [bind] in H.
      pose proof (read_entry _ _ _ _ _ Hrow Hnext) as Hentry.
      assert (Hnb : bounded n next).
      { apply read_inv in Hrow, Hnext. destruct Hrow as [_ Hrow].
        destruct Hnext as [_ Hnext]. destruct tbl_wf as [_ Hrows].
        destruct (Hrows row Hrow) as [_ He]. now apply He. }
      assert (Hps : path tbl epsilon_col s0 s) by (apply Hsound; now right).
      apply (IH _ _ _
               (bounded_lor _ _ _ Hc (bounded_bit n s Hr))
               (bounded_lor _ _ _ (bounded_clear n stack s ltac:(lia) Hs) Hnb));
        [|exact H].
      split; [|split].
      * intros t [Ht|Ht].
        -- rewrite Z.lor_spec in Ht. apply orb_true_iff in Ht.
           destruct Ht as [Ht|Ht]; [apply Hsound; now left|].
           pose proof (testbit_nonneg _ _ Ht) as Ht0.
           rewrite testbit_shl1 in Ht by lia. apply Z.eqb_eq in Ht.
           subst t. exact Hps.
        -- rewrite Z.lor_spec in Ht. apply orb_true_iff in Ht.
           destruct Ht as [Ht|Ht].
           ++ apply Hsound. right. now apply Hclear.
           ++ apply (path_next _ _ _ s t Hps). now rewrite Hentry.
      * destruct Hstart as [Hst|Hst].
        -- left. rewrite Z.lor_spec, Hst. reflexivity.
        -- destruct (Z.eq_dec s0 s) as [->|Hneq].
           ++ left. rewrite Z.lor_spec, testbit_shl1, Z.eqb_refl by lia.
              apply orb_true_r.
           ++ right. rewrite Z.lor_spec, (Hkeep _ Hst Hneq). reflexivity.
      * intros u t Hu Hut. rewrite Z.lor_spec in Hu.
        apply orb_true_iff in Hu. destruct Hu as [Hu|Hu].
        -- destruct (Hclosed u t Hu Hut) as [Ht|Ht].
           ++ left. rewrite Z.lor_spec, Ht. reflexivity.
           ++ destruct (Z.eq_dec t s) as [->|Hneq].
              ** left. rewrite Z.lor_spec, testbit_shl1, Z.eqb_refl by lia.
                 apply orb_true_r.
              ** right. rewrite Z.lor_spec, (Hkeep _ Ht Hneq). reflexivity.
        -- pose proof (testbit_nonneg _ _ Hu) as Hu0.
           rewrite testbit_shl1 in Hu by lia. apply Z.eqb_eq in Hu. subst u.
           right. rewrite Z.lor_spec. rewrite Hentry in Hut. rewrite Hut.
           apply orb_true_r.
Qed.

End Closure.

(* ================================================================= *)
(** ** The matcher and the runs of an automaton *)

Lemma union_over_spec (n n' : Z) (f : Z -> result Z) (g : Z -> Z) :
  n <= 64 ->
  (forall s, 0 <= s < n -> f s = Ok (g s) /\ bounded n' (g s)) ->
  forall (fuel : nat) (j tmp acc : Z),
    0 <= j ->
    bounded n tmp ->
    (forall i, 0 <= i < j -> Z.testbit tmp i = false) ->
    Z.max 0 (n - j) < Z.of_nat fuel ->
    bounded n' acc ->
    exists v,
      union_over fuel f tmp acc = Ok v /\ bounded n' v /\
      forall t, Z.testbit v t = true <->
                Z.testbit acc t = true \/
                exists s, Z.testbit tmp s = true /\ Z.testbit (g s) t = true.
Proof.
  intros Hn Hf.
  induction fuel as [|fuel IH]; intros j tmp acc Hj Hb Hlow Hfuel Hacc;
    [lia|].
  cbn [union_over]. destruct (Z.eqb_spec tmp 0) as [->|E].
  - exists acc. split; [reflexivity|]. split; [exact Hacc|].
    intros t. split; [now left|].
    intros [H|[s [H _]]]; [exact H|]. rewrite Z.bits_0 in H. discriminate.
  - destruct (ctzll_spec n tmp Hn Hb E) as (Hs & Hbit & Hmin).
    set (s := ctzll tmp) in *.
    assert (Hjs : j <= s).
    { destruct (Z_lt_le_dec s j) as [H|H]; [|exact H].
      rewrite Hlow in Hbit by lia. discriminate. }
    rewrite (shl1_ok s) by lia. cbn [bind].
    destruct (Hf s Hs) as (Hv & Hbv). rewrite Hv. cbn [bind].
    destruct (IH (s + 1) (Z.land tmp (not64 (Z.shiftl 1 s)))
                (Z.lor acc (g s))) as (v & Hu & Hbd & Hspec).
    + lia.
    + apply bounded_clear; [lia|exact Hb].
    + intros i Hi. rewrite testbit_clear by lia.
      destruct (Z.eq_dec i s) as [->|Hne].
      * rewrite Z.eqb_refl. now rewrite andb_false_r.
      * rewrite Hmin by lia. reflexivity.
    + lia.
    + now apply bounded_lor.
    + exists v. split; [exact Hu|]. split; [exact Hbd|].
      intros t. rewrite Hspec. rewrite Z.lor_spec, orb_true_iff. split.
      * intros [[H|H]|[u [Hu1 Hu2]]].
        -- now left.
        -- right. exists s. now split.
        -- right. exists u. split; [|exact Hu2].
           pose proof (testbit_nonneg _ _ Hu1) as Hu0.
           rewrite testbit_clear in Hu1 by lia.
           apply andb_true_iff in Hu1. destruct Hu1 as [Hu1 _].
           apply andb_true_iff in Hu1. now destruct Hu1.
      * intros [H|[u [Hu1 Hu2]]]; [now left; left|].
        destruct (Z.eq_dec u s) as [->|Hne]; [now left; right|].
        right. exists u. split; [|exact Hu2].
        destruct (testbit_bounded _ _ _ Hb Hu1) as [Hu0 Hun].
        rewrite testbit_clear by lia. rewrite Hu1. cbn [andb].
        apply andb_true_iff. split.
        -- apply Z.ltb_lt. lia.
        -- apply negb_true_iff, Z.eqb_neq. exact Hne.
Qed.

Lemma land_nonzero (x y : Z) :
  0 <= x ->
  negb (Z.land x y =? 0) = true <->
  exists t, Z.testbit x t = true /\ Z.testbit y t = true.
Proof.
  intros Hx. rewrite negb_true_iff, Z.eqb_neq. split.
  - intros Hne.
    assert (Hpos : 0 < Z.land x y).
    { assert (0 <= Z.land x y) by (apply Z.land_nonneg; now left). lia. }
    exists (Z.log2 (Z.land x y)).
    pose proof (Z.bit_log2 _ Hpos) as Hb. rewrite Z.land_spec in Hb.
    now apply andb_true_iff in Hb.
  - intros [t [H1 H2]] Hz.
    assert (Hb : Z.testbit (Z.land x y) t = true)
      by (rewrite Z.land_spec, H1, H2; reflexivity).
    rewrite Hz, Z.bits_0 in Hb. discriminate.
Qed.

Section Matcher.

Variable epsilon : ascii.
Variable a : nfa.
Hypothesis a_wf : nfa_wf a.
Hypothesis a_closures : closures_exact epsilon a.

Lemma move_spec (col current : Z) :
  0 <= col < symbol_count (nfa_alphabet a) ->
  bounded (nfa_states a) current ->
  exists v,
    move a col current = Ok v /\ bounded (nfa_states a) v /\
    forall t, Z.testbit v t = true <->
      exists s u, Z.testbit current s = true /\
                  Z.testbit (entry (nfa_transitions a) s col) u = true /\
                  path (nfa_transitions a) (col_of (nfa_alphabet a) epsilon) u t.
Proof.
  intros Hcol Hcur.
  pose proof a_wf as (Hn & Hlt & Hlc & Hstart & Hrows & Hcl & Hcols).
  unfold move.
  destruct (union_over_spec (nfa_states a) (nfa_states a)
              (fun s => row <- read (nfa_transitions a) s ;; read row col)
              (fun s => entry (nfa_transitions a) s col)
              ltac:(lia)) with (fuel := 65%nat) (j := 0) (tmp := current)
              (acc := 0) as (next & Hnext & Hbn & Hsn);
    try lia; try assumption; try apply bounded_0.
  { intros s Hs.
    destruct (read_ok (nfa_transitions a) s ltac:(lia)) as (row & Hr & Hin).
    destruct (Hrows row Hin) as [Hlen Hent].
    destruct (read_ok row col ltac:(lia)) as (e & He & Hine).
    rewrite (read_entry _ _ _ _ _ Hr He). rewrite Hr. cbn [bind].
    split; [exact He|]. now apply Hent. }
  rewrite Hnext. cbn [bind].
  destruct (union_over_spec (nfa_states a) (nfa_states a)
              (fun s => read (epsilon_closures a) s)
              (closure_of a)
              ltac:(lia)) with (fuel := 65%nat) (j := 0) (tmp := next)
              (acc := 0) as (v & Hv & Hbv & Hsv);
    try lia; try assumption; try apply bounded_0.
  { intros s Hs. unfold closure_of.
    destruct (read_ok (epsilon_closures a) s ltac:(lia)) as (e & He & Hin).
    rewrite He. split; [reflexivity|]. now apply Hcl. }
  exists v. split; [exact Hv|]. split; [exact Hbv|].
  intros t. rewrite Hsv. split.
  - intros [H|[u [Hu Hut]]]; [rewrite Z.bits_0 in H; discriminate|].
    pose proof (testbit_bounded _ _ _ Hbn Hu) as Hur.
    apply (a_closures u Hur) in Hut.
    apply Hsn in Hu. destruct Hu as [H|[s [Hs Hsu]]];
      [rewrite Z.bits_0 in H; discriminate|].
    exists s, u. auto.
  - intros (s & u & Hs & Hsu & Hut). right. exists u.
    assert (Hu : Z.testbit next u = true).
    { apply Hsn. right. exists s. auto. }
    split; [exact Hu|].
    apply (a_closures u (testbit_bounded _ _ _ Hbn Hu)). exact Hut.
Qed.

Lemma match_loop_run :
  forall (w : list ascii) (current : Z),
    bounded (nfa_states a) current ->
    exists b,
      match_loop a w current = Ok b /\
      (b = true <->
       exists s t, Z.testbit current s = true /\ run epsilon a w s t /\
                   Z.testbit (accept_states a) t = true).
Proof.
  induction w as [|c w IH]; intros current Hcur.
  - cbn [match_loop]. eexists. split; [reflexivity|].
    rewrite land_nonzero by apply Hcur. split.
    + intros [t [H1 H2]]. exists t, t. split; [exact H1|].
      split; [constructor|exact H2].
    + intros (s & t & H1 & Hrun & H2). inversion Hrun; subst. eauto.
  - cbn [match_loop].
    destruct (Z.eqb_spec (col_of (nfa_alphabet a) c) (-1)) as [E|E].
    + exists false. split; [reflexivity|]. split; [discriminate|].
      intros (s & t & _ & Hrun & _). inversion Hrun; subst. contradiction.
    + assert (Hcol : 0 <= col_of (nfa_alphabet a) c
                     < symbol_count (nfa_alphabet a)).
      { destruct a_wf as (_ & _ & _ & _ & _ & _ & Hcols).
        destruct (Hcols c); [contradiction|assumption]. }
      destruct (move_spec _ current Hcol Hcur) as (v & Hv & Hbv & Hsv).
      rewrite Hv. cbn [bind].
      destruct (Z.eqb_spec v 0) as [Hz|Hnz].
      * exists false. split; [reflexivity|]. split; [discriminate|].
        intros (s & t & Hs & Hrun & _). inversion Hrun; subst.
        assert (Hb : Z.testbit 0 v0 = true) by (apply Hsv; eauto).
        rewrite Z.bits_0 in Hb. discriminate.
      * destruct (IH v Hbv) as (b & Hb & Hspec). exists b.
        split; [exact Hb|]. rewrite Hspec. split.
        -- intros (u & t & Hu & Hrun & Hacc). apply Hsv in Hu.
           destruct Hu as (s & u0 & Hs & Hsu & Hp).
           exists s, t. split; [exact Hs|]. split; [|exact Hacc].
           apply (run_cons epsilon a c w s u0 u t E Hsu Hp Hrun).
        -- intros (s & t & Hs & Hrun & Hacc). inversion Hrun; subst.
           exists v0, t. split; [|split; assumption].
           apply Hsv. eauto.
Qed.

Lemma match_nfa_run (w : list ascii) :
  exists b, match_nfa a w = Ok b /\ (b = true <-> accepts epsilon a w).
Proof.
  pose proof a_wf as (Hn & Hlt & Hlc & Hstart & Hrows & Hcl & Hcols).
  unfold match_nfa.
  destruct (read_ok (epsilon_closures a) (start_state a) ltac:(lia))
    as (cur & Hr & Hcur).
  rewrite Hr. cbn [bind].
  destruct (match_loop_run w cur (Hcl cur Hcur)) as (b & Hb & Hspec).
  exists b. split; [exact Hb|]. rewrite Hspec. unfold accepts.
  assert (Hc : closure_of a (start_state a) = cur)
    by (unfold closure_of; now rewrite Hr).
  split; intros (s & t & Hs & Hrest); exists s, t; (split; [|exact Hrest]).
  - apply (a_closures _ Hstart). now rewrite Hc.
  - rewrite <- Hc. now apply (a_closures _ Hstart).
Qed.

End Matcher.

Section Closures.

Variable EPSILON_SYMBOL : ascii.
Variable MAX_STATES : nat.

Lemma epsilon_closure_path (n cols : Z) (al : alphabet) (tbl : list (list Z))
    (s c : Z) :
  n <= 64 ->
  table_wf n cols tbl ->
  0 <= s < n ->
  epsilon_closure EPSILON_SYMBOL al tbl s = Ok c ->
  forall t, Z.testbit c t = true <->
            path tbl (col_of al EPSILON_SYMBOL) s t.
Proof.
  intros Hn Htbl Hs H.
  apply epsilon_closure_inv in H. destruct H as [_ [fuel H]].
  apply (closure_loop_path n cols tbl (col_of al EPSILON_SYMBOL) s Hn Htbl
           fuel 0 (Z.shiftl 1 s) c (bounded_0 n) (bounded_bit n s Hs));
    [|exact H].
  split; [|split].
  - intros t [Ht|Ht]; [rewrite Z.bits_0 in Ht; discriminate|].
    pose proof (testbit_nonneg _ _ Ht) as Ht0.
    rewrite testbit_shl1 in Ht by lia. apply Z.eqb_eq in Ht. subst t.
    constructor.
  - right. rewrite testbit_shl1 by lia. apply Z.eqb_refl.
  - intros u t Hu. rewrite Z.bits_0 in Hu. discriminate.
Qed.

Lemma calculate_epsilon_closure_nth (al : alphabet) (tbl : list (list Z)) :
  forall (k : nat) (i : Z) (cs : list Z),
    calculate_epsilon_closure EPSILON_SYMBOL al tbl k i = Ok cs ->
    forall j : nat, (j < k)%nat ->
      exists c, nth_error cs j = Some c /\
                epsilon_closure EPSILON_SYMBOL al tbl (i + Z.of_nat j) = Ok c.
Proof.
  induction k as [|k IH]; intros i cs H j Hj; [lia|].
  cbn [calculate_epsilon_closure] in H.
  destruct (epsilon_closure EPSILON_SYMBOL al tbl i) as [c|] eqn:Hc;
    [|discriminate].
  cbn [bind] in H.
  destruct (calculate_epsilon_closure EPSILON_SYMBOL al tbl k (i + 1))
    as [cs'|] eqn:Hcs; [|discriminate].
  cbn [bind] in H. injection H as <-.
  destruct j as [|j].
  - exists c. split; [reflexivity|]. now rewrite Z.add_0_r.
  - destruct (IH _ _ Hcs j ltac:(lia)) as (c' & H1 & H2).
    exists c'. split; [exact H1|].
    replace (i + Z.of_nat (S j)) with (i + 1 + Z.of_nat j) by lia. exact H2.
Qed.

Lemma regex_to_nfa_closures (r : regex) (a : nfa) :
  regex_to_nfa EPSILON_SYMBOL MAX_STATES r = Ok a ->
  closures_exact EPSILON_SYMBOL a.
Proof.
  intros H.
  destruct (regex_to_nfa_wf EPSILON_SYMBOL MAX_STATES r a H) as [Hwf _].
  destruct (regex_to_nfa_inv EPSILON_SYMBOL MAX_STATES r a H)
    as (m & f & stk & _ & Ht & _ & _).
  destruct (t_nfa_to_nfa_fields EPSILON_SYMBOL f m a Ht)
    as (_ & Hst & _ & _ & Hal & _ & Hcs).
  destruct Hwf as (Hn & Hlt & Hlc & Hstart & Hrows & Hcl & Hcols).
  intros s Hs t.
  destruct (calculate_epsilon_closure_nth _ _ _ _ _ Hcs (Z.to_nat s)
              ltac:(lia)) as (c & Hc1 & Hc2).
  rewrite Z.add_0_l, Z2Nat.id in Hc2 by lia.
  assert (Hco : closure_of a s = c).
  { unfold closure_of, read.
    replace ((0 <=? s) && (s <? Z.of_nat (List.length (epsilon_closures a))))
      with true.
    - now rewrite Hc1.
    - symmetry. apply andb_true_iff. split; [apply Z.leb_le|apply Z.ltb_lt]; lia. }
  rewrite Hco, Hal.
  apply (epsilon_closure_path (nfa_states a)
           (symbol_count (nfa_alphabet a)) _ _ s c); try lia; [|exact Hc2].
  split; [exact Hlt|exact Hrows].
Qed.

(** X12. The epsilon closure that [epsilon_closure] stores for a state
    [s] of a compiled automaton is exactly the set of the states reached
    from [s] through entries of the epsilon column of the table, [s]
    itself included. *)
Theorem epsilon_closures_reachable (r : regex) (a : nfa) (s : Z) :
  regex_to_nfa EPSILON_SYMBOL MAX_STATES r = Ok a ->
  0 <= s < nfa_states a ->
  exists c,
    read (epsilon_closures a) s = Ok c /\
    forall t, Z.testbit c t = true <->
              path (nfa_transitions a)
                   (col_of (nfa_alphabet a) EPSILON_SYMBOL) s t.
Proof.
  intros H Hs.
  destruct (regex_to_nfa_wf EPSILON_SYMBOL MAX_STATES r a H) as [Hwf _].
  pose proof (regex_to_nfa_closures r a H s Hs) as Hex.
  destruct Hwf as (Hn & Hlt & Hlc & _).
  destruct (read_ok (epsilon_closures a) s ltac:(lia)) as (c & Hc & _).
  exists c. split; [exact Hc|].
  unfold closure_of in Hex. rewrite Hc in Hex. exact Hex.
Qed.

(** X13. On a compiled automaton [match_nfa] returns a verdict for every
    input, without a fault, and the verdict is [true] exactly when the
    automaton has an accepting run on the input: a path through the
    transition table that starts in the start state, takes for each
    input character one entry of the column of that character, takes
    entries of the epsilon column in between, and ends in the accepting
    state. *)
Theorem match_nfa_accepts (r : regex) (a : nfa) (w : list ascii) :
  regex_to_nfa EPSILON_SYMBOL MAX_STATES r = Ok a ->
  exists b,
    match_nfa a w = Ok b /\ (b = true <-> accepts EPSILON_SYMBOL a w).
Proof.
  intros H.
  destruct (regex_to_nfa_wf EPSILON_SYMBOL MAX_STATES r a H) as [Hwf _].
  apply (match_nfa_run EPSILON_SYMBOL a Hwf (regex_to_nfa_closures r a H)).
Qed.

End Closures.

Lemma match_nfa_accepts_witness :
  regex_to_nfa zero 64 (parse_regex (Some "a"%string)) = Ok literal_a_nfa /\
  exists b,
    match_nfa literal_a_nfa ["a"%char] = Ok b /\
    (b = true <-> accepts zero literal_a_nfa ["a"%char]).
Proof.
  assert (H : regex_to_nfa zero 64 (parse_regex (Some "a"%string)) =
              Ok literal_a_nfa)
    by (vm_compute; reflexivity).
  split; [exact H|].
  apply (match_nfa_accepts zero 64 _ _ ["a"%char] H).
Defined.

Lemma epsilon_closures_reachable_witness :
  regex_to_nfa zero 64 (parse_regex (Some "a"%string)) = Ok literal_a_nfa /\
  0 <= 0 < nfa_states literal_a_nfa /\
  exists c,
    read (epsilon_closures literal_a_nfa) 0 = Ok c /\
    forall t, Z.testbit c t = true <->
              path (nfa_transitions literal_a_nfa)
                   (col_of (nfa_alphabet literal_a_nfa) zero) 0 t.
Proof.
  assert (H : regex_to_nfa zero 64 (parse_regex (Some "a"%string)) =
              Ok literal_a_nfa)
    by (vm_compute; reflexivity).
  assert (Hs : 0 <= 0 < nfa_states literal_a_nfa) by (cbn; lia).
  split; [exact H|]. split; [exact Hs|].
  apply (epsilon_closures_reachable zero 64 _ _ 0 H Hs).
Defined.
(* ================================================================= *)
(** ** The number of states *)

Section Capacity.

Variable EPSILON_SYMBOL : ascii.
Variable MAX_STATES : nat.

Lemma thompson_step_allocates (m m' : states_manager) (stk stk' : list t_nfa)
    (it : item) :
  thompson_step EPSILON_SYMBOL MAX_STATES (m, stk) it = Ok (m', stk') ->
  List.length (states m') =
  (List.length (states m) + (if allocates it then 2 else 0))%nat.
Proof.
  intros H. unfold allocates.
  destruct (thompson_step_call EPSILON_SYMBOL MAX_STATES _ _ _ _ _ H)
    as [[-> _]|(popped & rest & build & Hcall & _ & -> & _)].
  - unfold thompson_step, push in H.
    destruct (type it) eqn:T; try lia;
      exfalso;
      repeat match type of H with
      | context [pop ?s] => destruct s; cbn [pop bind] in H; try discriminate
      end;
      revert H; run_state;
      match goal with
      | |- context [(?x <? MAX_STATES)%nat] =>
          destruct (x <? MAX_STATES)%nat; [|discriminate]
      end;
      cbn [bind]; intros H; injection H as H _;
      apply (f_equal states) in H; cbn [states] in H;
      apply (f_equal (@List.length Z)) in H;
      rewrite ?length_app in H; cbn [List.length] in H; lia.
  - rewrite (fragment_call_states EPSILON_SYMBOL _ _ _ _ Hcall).
    unfold allocates. reflexivity.
Qed.

Lemma thompson_loop_allocates (l : list item) :
  forall m stk m' stk',
    thompson_loop EPSILON_SYMBOL MAX_STATES l (m, stk) = Ok (m', stk') ->
    List.length (states m') =
    (List.length (states m) + 2 * count allocates l)%nat.
Proof.
  induction l as [|it l IH]; intros m stk m' stk' H.
  - inversion H. subst. cbn. lia.
  - cbn [thompson_loop] in H.
    destruct (thompson_step EPSILON_SYMBOL MAX_STATES (m, stk) it)
      as [[m1 stk1]|] eqn:E; [|discriminate].
    cbn [bind] in H. apply IH in H. apply thompson_step_allocates in E.
    rewrite H, E, count_cons. destruct (allocates it); lia.
Qed.

(** A pattern that compiles went through the three stages of
    [parse_regex]. *)
Lemma compile_pipeline (pattern : string) (a : nfa) :
  compile EPSILON_SYMBOL MAX_STATES pattern = Ok a ->
  exists toks post,
    itemize_regex (Some pattern) = Some toks /\
    shunting_yard (implicit_to_explicit_concatenation (Some toks)) =
      Some post /\
    implicit_to_explicit_concatenation (Some toks) =
      Some (Spec.expand toks) /\
    regex_items (parse_regex (Some pattern)) = post.
Proof.
  unfold compile. intros H.
  exists (Spec.tokens (list_ascii_of_string pattern)).
  rewrite itemize_regex_tokens.
  rewrite implicit_to_explicit_concatenation_expand.
  rewrite parse_regex_stages in *.
  destruct (Spec.tokens (list_ascii_of_string pattern)) as [|x toks];
    [discriminate|].
  destruct (shunting_yard (Some (Spec.expand (x :: toks)))) as [post|];
    [|discriminate].
  exists post. repeat split. apply regex_items_parsed.
Qed.

Lemma compile_count (p : item -> bool) (pattern : string) (a : nfa)
    (toks : list item) :
  (forall it, type it = L_PARENTHESIS -> p it = false) ->
  (forall it, type it = R_PARENTHESIS -> p it = false) ->
  p (new_item CONCAT_SYMBOL CONCATENATION) = false ->
  compile EPSILON_SYMBOL MAX_STATES pattern = Ok a ->
  itemize_regex (Some pattern) = Some toks ->
  count p (regex_items (parse_regex (Some pattern))) = count p toks.
Proof.
  intros Hl Hr Hc H Htoks.
  destruct (compile_pipeline pattern a H) as (toks' & post & H1 & H2 & H3 & H4).
  rewrite Htoks in H1. injection H1 as <-. rewrite H4.
  rewrite H3 in H2. unfold shunting_yard in H2.
  destruct (Z.of_nat (List.length (Spec.expand toks)) <=? 0); [discriminate|].
  rewrite (shunting_from_count p Hl Hr _ [] [] post H2).
  rewrite (count_expand p Hc). change (count p []) with 0%nat. lia.
Qed.

(** X9. The automaton compiled from a pattern has exactly two states
    for every token of the pattern that is a literal, an alternation or
    a postfix operator, and none for concatenations and parentheses; a
    pattern compiles only if it has at most 32 such tokens (the 64 bits
    of a state set). *)
Theorem compiled_state_count (pattern : string) (a : nfa)
    (toks : list item) :
  compile EPSILON_SYMBOL MAX_STATES pattern = Ok a ->
  itemize_regex (Some pattern) = Some toks ->
  nfa_states a = 2 * Z.of_nat (count allocates toks) /\
  (count allocates toks <= 32)%nat.
Proof.
  intros H Htoks.
  rewrite <- (compile_count allocates pattern a toks) by
    (try (intros it T; unfold allocates; rewrite T); auto).
  unfold compile in H.
  destruct (regex_to_nfa_wf EPSILON_SYMBOL MAX_STATES _ a H) as [Hwf _].
  destruct (regex_to_nfa_inv EPSILON_SYMBOL MAX_STATES _ a H)
    as (m & f & stk & Hl & Ht & _ & _).
  destruct (t_nfa_to_nfa_fields EPSILON_SYMBOL f m a Ht) as (_ & Hst & _).
  apply thompson_loop_allocates in Hl. cbn [states new_states_manager] in Hl.
  destruct Hwf as (Hn & _). unfold states_count in Hst.
  rewrite Hl in Hst. cbn [List.length] in Hst. lia.
Qed.

(** X8. Every automaton that [regex_to_nfa] returns is well formed: it
    has at most 64 states, its start state is one of them, its
    transition table has one row per state and one column per symbol of
    its alphabet, it has one epsilon closure per state, every set in the
    table and in the closures holds states of the automaton only, and
    every column of [char_to_col] is -1 or a column of the table. *)
Theorem compiled_automaton_well_formed (r : regex) (a : nfa) :
  regex_to_nfa EPSILON_SYMBOL MAX_STATES r = Ok a -> nfa_wf a.
Proof.
  intros H. apply (regex_to_nfa_wf EPSILON_SYMBOL MAX_STATES r a H).
Qed.

(* ================================================================= *)
(** ** The order of the columns *)

Lemma first_seen_head (syms : list ascii) :
  exists tl, first_seen EPSILON_SYMBOL syms = EPSILON_SYMBOL :: tl.
Proof.
  induction syms as [|c syms [tl IH]] using rev_ind; [now exists []|].
  rewrite first_seen_snoc, IH.
  destruct (existsb _ _); [now exists tl|]. now exists (tl ++ [c]).
Qed.

Lemma first_seen_filter (syms : list ascii) :
  first_seen EPSILON_SYMBOL syms =
  first_seen EPSILON_SYMBOL (filter (not_epsilon EPSILON_SYMBOL) syms).
Proof.
  induction syms as [|c syms IH] using rev_ind; [reflexivity|].
  rewrite filter_app. cbn [filter]. unfold not_epsilon at 2.
  rewrite first_seen_snoc.
  destruct (Ascii.eqb_spec c EPSILON_SYMBOL) as [->|Hne]; cbn [negb].
  - rewrite app_nil_r.
    destruct (first_seen_head syms) as [tl Htl]. rewrite Htl at 1.
    cbn [existsb]. rewrite Ascii.eqb_refl. exact IH.
  - rewrite first_seen_snoc, <- IH. reflexivity.
Qed.

Lemma fragment_call_symbol_order (it : item) (popped : list t_nfa)
    (build : State t_nfa) (m : states_manager) :
  fragment_call EPSILON_SYMBOL it popped build ->
  filter (not_epsilon EPSILON_SYMBOL) (map symbol (transitions (snd (build m)))) =
  filter (not_epsilon EPSILON_SYMBOL) (map symbol (transitions m)) ++
  filter (not_epsilon EPSILON_SYMBOL) (map value (filter is_operand [it])).
Proof.
  intros Hcall. cbn [filter]. unfold is_operand.
  destruct Hcall as [T|x y T|x y T|x T|x T|x T]; rewrite T;
    cbn [item_type_eqb map filter]; run_state;
    rewrite ?map_app, ?filter_app; cbn [map filter symbol];
    unfold not_epsilon; rewrite ?Ascii.eqb_refl; cbn [negb];
    rewrite ?app_nil_r; reflexivity.
Qed.

Lemma thompson_loop_symbol_order (l : list item) :
  forall m stk m' stk',
    thompson_loop EPSILON_SYMBOL MAX_STATES l (m, stk) = Ok (m', stk') ->
    filter (not_epsilon EPSILON_SYMBOL) (map symbol (transitions m')) =
    filter (not_epsilon EPSILON_SYMBOL) (map symbol (transitions m)) ++
    filter (not_epsilon EPSILON_SYMBOL) (map value (filter is_operand l)).
Proof.
  induction l as [|it l IH]; intros m stk m' stk' H.
  - inversion H. subst. cbn. now rewrite app_nil_r.
  - cbn [thompson_loop] in H.
    destruct (thompson_step EPSILON_SYMBOL MAX_STATES (m, stk) it)
      as [[m1 stk1]|] eqn:E; [|discriminate].
    cbn [bind] in H. apply IH in H. rewrite H.
    change (it :: l) with ([it] ++ l).
    rewrite (filter_app is_operand), map_app, filter_app, app_assoc.
    f_equal.
    pose proof (thompson_step_allocates _ _ _ _ _ E) as Hal.
    destruct (thompson_step_call EPSILON_SYMBOL MAX_STATES _ _ _ _ _ E)
      as [[-> _]|(popped & rest & build & Hcall & _ & -> & _)].
    + assert (Hop : is_operand it = false).
      { unfold allocates in Hal. unfold is_operand.
        destruct (type it); try reflexivity; lia. }
      cbn [filter]. rewrite Hop. cbn. now rewrite app_nil_r.
    + apply (fragment_call_symbol_order _ _ _ _ Hcall).
Qed.

Lemma filter_operand_expand (l : list item) :
  filter is_operand (Spec.expand l) = filter is_operand l.
Proof.
  induction l as [|x rest IH]; [reflexivity|].
  destruct rest as [|y rest]; [reflexivity|].
  rewrite expand_cons.
  destruct (Spec.can_terminate (type x) && Spec.can_begin (type y));
    cbn [filter]; [change (is_operand (new_item CONCAT_SYMBOL CONCATENATION))
                     with false; cbn iota|]; rewrite IH; reflexivity.
Qed.

(** X10. The columns of the alphabet of a compiled automaton are the
    epsilon symbol, then the distinct literal characters of the pattern
    in the order of their first occurrence in the pattern. *)
Theorem alphabet_columns_in_pattern_order (pattern : string) (a : nfa)
    (toks : list item) :
  compile EPSILON_SYMBOL MAX_STATES pattern = Ok a ->
  itemize_regex (Some pattern) = Some toks ->
  symbols (nfa_alphabet a) =
  first_seen EPSILON_SYMBOL (map value (filter is_operand toks)).
Proof.
  intros H Htoks.
  destruct (compile_pipeline pattern a H) as (toks' & post & H1 & H2 & H3 & H4).
  rewrite Htoks in H1. injection H1 as <-.
  unfold compile in H.
  destruct (regex_to_nfa_inv EPSILON_SYMBOL MAX_STATES _ a H)
    as (m & f & stk & Hl & Ht & _ & Hre).
  destruct (t_nfa_to_nfa_fields EPSILON_SYMBOL f m a Ht)
    as (_ & _ & _ & _ & Hal & _).
  destruct (reachable_inv EPSILON_SYMBOL m Hre) as (_ & Hsyms & _).
  rewrite Hal, Hsyms, first_seen_filter.
  rewrite (thompson_loop_symbol_order _ _ _ _ _ Hl). cbn [transitions
    new_states_manager map filter app].
  rewrite <- first_seen_filter. rewrite H4.
  rewrite H3 in H2. unfold shunting_yard in H2.
  destruct (Z.of_nat (List.length (Spec.expand toks)) <=? 0); [discriminate|].
  rewrite (shunting_from_operand_order _ [] [] post eq_refl H2).
  cbn [filter app]. now rewrite filter_operand_expand.
Qed.

End Capacity.

Lemma alphabet_columns_in_pattern_order_witness :
  compile zero 64 "a" = Ok literal_a_nfa /\
  itemize_regex (Some "a"%string) = Some [new_item "a" OPERAND] /\
  symbols (nfa_alphabet literal_a_nfa) =
    first_seen zero (map value (filter is_operand [new_item "a" OPERAND])).
Proof.
  assert (H : compile zero 64 "a" = Ok literal_a_nfa)
    by (vm_compute; reflexivity).
  split; [exact H|]. split; [reflexivity|].
  apply (alphabet_columns_in_pattern_order zero 64 "a" literal_a_nfa _ H).
  reflexivity.
Defined.

Lemma compiled_state_count_witness :
  compile zero 64 "a" = Ok literal_a_nfa /\
  itemize_regex (Some "a"%string) = Some [new_item "a" OPERAND] /\
  nfa_states literal_a_nfa =
    2 * Z.of_nat (count allocates [new_item "a" OPERAND]) /\
  (count allocates [new_item "a" OPERAND] <= 32)%nat.
Proof.
  assert (H : compile zero 64 "a" = Ok literal_a_nfa)
    by (vm_compute; reflexivity).
  split; [exact H|]. split; [reflexivity|].
  apply (compiled_state_count zero 64 "a" literal_a_nfa _ H).
  reflexivity.
Defined.

Lemma compiled_automaton_well_formed_witness :
  regex_to_nfa zero 64 (parse_regex (Some "a"%string)) = Ok literal_a_nfa /\
  nfa_wf literal_a_nfa.
Proof.
  assert (H : regex_to_nfa zero 64 (parse_regex (Some "a"%string)) =
              Ok literal_a_nfa)
    by (vm_compute; reflexivity).
  split; [exact H|].
  apply (compiled_automaton_well_formed zero 64 _ _ H).
Defined.
(* ================================================================= *)
(** ** Walks through the recorded transitions *)

Section Walks.

Variable epsilon : ascii.

Lemma walk_inv (ts : list t_transition) (s t : Z) (w : list ascii) :
  walk epsilon ts s w t ->
  (t = s /\ w = []) \/
  exists tr w', In tr ts /\ from_state tr = s /\
                w = label epsilon (symbol tr) ++ w' /\
                walk epsilon ts (to_state tr) w' t.
Proof.
  intros H. destruct H as [s|tr w t Hin Hw]; [now left|].
  right. exists tr, w. auto.
Qed.

Lemma walk_mono (ts ts' : list t_transition) (s t : Z) (w : list ascii) :
  (forall tr, In tr ts -> In tr ts') ->
  walk epsilon ts s w t -> walk epsilon ts' s w t.
Proof.
  intros Hsub H. induction H as [s|tr w t Hin _ IH]; [constructor|].
  constructor; auto.
Qed.

Lemma walk_app (ts : list t_transition) (s x t : Z) (u v : list ascii) :
  walk epsilon ts s u x -> walk epsilon ts x v t ->
  walk epsilon ts s (u ++ v) t.
Proof.
  intros H1 H2. induction H1 as [s|tr w x Hin _ IH]; [exact H2|].
  rewrite <- app_assoc. constructor; auto.
Qed.

Lemma walk_edge (ts : list t_transition) (s t : Z) (c : ascii) :
  In (mk_transition s c t) ts -> walk epsilon ts s (label epsilon c) t.
Proof.
  intros Hin.
  pose proof (walk_cons epsilon ts (mk_transition s c t) [] t Hin
                (walk_nil epsilon ts t)) as H.
  cbn in H. now rewrite app_nil_r in H.
Qed.

Lemma walk_epsilon_edge (ts : list t_transition) (s x t : Z)
    (w : list ascii) :
  In (mk_transition s epsilon x) ts ->
  walk epsilon ts x w t -> walk epsilon ts s w t.
Proof.
  intros Hin H.
  pose proof (walk_cons epsilon ts (mk_transition s epsilon x) w t Hin H)
    as H'.
  cbn in H'. unfold label in H'. now rewrite Ascii.eqb_refl in H'.
Qed.

Lemma walk_stuck (ts : list t_transition) (s t : Z) (w : list ascii) :
  (forall tr, In tr ts -> from_state tr <> s) ->
  walk epsilon ts s w t -> t = s /\ w = [].
Proof.
  intros Hno H. apply walk_inv in H.
  destruct H as [H|(tr & w' & Hin & Hfrom & _)]; [exact H|].
  now apply Hno in Hin.
Qed.

Lemma walk_local (ts new : list t_transition) (lo hi : Z) :
  closed ts lo hi ->
  (forall tr, In tr new -> ~ lo <= from_state tr < hi) ->
  forall s w t,
    walk epsilon (ts ++ new) s w t ->
    lo <= s < hi ->
    walk epsilon ts s w t /\ lo <= t < hi.
Proof.
  intros Hcl Hnew s w t H.
  induction H as [s|tr w t Hin _ IH]; intros Hs.
  - split; [constructor|exact Hs].
  - apply in_app_or in Hin. destruct Hin as [Hin|Hin].
    + destruct (IH (Hcl tr Hin Hs)) as [Hw Ht].
      split; [now constructor|exact Ht].
    + now apply Hnew in Hin.
Qed.

Lemma closed_app (ts new : list t_transition) (lo hi : Z) :
  closed ts lo hi ->
  (forall tr, In tr new -> lo <= from_state tr < hi ->
              lo <= to_state tr < hi) ->
  closed (ts ++ new) lo hi.
Proof.
  intros Hcl Hnew tr Hin. apply in_app_or in Hin.
  destruct Hin as [Hin|Hin]; auto.
Qed.

Lemma frag_ok_extend (ts new : list t_transition) (lo hi : Z) (f : t_nfa)
    (e : re) :
  (forall tr, In tr new -> ~ lo <= from_state tr < hi) ->
  frag_ok epsilon ts lo hi f e ->
  frag_ok epsilon (ts ++ new) lo hi f e.
Proof.
  intros Hnew (Hs & He & Hcl & Hl).
  split; [exact Hs|]. split; [exact He|]. split; [|intros w; split].
  - apply closed_app; [exact Hcl|]. intros tr Hin Hr.
    now apply Hnew in Hin.
  - intros H. apply Hl.
    apply (walk_local ts new lo hi Hcl Hnew _ _ _ H). lia.
  - intros H. apply Hl in H.
    apply (walk_mono ts); [|exact H]. intros tr Hin. apply in_or_app. now left.
Qed.

Lemma stack_ok_extend (ts new : list t_transition) (fs : list t_nfa) :
  forall (es : list re) (hi : Z),
    (forall tr, In tr new -> hi <= from_state tr) ->
    stack_ok epsilon ts fs es hi ->
    stack_ok epsilon (ts ++ new) fs es hi.
Proof.
  induction fs as [|f fs IH]; intros es hi Hnew H; destruct es as [|e es];
    cbn in *; try assumption.
  destruct H as (lo & Hf & Hst). exists lo.
  assert (Hlo : lo <= hi) by (destruct Hf as (? & _); lia).
  split.
  - apply frag_ok_extend; [|exact Hf]. intros tr Hin.
    apply Hnew in Hin. lia.
  - apply IH; [|exact Hst]. intros tr Hin. apply Hnew in Hin. lia.
Qed.

Lemma stack_ok_nonneg (ts : list t_transition) (fs : list t_nfa) :
  forall (es : list re) (hi : Z), stack_ok epsilon ts fs es hi -> 0 <= hi.
Proof.
  induction fs as [|f fs IH]; intros es hi H; destruct es as [|e es];
    cbn in H; try contradiction; [lia|].
  destruct H as (lo & (Hs & _) & Hst). apply IH in Hst. lia.
Qed.

End Walks.

(* ================================================================= *)
(** ** The fragment constructors *)

Lemma star_mono (L L' : list ascii -> Prop) (w : list ascii) :
  (forall u, L u -> L' u) -> star L w -> star L' w.
Proof.
  intros Hsub H. induction H as [|u v Hu _ IH]; constructor; auto.
Qed.

Section Fragments.

Variable epsilon : ascii.
Variable ts : list t_transition.
Variable N : Z.
Hypothesis edges_in :
  forall tr, In tr ts ->
    0 <= from_state tr < N /\ 0 <= to_state tr < N.

(** Leaving the states [lo .. hi - 1] through new epsilon transitions
    from [x_end] to a state [e] outside. *)
Lemma walk_exit (new : list t_transition) (lo hi x_end e : Z) :
  closed ts lo hi ->
  (forall tr, In tr new -> lo <= from_state tr < hi ->
     from_state tr = x_end /\ symbol tr = epsilon /\ to_state tr = e) ->
  (forall tr, In tr (ts ++ new) -> from_state tr <> e) ->
  ~ lo <= e < hi ->
  forall s w t,
    walk epsilon (ts ++ new) s w t ->
    t = e -> lo <= s < hi ->
    walk epsilon ts s w x_end.
Proof.
  intros Hcl Hnew Hstuck He s w t H.
  induction H as [s|tr w t Hin Hsub IH]; intros -> Hs; [lia|].
  apply in_app_or in Hin. destruct Hin as [Hin|Hin].
  - constructor; [exact Hin|]. apply IH; [reflexivity|]. now apply Hcl.
  - destruct (Hnew tr Hin Hs) as (Hf & Hsym & Hto).
    rewrite Hto in Hsub. apply (walk_stuck _ _ _ _ _ Hstuck) in Hsub.
    destruct Hsub as [_ ->]. rewrite Hsym, Hf. unfold label.
    rewrite Ascii.eqb_refl. constructor.
Qed.

(** The same with new epsilon transitions from [x_end] back to
    [x_start]. *)
Lemma walk_loop (new : list t_transition) (lo hi x_start x_end e : Z) :
  closed ts lo hi ->
  lo <= x_start < hi ->
  (forall tr, In tr new -> lo <= from_state tr < hi ->
     from_state tr = x_end /\ symbol tr = epsilon /\
     (to_state tr = e \/ to_state tr = x_start)) ->
  (forall tr, In tr (ts ++ new) -> from_state tr <> e) ->
  ~ lo <= e < hi ->
  forall s w t,
    walk epsilon (ts ++ new) s w t ->
    t = e -> lo <= s < hi ->
    exists u v,
      w = u ++ v /\ walk epsilon ts s u x_end /\
      star (fun x => walk epsilon ts x_start x x_end) v.
Proof.
  intros Hcl Hst Hnew Hstuck He s w t H.
  induction H as [s|tr w t Hin Hsub IH]; intros -> Hs; [lia|].
  apply in_app_or in Hin. destruct Hin as [Hin|Hin].
  - destruct (IH eq_refl (Hcl tr Hin Hs)) as (u & v & -> & Hu & Hv).
    exists (label epsilon (symbol tr) ++ u), v.
    split; [now rewrite app_assoc|]. split; [now constructor|exact Hv].
  - destruct (Hnew tr Hin Hs) as (Hf & Hsym & [Hto|Hto]).
    + rewrite Hto in Hsub. apply (walk_stuck _ _ _ _ _ Hstuck) in Hsub.
      destruct Hsub as [_ ->]. rewrite Hsym, Hf. unfold label.
      rewrite Ascii.eqb_refl. exists [], []. split; [reflexivity|].
      split; constructor.
    + rewrite Hto in IH. destruct (IH eq_refl Hst) as (u & v & -> & Hu & Hv).
      rewrite Hsym, Hf. unfold label. rewrite Ascii.eqb_refl. cbn [app].
      exists [], (u ++ v). split; [reflexivity|]. split; [constructor|].
      now constructor.
Qed.

Lemma old_below (tr : t_transition) (new : list t_transition) (x : Z) :
  N <= x ->
  (forall tr', In tr' new -> from_state tr' <> x) ->
  In tr (ts ++ new) -> from_state tr <> x.
Proof.
  intros Hx Hnew Hin. apply in_app_or in Hin. destruct Hin as [Hin|Hin].
  - apply edges_in in Hin. lia.
  - now apply Hnew.
Qed.

Ltac new_edge H :=
  try match type of H with In _ ?l => is_var l; unfold l in H end;
  cbn [In] in H;
  repeat match type of H with
         | _ \/ _ => destruct H as [H|H]
         end;
  try contradiction; try subst;
  cbn [from_state to_state symbol] in *.

Lemma symbol_ok (c : ascii) :
  frag_ok epsilon (ts ++ [mk_transition N c (N + 1)]) N (N + 2)
          (mk_t_nfa N (N + 1)) (Lit c).
Proof.
  split; [cbn; lia|]. split; [cbn; lia|]. split; [|intros w; split].
  - intros tr Hin Hr. apply in_app_or in Hin. destruct Hin as [Hin|Hin].
    + apply edges_in in Hin. lia.
    + new_edge Hin. lia.
  - cbn [start end_ lang]. intros H. apply walk_inv in H.
    destruct H as [[H _]|(tr & w' & Hin & Hf & -> & Hsub)]; [lia|].
    apply in_app_or in Hin. destruct Hin as [Hin|Hin].
    + apply edges_in in Hin. lia.
    + new_edge Hin. apply walk_stuck in Hsub.
      * destruct Hsub as [_ ->]. now rewrite app_nil_r.
      * intros tr Hin. apply (old_below tr _ (N + 1)) in Hin; [exact Hin|lia|].
        intros tr' Hin'. new_edge Hin'. lia.
  - cbn [start end_ lang]. intros ->. apply walk_edge.
    apply in_or_app. right. now left.
Qed.

Lemma concat_ok (a b : t_nfa) (ea eb : re) (lo_a lo_b : Z) :
  frag_ok epsilon ts lo_b N b eb ->
  frag_ok epsilon ts lo_a lo_b a ea ->
  frag_ok epsilon (ts ++ [mk_transition (end_ a) epsilon (start b)]) lo_a N
          (mk_t_nfa (start a) (end_ b)) (Cat ea eb).
Proof.
  intros (Hsb & Heb & Hclb & Hlb) (Hsa & Hea & Hcla & Hla).
  split; [cbn; lia|]. split; [cbn; lia|]. split; [|intros w; split].
  - intros tr Hin Hr. apply in_app_or in Hin. destruct Hin as [Hin|Hin].
    + destruct (Z_lt_le_dec (from_state tr) lo_b) as [Hlt|Hge].
      * specialize (Hcla tr Hin). lia.
      * specialize (Hclb tr Hin). lia.
    + new_edge Hin. lia.
  - cbn [start end_ lang]. intros H.
    assert (Hgen : forall s w t,
              walk epsilon (ts ++ [mk_transition (end_ a) epsilon (start b)])
                   s w t ->
              lo_a <= s < lo_b -> lo_b <= t < N ->
              exists u v, w = u ++ v /\ walk epsilon ts s u (end_ a) /\
                          walk epsilon ts (start b) v t).
    { clear H. intros s w0 t H.
      induction H as [s|tr w0 t Hin Hsub IH]; intros Hs Ht; [lia|].
      apply in_app_or in Hin. destruct Hin as [Hin|Hin].
      - destruct (IH (Hcla tr Hin Hs) Ht) as (u & v & -> & Hu & Hv).
        exists (label epsilon (symbol tr) ++ u), v.
        split; [now rewrite app_assoc|]. split; [now constructor|exact Hv].
      - new_edge Hin. unfold label. rewrite Ascii.eqb_refl. cbn [app].
        exists [], w0. split; [reflexivity|]. split; [constructor|].
        apply (walk_local epsilon ts _ lo_b N Hclb) in Hsub; [apply Hsub| |lia].
        intros tr Hin. new_edge Hin. lia. }
    destruct (Hgen _ _ _ H Hsa Heb) as (u & v & -> & Hu & Hv).
    exists u, v. split; [reflexivity|]. split; [now apply Hla|now apply Hlb].
  - cbn [start end_ lang]. intros (u & v & -> & Hu & Hv).
    apply Hla in Hu. apply Hlb in Hv.
    apply (walk_app epsilon _ _ (end_ a)).
    + apply (walk_mono epsilon ts); [|exact Hu].
      intros tr Hin. apply in_or_app. now left.
    + apply (walk_epsilon_edge epsilon _ _ (start b)).
      * apply in_or_app. right. now left.
      * apply (walk_mono epsilon ts); [|exact Hv].
        intros tr Hin. apply in_or_app. now left.
Qed.

Lemma walk_old (new : list t_transition) (s t : Z) (w : list ascii) :
  walk epsilon ts s w t -> walk epsilon (ts ++ new) s w t.
Proof.
  apply walk_mono. intros tr Hin. apply in_or_app. now left.
Qed.

Lemma walk_new_epsilon (new : list t_transition) (s x t : Z)
    (w : list ascii) :
  In (mk_transition s epsilon x) new ->
  walk epsilon (ts ++ new) x w t -> walk epsilon (ts ++ new) s w t.
Proof.
  intros Hin. apply walk_epsilon_edge. apply in_or_app. now right.
Qed.

Lemma walk_new_last (new : list t_transition) (s x t : Z) (w : list ascii) :
  In (mk_transition x epsilon t) new ->
  walk epsilon (ts ++ new) s w x -> walk epsilon (ts ++ new) s w t.
Proof.
  intros Hin H. rewrite <- (app_nil_r w).
  apply (walk_app epsilon _ _ x); [exact H|].
  apply (walk_new_epsilon new x t t []); [exact Hin|constructor].
Qed.

Lemma union_ok (a b : t_nfa) (ea eb : re) (lo_a lo_b : Z) :
  frag_ok epsilon ts lo_b N b eb ->
  frag_ok epsilon ts lo_a lo_b a ea ->
  frag_ok epsilon
    (ts ++ [mk_transition N epsilon (start a);
            mk_transition N epsilon (start b);
            mk_transition (end_ a) epsilon (N + 1);
            mk_transition (end_ b) epsilon (N + 1)])
    lo_a (N + 2) (mk_t_nfa N (N + 1)) (Alt ea eb).
Proof.
  intros (Hsb & Heb & Hclb & Hlb) (Hsa & Hea & Hcla & Hla).
  set (new := [mk_transition N epsilon (start a);
               mk_transition N epsilon (start b);
               mk_transition (end_ a) epsilon (N + 1);
               mk_transition (end_ b) epsilon (N + 1)]).
  assert (Hstuck : forall tr, In tr (ts ++ new) -> from_state tr <> N + 1).
  { intros tr Hin. apply (old_below tr new (N + 1)); [lia| |exact Hin].
    intros tr' Hin'. new_edge Hin'; lia. }
  split; [cbn; lia|]. split; [cbn; lia|]. split; [|intros w; split].
  - intros tr Hin Hr. apply in_app_or in Hin. destruct Hin as [Hin|Hin].
    + pose proof (edges_in tr Hin).
      destruct (Z_lt_le_dec (from_state tr) lo_b) as [Hlt|Hge].
      * specialize (Hcla tr Hin). lia.
      * specialize (Hclb tr Hin). lia.
    + new_edge Hin; lia.
  - cbn [start end_ lang]. intros H. apply walk_inv in H.
    destruct H as [[H _]|(tr & w' & Hin & Hf & -> & Hsub)]; [lia|].
    apply in_app_or in Hin. destruct Hin as [Hin|Hin];
      [apply edges_in in Hin; lia|].
    new_edge Hin; try lia; unfold label; rewrite Ascii.eqb_refl; cbn [app].
    + left. apply Hla.
      apply (walk_exit new lo_a lo_b (end_ a) (N + 1) Hcla) with (t := N + 1);
        try assumption; try lia; try reflexivity.
      intros tr Hin Hr. new_edge Hin; try lia. auto.
    + right. apply Hlb.
      apply (walk_exit new lo_b N (end_ b) (N + 1) Hclb) with (t := N + 1);
        try assumption; try lia; try reflexivity.
      intros tr Hin Hr. new_edge Hin; try lia. auto.
  - cbn [start end_ lang]. intros [H|H].
    + apply Hla in H.
      apply (walk_new_epsilon new N (start a)); [cbn; auto|].
      apply (walk_new_last new _ (end_ a)); [cbn; auto|].
      now apply walk_old.
    + apply Hlb in H.
      apply (walk_new_epsilon new N (start b)); [cbn; auto|].
      apply (walk_new_last new _ (end_ b)); [cbn; auto 6|].
      now apply walk_old.
Qed.

Lemma star_walk (new : list t_transition) (a : t_nfa) (ea : re) (e : Z)
    (v : list ascii) :
  (forall w, walk epsilon ts (start a) w (end_ a) <-> lang epsilon ea w) ->
  In (mk_transition (end_ a) epsilon (start a)) new ->
  In (mk_transition (end_ a) epsilon e) new ->
  star (lang epsilon ea) v ->
  walk epsilon (ts ++ new) (end_ a) v e.
Proof.
  intros Hla Hback Hout H. induction H as [|u v Hu _ IH].
  - apply (walk_new_epsilon new _ e); [exact Hout|constructor].
  - apply (walk_new_epsilon new _ (start a)); [exact Hback|].
    apply (walk_app epsilon _ _ (end_ a)); [|exact IH].
    apply walk_old. now apply Hla.
Qed.

Lemma positive_ok (a : t_nfa) (ea : re) (lo_a : Z) :
  frag_ok epsilon ts lo_a N a ea ->
  frag_ok epsilon
    (ts ++ [mk_transition N epsilon (start a);
            mk_transition (end_ a) epsilon (start a);
            mk_transition (end_ a) epsilon (N + 1)])
    lo_a (N + 2) (mk_t_nfa N (N + 1)) (Plus ea).
Proof.
  intros (Hsa & Hea & Hcla & Hla).
  set (new := [mk_transition N epsilon (start a);
               mk_transition (end_ a) epsilon (start a);
               mk_transition (end_ a) epsilon (N + 1)]).
  assert (Hstuck : forall tr, In tr (ts ++ new) -> from_state tr <> N + 1).
  { intros tr Hin. apply (old_below tr new (N + 1)); [lia| |exact Hin].
    intros tr' Hin'. new_edge Hin'; lia. }
  split; [cbn; lia|]. split; [cbn; lia|]. split; [|intros w; split].
  - intros tr Hin Hr. apply in_app_or in Hin. destruct Hin as [Hin|Hin].
    + pose proof (edges_in tr Hin). specialize (Hcla tr Hin). lia.
    + new_edge Hin; lia.
  - cbn [start end_ lang]. intros H. apply walk_inv in H.
    destruct H as [[H _]|(tr & w' & Hin & Hf & -> & Hsub)]; [lia|].
    apply in_app_or in Hin. destruct Hin as [Hin|Hin];
      [apply edges_in in Hin; lia|].
    new_edge Hin; try lia; unfold label; rewrite Ascii.eqb_refl; cbn [app].
    destruct (walk_loop new lo_a N (start a) (end_ a) (N + 1) Hcla Hsa)
      with (s := start a) (w := w') (t := N + 1)
      as (u & v & -> & Hu & Hv);
      try assumption; try lia; try reflexivity.
    { intros tr Hin Hr. new_edge Hin; try lia; auto. }
    exists u, v. split; [reflexivity|]. split; [now apply Hla|].
    apply (star_mono _ _ _ (fun x => proj1 (Hla x)) Hv).
  - cbn [start end_ lang]. intros (u & v & -> & Hu & Hv).
    apply (walk_new_epsilon new N (start a)); [cbn; auto|].
    apply (walk_app epsilon _ _ (end_ a)).
    + apply walk_old. now apply Hla.
    + apply (star_walk new a ea (N + 1) v Hla); [cbn; auto|cbn; auto|exact Hv].
Qed.

Lemma kleene_ok (a : t_nfa) (ea : re) (lo_a : Z) :
  frag_ok epsilon ts lo_a N a ea ->
  frag_ok epsilon
    (ts ++ [mk_transition N epsilon (start a);
            mk_transition (end_ a) epsilon (start a);
            mk_transition (end_ a) epsilon (N + 1);
            mk_transition N epsilon (N + 1)])
    lo_a (N + 2) (mk_t_nfa N (N + 1)) (Star ea).
Proof.
  intros (Hsa & Hea & Hcla & Hla).
  set (new := [mk_transition N epsilon (start a);
               mk_transition (end_ a) epsilon (start a);
               mk_transition (end_ a) epsilon (N + 1);
               mk_transition N epsilon (N + 1)]).
  assert (Hstuck : forall tr, In tr (ts ++ new) -> from_state tr <> N + 1).
  { intros tr Hin. apply (old_below tr new (N + 1)); [lia| |exact Hin].
    intros tr' Hin'. new_edge Hin'; lia. }
  split; [cbn; lia|]. split; [cbn; lia|]. split; [|intros w; split].
  - intros tr Hin Hr. apply in_app_or in Hin. destruct Hin as [Hin|Hin].
    + pose proof (edges_in tr Hin). specialize (Hcla tr Hin). lia.
    + new_edge Hin; lia.
  - cbn [start end_ lang]. intros H. apply walk_inv in H.
    destruct H as [[H _]|(tr & w' & Hin & Hf & -> & Hsub)]; [lia|].
    apply in_app_or in Hin. destruct Hin as [Hin|Hin];
      [apply edges_in in Hin; lia|].
    new_edge Hin; try lia; unfold label; rewrite Ascii.eqb_refl; cbn [app].
    + destruct (walk_loop new lo_a N (start a) (end_ a) (N + 1) Hcla Hsa)
        with (s := start a) (w := w') (t := N + 1)
        as (u & v & -> & Hu & Hv);
        try assumption; try lia; try reflexivity.
      { intros tr Hin Hr. new_edge Hin; try lia; auto. }
      constructor; [now apply Hla|].
      apply (star_mono _ _ _ (fun x => proj1 (Hla x)) Hv).
    + apply (walk_stuck _ _ _ _ _ Hstuck) in Hsub. destruct Hsub as [_ ->].
      constructor.
  - cbn [start end_ lang]. intros H. destruct H as [|u v Hu Hv].
    + apply (walk_new_epsilon new N (N + 1)); [cbn; auto 6|constructor].
    + apply (walk_new_epsilon new N (start a)); [cbn; auto|].
      apply (walk_app epsilon _ _ (end_ a)).
      * apply walk_old. now apply Hla.
      * apply (star_walk new a ea (N + 1) v Hla); [cbn; auto|cbn; auto|exact Hv].
Qed.

Lemma optional_ok (a : t_nfa) (ea : re) (lo_a : Z) :
  frag_ok epsilon ts lo_a N a ea ->
  frag_ok epsilon
    (ts ++ [mk_transition N epsilon (start a);
            mk_transition N epsilon (N + 1);
            mk_transition (end_ a) epsilon (N + 1)])
    lo_a (N + 2) (mk_t_nfa N (N + 1)) (Opt ea).
Proof.
  intros (Hsa & Hea & Hcla & Hla).
  set (new := [mk_transition N epsilon (start a);
               mk_transition N epsilon (N + 1);
               mk_transition (end_ a) epsilon (N + 1)]).
  assert (Hstuck : forall tr, In tr (ts ++ new) -> from_state tr <> N + 1).
  { intros tr Hin. apply (old_below tr new (N + 1)); [lia| |exact Hin].
    intros tr' Hin'. new_edge Hin'; lia. }
  split; [cbn; lia|]. split; [cbn; lia|]. split; [|intros w; split].
  - intros tr Hin Hr. apply in_app_or in Hin. destruct Hin as [Hin|Hin].
    + pose proof (edges_in tr Hin). specialize (Hcla tr Hin). lia.
    + new_edge Hin; lia.
  - cbn [start end_ lang]. intros H. apply walk_inv in H.
    destruct H as [[H _]|(tr & w' & Hin & Hf & -> & Hsub)]; [lia|].
    apply in_app_or in Hin. destruct Hin as [Hin|Hin];
      [apply edges_in in Hin; lia|].
    new_edge Hin; try lia; unfold label; rewrite Ascii.eqb_refl; cbn [app].
    + right. apply Hla.
      apply (walk_exit new lo_a N (end_ a) (N + 1) Hcla) with (t := N + 1);
        try assumption; try lia; try reflexivity.
      intros tr Hin Hr. new_edge Hin; try lia. auto.
    + apply (walk_stuck _ _ _ _ _ Hstuck) in Hsub. destruct Hsub as [_ ->].
      now left.
  - cbn [start end_ lang]. intros [->|H].
    + apply (walk_new_epsilon new N (N + 1)); [cbn; auto|constructor].
    + apply Hla in H.
      apply (walk_new_epsilon new N (start a)); [cbn; auto|].
      apply (walk_new_last new _ (end_ a)); [cbn; auto|].
      now apply walk_old.
Qed.

End Fragments.

(* ================================================================= *)
(** ** The loop of regex_to_nfa *)

Section Construction.

Variable EPSILON_SYMBOL : ascii.
Variable MAX_STATES : nat.

Ltac pop_fragment fs es Hst a ea lo Hf :=
  destruct fs as [|a fs]; [discriminate|];
  destruct es as [|ea es]; [cbn in Hst; contradiction|];
  cbn [stack_ok] in Hst; destruct Hst as (lo & Hf & Hst).

Ltac run_build H Hbound :=
  cbn [pop bind] in H; revert H; run_state;
  match goal with
  | |- context [(?x <? MAX_STATES)%nat] =>
      destruct (x <? MAX_STATES)%nat; [|discriminate]
  end;
  cbn [bind]; intros H; injection H as <- <-;
  cbn [next_id] in Hbound.

Lemma thompson_step_ast (m m' : states_manager) (fs fs' : list t_nfa)
    (es : list re) (it : item) :
  thompson_step EPSILON_SYMBOL MAX_STATES (m, fs) it = Ok (m', fs') ->
  next_id m' <= 256 ->
  thompson_inv EPSILON_SYMBOL m fs es ->
  exists es',
    ast_step es it = Some es' /\ thompson_inv EPSILON_SYMBOL m' fs' es'.
Proof.
  intros H Hbound (Hwf & Hst).
  pose proof (thompson_step_wf EPSILON_SYMBOL MAX_STATES _ _ _ _ _ Hwf H)
    as Hwf'.
  pose proof (stack_ok_nonneg _ _ _ _ _ Hst) as HN.
  destruct Hwf as (Hid & Hedges & Hfr).
  unfold thompson_step, push in H. unfold ast_step, thompson_inv.
  destruct (type it) eqn:T.
  - (* KLEENE_STAR *)
    pop_fragment fs es Hst a ea lo_a Hfa. run_build H Hbound.
    eexists. split; [reflexivity|]. split; [exact Hwf'|].
    cbn [transitions next_id stack_ok].
    rewrite !to_uint8_small by lia. rewrite <- !app_assoc. cbn [app].
    exists lo_a. split.
    + replace (next_id m + 1 + 1) with (next_id m + 2) by lia.
      now apply kleene_ok.
    + apply stack_ok_extend; [|exact Hst].
      destruct Hfa as (? & ? & _).
      intros tr Hin. cbn [In] in Hin.
      repeat (destruct Hin as [<-|Hin]); try contradiction; cbn; lia.
  - (* POSITIVE_CLOSURE *)
    pop_fragment fs es Hst a ea lo_a Hfa. run_build H Hbound.
    eexists. split; [reflexivity|]. split; [exact Hwf'|].
    cbn [transitions next_id stack_ok].
    rewrite !to_uint8_small by lia. rewrite <- !app_assoc. cbn [app].
    exists lo_a. split.
    + replace (next_id m + 1 + 1) with (next_id m + 2) by lia.
      now apply positive_ok.
    + apply stack_ok_extend; [|exact Hst].
      destruct Hfa as (? & ? & _).
      intros tr Hin. cbn [In] in Hin.
      repeat (destruct Hin as [<-|Hin]); try contradiction; cbn; lia.
  - (* OPTIONAL *)
    pop_fragment fs es Hst a ea lo_a Hfa. run_build H Hbound.
    eexists. split; [reflexivity|]. split; [exact Hwf'|].
    cbn [transitions next_id stack_ok].
    rewrite !to_uint8_small by lia. rewrite <- !app_assoc. cbn [app].
    exists lo_a. split.
    + replace (next_id m + 1 + 1) with (next_id m + 2) by lia.
      now apply optional_ok.
    + apply stack_ok_extend; [|exact Hst].
      destruct Hfa as (? & ? & _).
      intros tr Hin. cbn [In] in Hin.
      repeat (destruct Hin as [<-|Hin]); try contradiction; cbn; lia.
  - (* CONCATENATION *)
    pop_fragment fs es Hst b eb lo_b Hfb.
    cbn [pop bind] in H.
    pop_fragment fs es Hst a ea lo_a Hfa. run_build H Hbound.
    eexists. split; [reflexivity|]. split; [exact Hwf'|].
    cbn [transitions next_id stack_ok].
    exists lo_a. split.
    + now apply concat_ok with (lo_b := lo_b).
    + apply stack_ok_extend; [|exact Hst].
      destruct Hfa as (? & ? & _).
      intros tr Hin. cbn [In] in Hin.
      repeat (destruct Hin as [<-|Hin]); try contradiction; cbn; lia.
  - (* ALTERNATION *)
    pop_fragment fs es Hst b eb lo_b Hfb.
    cbn [pop bind] in H.
    pop_fragment fs es Hst a ea lo_a Hfa. run_build H Hbound.
    eexists. split; [reflexivity|]. split; [exact Hwf'|].
    cbn [transitions next_id stack_ok].
    rewrite !to_uint8_small by lia. rewrite <- !app_assoc. cbn [app].
    exists lo_a. split.
    + replace (next_id m + 1 + 1) with (next_id m + 2) by lia.
      now apply union_ok with (lo_b := lo_b).
    + apply stack_ok_extend; [|exact Hst].
      destruct Hfa as (? & ? & _). destruct Hfb as (? & ? & _).
      intros tr Hin. cbn [In] in Hin.
      repeat (destruct Hin as [<-|Hin]); try contradiction; cbn; lia.
  - (* OPERAND *)
    run_build H Hbound.
    eexists. split; [reflexivity|]. split; [exact Hwf'|].
    cbn [transitions next_id stack_ok].
    rewrite !to_uint8_small by lia.
    exists (next_id m). split.
    + replace (next_id m + 1 + 1) with (next_id m + 2) by lia.
      now apply symbol_ok.
    + apply stack_ok_extend; [|exact Hst].
      intros tr Hin. cbn [In] in Hin.
      repeat (destruct Hin as [<-|Hin]); try contradiction; cbn; lia.
  - injection H as <- <-. exists es.
    split; [reflexivity|]. split; [exact Hwf'|exact Hst].
  - injection H as <- <-. exists es.
    split; [reflexivity|]. split; [exact Hwf'|exact Hst].
Qed.

Lemma thompson_loop_ast (l : list item) :
  forall (m m' : states_manager) (fs fs' : list t_nfa) (es : list re),
    thompson_loop EPSILON_SYMBOL MAX_STATES l (m, fs) = Ok (m', fs') ->
    next_id m' <= 256 ->
    thompson_inv EPSILON_SYMBOL m fs es ->
    exists es',
      ast_loop l es = Some es' /\ thompson_inv EPSILON_SYMBOL m' fs' es'.
Proof.
  induction l as [|it l IH]; intros m m' fs fs' es H Hbound Hinv.
  - injection H as <- <-. exists es. split; [reflexivity|exact Hinv].
  - cbn [thompson_loop] in H.
    destruct (thompson_step EPSILON_SYMBOL MAX_STATES (m, fs) it)
      as [[m1 fs1]|] eqn:E; [|discriminate].
    cbn [bind] in H.
    assert (Hb1 : next_id m1 <= 256).
    { pose proof (thompson_step_wf EPSILON_SYMBOL MAX_STATES _ _ _ _ _
                    (proj1 Hinv) E) as Hwf1.
      pose proof (thompson_loop_wf EPSILON_SYMBOL MAX_STATES _ _ _ _ _
                    Hwf1 H) as Hwf'.
      pose proof (thompson_loop_allocates EPSILON_SYMBOL MAX_STATES _ _ _ _ _
                    H) as Hlen.
      destruct Hwf1 as [Hid1 _]. destruct Hwf' as [Hid' _].
      unfold states_count in *. lia. }
    destruct (thompson_step_ast _ _ _ _ es _ E Hb1 Hinv) as (es1 & Hs & Hinv1).
    destruct (IH _ _ _ _ es1 H Hbound Hinv1) as (es' & Hl & Hinv').
    exists es'. split; [|exact Hinv']. cbn [ast_loop]. now rewrite Hs.
Qed.

End Construction.

(* ================================================================= *)
(** ** Runs of the automaton and walks of the manager *)

Section Bridge.

Variable epsilon : ascii.
Variable a : nfa.
Variable ts : list t_transition.
Hypothesis table :
  forall (s t : Z) (c : ascii),
    Z.testbit (entry (nfa_transitions a) s (col_of (nfa_alphabet a) c)) t
      = true <->
    In (mk_transition s c t) ts.
Hypothesis registered :
  forall tr, In tr ts -> col_of (nfa_alphabet a) (symbol tr) <> -1.

Lemma path_walk (s t : Z) :
  path (nfa_transitions a) (col_of (nfa_alphabet a) epsilon) s t ->
  walk epsilon ts s [] t.
Proof.
  intros H. induction H as [|u t _ IH Hut]; [constructor|].
  apply table in Hut. apply (walk_app epsilon ts s u t [] [] IH).
  apply (walk_epsilon_edge epsilon ts u t t [] Hut). constructor.
Qed.

Lemma path_first (col s u t : Z) :
  Z.testbit (entry (nfa_transitions a) s col) u = true ->
  path (nfa_transitions a) col u t ->
  path (nfa_transitions a) col s t.
Proof.
  intros Hsu H. induction H as [|x t _ IH Hxt].
  - apply (path_next _ _ _ s u); [constructor|exact Hsu].
  - apply (path_next _ _ _ x t IH Hxt).
Qed.

Lemma run_walk (w : list ascii) (s t : Z) :
  run epsilon a w s t -> ~ In epsilon w -> walk epsilon ts s w t.
Proof.
  intros H. induction H as [s|c w s u v t Hc Hsu Huv _ IH]; intros Hw;
    [constructor|].
  apply table in Hsu.
  pose proof (walk_cons epsilon ts (mk_transition s c u) w t Hsu) as Hstep.
  cbn [from_state to_state symbol] in Hstep. unfold label in Hstep.
  destruct (Ascii.eqb_spec c epsilon) as [->|Hne];
    [exfalso; apply Hw; now left|].
  apply Hstep.
  apply (walk_app epsilon ts u v t [] w (path_walk u v Huv)).
  apply IH. intros Hin. apply Hw. now right.
Qed.

Lemma walk_run (s t : Z) (w : list ascii) :
  walk epsilon ts s w t ->
  ~ In epsilon w ->
  exists s',
    path (nfa_transitions a) (col_of (nfa_alphabet a) epsilon) s s' /\
    run epsilon a w s' t.
Proof.
  intros H. induction H as [s|tr w t Hin _ IH]; intros Hw.
  - exists s. split; constructor.
  - assert (Hw' : ~ In epsilon w).
    { intros Hi. apply Hw. apply in_or_app. now right. }
    destruct (IH Hw') as (s' & Hp & Hr).
    pose proof (registered tr Hin) as Hreg.
    destruct tr as [from c to]. cbn [from_state to_state symbol] in *.
    apply table in Hin. unfold label.
    destruct (Ascii.eqb_spec c epsilon) as [->|Hne]; cbn [app].
    + exists s'. split; [|exact Hr]. apply (path_first _ from to s' Hin Hp).
    + exists from. split; [constructor|].
      apply (run_cons epsilon a c w from to s' t Hreg Hin Hp Hr).
Qed.

Lemma accepts_walk (f : t_nfa) (w : list ascii) :
  start_state a = start f ->
  accept_states a = Z.shiftl 1 (end_ f) ->
  0 <= end_ f ->
  ~ In epsilon w ->
  accepts epsilon a w <-> walk epsilon ts (start f) w (end_ f).
Proof.
  intros Hs Hacc He Hw. unfold accepts. rewrite Hs, Hacc. split.
  - intros (s & t & Hp & Hr & Ht).
    pose proof (testbit_nonneg _ _ Ht) as Ht0.
    rewrite testbit_shl1 in Ht by lia. apply Z.eqb_eq in Ht. subst t.
    apply (walk_app epsilon ts _ s _ [] w (path_walk _ _ Hp)).
    now apply run_walk.
  - intros H. destruct (walk_run _ _ _ H Hw) as (s' & Hp & Hr).
    exists s', (end_ f). split; [exact Hp|]. split; [exact Hr|].
    rewrite testbit_shl1 by lia. apply Z.eqb_refl.
Qed.

End Bridge.

(* ================================================================= *)
(** ** Correctness of the construction *)

Section Correctness.

Variable EPSILON_SYMBOL : ascii.
Variable MAX_STATES : nat.

Lemma regex_to_nfa_language (r : regex) (a : nfa) :
  regex_to_nfa EPSILON_SYMBOL MAX_STATES r = Ok a ->
  exists (e : re) (es : list re),
    ast_loop (regex_items r) [] = Some (e :: es) /\
    forall w : list ascii,
      ~ In EPSILON_SYMBOL w ->
      exists b : bool,
        match_nfa a w = Ok b /\ (b = true <-> lang EPSILON_SYMBOL e w).
Proof.
  intros H.
  destruct (regex_to_nfa_wf EPSILON_SYMBOL MAX_STATES r a H) as [Hwf _].
  destruct (regex_to_nfa_inv EPSILON_SYMBOL MAX_STATES r a H)
    as (m & f & stk & Hl & Ht & Hmwf & Hre).
  destruct (t_nfa_to_nfa_fields EPSILON_SYMBOL f m a Ht)
    as (Hstart & Hstates & Hacc & _ & Hal & _).
  assert (Hbound : next_id m <= 256).
  { destruct Hwf as (Hn & _). destruct Hmwf as (Hid & _). lia. }
  destruct (thompson_loop_ast EPSILON_SYMBOL MAX_STATES _ _ _ _ _ [] Hl Hbound)
    as (es' & Hast & _ & Hst).
  { split; [apply new_states_manager_wf|reflexivity]. }
  destruct es' as [|e es]; [cbn in Hst; contradiction|].
  cbn [stack_ok] in Hst. destruct Hst as (lo & (_ & _ & _ & Hlang) & _).
  exists e, es. split; [exact Hast|]. intros w Hw.
  destruct (match_nfa_run EPSILON_SYMBOL a Hwf
              (regex_to_nfa_closures EPSILON_SYMBOL MAX_STATES r a H) w)
    as (b & Hb & Hspec).
  exists b. split; [exact Hb|]. rewrite Hspec, <- Hlang.
  apply (accepts_walk EPSILON_SYMBOL a (transitions m)); auto.
  - apply (t_nfa_to_nfa_table EPSILON_SYMBOL f m (f :: stk) a Hmwf Hre Ht).
  - intros tr Hin. rewrite Hal.
    destruct (reachable_inv EPSILON_SYMBOL m Hre) as ((_ & _ & Hcol) & _ & _ & Hsym).
    rewrite Hcol. intros Hnone. apply position_none in Hnone.
    apply Hnone. now apply Hsym.
  - destruct Hmwf as (_ & _ & Hfr). destruct (Hfr f) as [_ He]; [now left|].
    lia.
Qed.

(** X14. Thompson's construction is correct: when [regex_to_nfa]
    returns an automaton for a postfix sequence, the sequence evaluates
    to an expression [e], and for every input without the byte
    [EPSILON_SYMBOL], [match_nfa] returns [true] exactly when the input
    is a word of the language of [e] (operand: the one-character word,
    or the empty word for an operand that is [EPSILON_SYMBOL];
    concatenation, alternation, star, plus, optional as usual). *)
Theorem match_nfa_language (r : regex) (a : nfa) :
  regex_to_nfa EPSILON_SYMBOL MAX_STATES r = Ok a ->
  exists (e : re) (es : list re),
    ast_loop (regex_items r) [] = Some (e :: es) /\
    forall w : list ascii,
      ~ In EPSILON_SYMBOL w ->
      exists b : bool,
        match_nfa a w = Ok b /\ (b = true <-> lang EPSILON_SYMBOL e w).
Proof. apply regex_to_nfa_language. Qed.

End Correctness.
(* ================================================================= *)
(** ** Shunting-Yard on infix expressions *)

Lemma shunting_loop_app (l1 l2 : list item) :
  forall st,
    shunting_loop (l1 ++ l2) st =
    match shunting_loop l1 st with
    | None => None
    | Some st' => shunting_loop l2 st'
    end.
Proof.
  induction l1 as [|it l1 IH]; intros st; [reflexivity|].
  cbn [app shunting_loop]. destruct (shunting_step st it); [apply IH|reflexivity].
Qed.

Lemma match_nfa_language_witness :
  regex_to_nfa zero 64 (parse_regex (Some "a"%string)) = Ok literal_a_nfa /\
  exists (e : re) (es : list re),
    ast_loop (regex_items (parse_regex (Some "a"%string))) [] =
      Some (e :: es) /\
    forall w : list ascii,
      ~ In zero w ->
      exists b : bool,
        match_nfa literal_a_nfa w = Ok b /\ (b = true <-> lang zero e w).
Proof.
  assert (H : regex_to_nfa zero 64 (parse_regex (Some "a"%string)) =
              Ok literal_a_nfa)
    by (vm_compute; reflexivity).
  split; [exact H|].
  apply (match_nfa_language zero 64 _ _ H).
Defined.

Lemma ast_loop_app (l1 l2 : list item) :
  forall es,
    ast_loop (l1 ++ l2) es =
    match ast_loop l1 es with
    | None => None
    | Some es' => ast_loop l2 es'
    end.
Proof.
  induction l1 as [|it l1 IH]; intros es; [reflexivity|].
  cbn [app ast_loop]. destruct (ast_step es it); [apply IH|reflexivity].
Qed.

Lemma precedence_not_lparen (it : item) :
  0 < get_precedence (type it) -> is_lparen it = false.
Proof. unfold is_lparen. destruct (type it); cbn; try reflexivity; lia. Qed.

Lemma pop_operators_flush (cur : item_type) (pend : list item) :
  forall stack out,
    Forall (fun it => get_precedence cur <= get_precedence (type it)) pend ->
    0 < get_precedence cur ->
    stops (get_precedence cur) stack ->
    pop_operators cur (pend ++ stack) out = (stack, out ++ pend).
Proof.
  induction pend as [|it pend IH]; intros stack out Hp Hcur Hstop.
  - cbn [app]. rewrite app_nil_r. destruct stack as [|top rest]; [reflexivity|].
    cbn [pop_operators]. destruct Hstop as [Hl|Hlt].
    + rewrite Hl. reflexivity.
    + replace (get_precedence cur <=? get_precedence (type top)) with false
        by (symmetry; apply Z.leb_gt; exact Hlt).
      now rewrite andb_false_r.
  - inversion Hp as [|x y Hit Hrest]; subst. cbn [app pop_operators].
    rewrite (precedence_not_lparen it) by lia.
    replace (get_precedence cur <=? get_precedence (type it)) with true
      by (symmetry; apply Z.leb_le; exact Hit).
    cbn [negb andb]. rewrite (IH stack (out ++ [it]) Hrest Hcur Hstop).
    now rewrite <- app_assoc.
Qed.

Lemma pop_to_lparen_flush (pend : list item) (lp : item) :
  forall stack out,
    Forall (fun it => 0 < get_precedence (type it)) pend ->
    is_lparen lp = true ->
    pop_to_lparen (pend ++ lp :: stack) out = (lp :: stack, out ++ pend).
Proof.
  induction pend as [|it pend IH]; intros stack out Hp Hlp.
  - cbn. rewrite Hlp, app_nil_r. reflexivity.
  - inversion Hp as [|x y Hit Hrest]; subst. cbn [app pop_to_lparen].
    rewrite (precedence_not_lparen it Hit). cbn [negb].
    rewrite (IH stack (out ++ [it]) Hrest Hlp). now rewrite <- app_assoc.
Qed.

Lemma drain_stack_flush (pend : list item) :
  forall out,
    Forall (fun it => 0 < get_precedence (type it)) pend ->
    drain_stack pend out = Some (out ++ pend).
Proof.
  induction pend as [|it pend IH]; intros out Hp.
  - cbn. now rewrite app_nil_r.
  - inversion Hp as [|x y Hit Hrest]; subst. cbn [drain_stack].
    rewrite (precedence_not_lparen it Hit).
    rewrite (IH (out ++ [it]) Hrest). now rewrite <- app_assoc.
Qed.

Lemma stops_weaken (p q : Z) (stack : list item) :
  p <= q -> stops p stack -> stops q stack.
Proof.
  intros Hpq. destruct stack as [|top rest]; [auto|].
  cbn. intros [H|H]; [now left|right; lia].
Qed.

Lemma Forall_precedence_weaken (p q : Z) (pend : list item) :
  q <= p ->
  Forall (fun it => p <= get_precedence (type it)) pend ->
  Forall (fun it => q <= get_precedence (type it)) pend.
Proof.
  intros Hpq. apply Forall_impl. intros it H. lia.
Qed.

(** Reading an operator [op] after an expression of its own level. *)
Lemma shunting_step_operator (op : item) (pend stack out : list item) :
  0 < get_precedence (type op) ->
  Forall (fun it => get_precedence (type op) <= get_precedence (type it))
         pend ->
  stops (get_precedence (type op)) stack ->
  shunting_step (pend ++ stack, out) op = Some (op :: stack, out ++ pend).
Proof.
  intros Hop Hp Hstop. unfold shunting_step.
  pose proof (pop_operators_flush (type op) pend stack out Hp Hop Hstop) as E.
  destruct (type op) eqn:T; cbn in Hop; try lia; now rewrite E.
Qed.

(** [shunting_yard] on an expression of level [k], from a stack that
    lets level [k] through: the operators that it leaves on the stack
    have precedence [k] or more, and the output with these operators
    after it is a postfix sequence of the expression. *)
Lemma shunting_loop_parses (k : Z) (l : list item) (e : re) :
  parses k l e ->
  forall stack out,
    stops k stack ->
    exists pend po,
      shunting_loop l (stack, out) = Some (pend ++ stack, out ++ po) /\
      Forall (fun it => k <= get_precedence (type it)) pend /\
      forall es, ast_loop (po ++ pend) es = Some (e :: es).
Proof.
  intros H.
  induction H as [it T|lp rp l e Tl Tr _ IH|l e op _ IH T|l e op _ IH T
                  |l e op _ IH T|l1 l2 e1 e2 op _ IH1 T _ IH2
                  |l1 l2 e1 e2 op _ IH1 T _ IH2|l e _ IH|l e _ IH];
    intros stack out Hstop.
  - exists [], [it]. cbn [shunting_loop shunting_step app]. rewrite T.
    split; [reflexivity|]. split; [constructor|].
    intros es. cbn. unfold ast_step. now rewrite T.
  - destruct (IH (lp :: stack) (out)) as (pend & po & Hl & Hp & Hast).
    { cbn. left. unfold is_lparen. now rewrite Tl. }
    exists [], (po ++ pend). cbn [shunting_loop app].
    unfold shunting_step at 1. rewrite Tl.
    rewrite shunting_loop_app, Hl. cbn [shunting_loop].
    unfold shunting_step. rewrite Tr.
    rewrite (pop_to_lparen_flush pend lp stack (out ++ po)).
    + split; [now rewrite app_assoc|]. split; [constructor|].
      intros es. rewrite app_nil_r. apply Hast.
    + apply (Forall_impl _ (fun it (H : 1 <= get_precedence (type it)) =>
                              ltac:(lia) : 0 < get_precedence (type it)) Hp).
    + unfold is_lparen. now rewrite Tl.
  - destruct (IH stack out Hstop) as (pend & po & Hl & Hp & Hast).
    exists [op], (po ++ pend). rewrite shunting_loop_app, Hl.
    cbn [shunting_loop].
    rewrite shunting_step_operator; rewrite ?T; cbn; try lia; try assumption.
    split; [now rewrite app_assoc|]. split.
    + constructor; [rewrite T; cbn; lia|constructor].
    + intros es. rewrite ast_loop_app, Hast. cbn. unfold ast_step.
      now rewrite T.
  - destruct (IH stack out Hstop) as (pend & po & Hl & Hp & Hast).
    exists [op], (po ++ pend). rewrite shunting_loop_app, Hl.
    cbn [shunting_loop].
    rewrite shunting_step_operator; rewrite ?T; cbn; try lia; try assumption.
    split; [now rewrite app_assoc|]. split.
    + constructor; [rewrite T; cbn; lia|constructor].
    + intros es. rewrite ast_loop_app, Hast. cbn. unfold ast_step.
      now rewrite T.
  - destruct (IH stack out Hstop) as (pend & po & Hl & Hp & Hast).
    exists [op], (po ++ pend). rewrite shunting_loop_app, Hl.
    cbn [shunting_loop].
    rewrite shunting_step_operator; rewrite ?T; cbn; try lia; try assumption.
    split; [now rewrite app_assoc|]. split.
    + constructor; [rewrite T; cbn; lia|constructor].
    + intros es. rewrite ast_loop_app, Hast. cbn. unfold ast_step.
      now rewrite T.
  - destruct (IH1 stack out Hstop) as (pend1 & po1 & Hl1 & Hp1 & Hast1).
    destruct (IH2 (op :: stack) (out ++ po1 ++ pend1))
      as (pend2 & po2 & Hl2 & Hp2 & Hast2).
    { cbn. right. rewrite T. cbn. lia. }
    exists (pend2 ++ [op]), (po1 ++ pend1 ++ po2).
    rewrite shunting_loop_app, Hl1. cbn [shunting_loop].
    rewrite shunting_step_operator; rewrite ?T; cbn; try lia; try assumption.
    rewrite <- app_assoc, Hl2. split.
    + f_equal. f_equal; rewrite <- !app_assoc; reflexivity.
    + split.
      * apply Forall_app. split.
        -- apply (Forall_precedence_weaken 3); [lia|exact Hp2].
        -- constructor; [rewrite T; cbn; lia|constructor].
      * intros es.
        replace ((po1 ++ pend1 ++ po2) ++ pend2 ++ [op])
          with ((po1 ++ pend1) ++ (po2 ++ pend2) ++ [op])
          by (rewrite <- !app_assoc; reflexivity).
        rewrite ast_loop_app, Hast1, ast_loop_app, Hast2. cbn.
        unfold ast_step. now rewrite T.
  - destruct (IH1 stack out Hstop) as (pend1 & po1 & Hl1 & Hp1 & Hast1).
    destruct (IH2 (op :: stack) (out ++ po1 ++ pend1))
      as (pend2 & po2 & Hl2 & Hp2 & Hast2).
    { cbn. right. rewrite T. cbn. lia. }
    exists (pend2 ++ [op]), (po1 ++ pend1 ++ po2).
    rewrite shunting_loop_app, Hl1. cbn [shunting_loop].
    rewrite shunting_step_operator; rewrite ?T; cbn; try lia; try assumption.
    rewrite <- app_assoc, Hl2. split.
    + f_equal. f_equal; rewrite <- !app_assoc; reflexivity.
    + split.
      * apply Forall_app. split.
        -- apply (Forall_precedence_weaken 2); [lia|exact Hp2].
        -- constructor; [rewrite T; cbn; lia|constructor].
      * intros es.
        replace ((po1 ++ pend1 ++ po2) ++ pend2 ++ [op])
          with ((po1 ++ pend1) ++ (po2 ++ pend2) ++ [op])
          by (rewrite <- !app_assoc; reflexivity).
        rewrite ast_loop_app, Hast1, ast_loop_app, Hast2. cbn.
        unfold ast_step. now rewrite T.
  - destruct (IH stack out (stops_weaken 2 3 stack ltac:(lia) Hstop))
      as (pend & po & Hl & Hp & Hast).
    exists pend, po. split; [exact Hl|]. split; [|exact Hast].
    apply (Forall_precedence_weaken 3); [lia|exact Hp].
  - destruct (IH stack out (stops_weaken 1 2 stack ltac:(lia) Hstop))
      as (pend & po & Hl & Hp & Hast).
    exists pend, po. split; [exact Hl|]. split; [|exact Hast].
    apply (Forall_precedence_weaken 2); [lia|exact Hp].
Qed.

Lemma parses_nonempty (k : Z) (l : list item) (e : re) :
  parses k l e -> l <> [].
Proof.
  intros H. induction H; try discriminate; try assumption;
    try (intros E; apply app_eq_nil in E; destruct E; discriminate).
Qed.

Lemma shunting_yard_parsed (l : list item) (e : re) :
  parses 1 l e ->
  exists post,
    shunting_yard (Some l) = Some post /\ ast_loop post [] = Some [e].
Proof.
  intros H. pose proof (parses_nonempty _ _ _ H) as Hne.
  destruct (shunting_loop_parses 1 l e H [] [] I)
    as (pend & po & Hl & Hp & Hast).
  exists (po ++ pend). split; [|apply Hast].
  unfold shunting_yard.
  destruct l as [|x l]; [contradiction|].
  replace (Z.of_nat (List.length (x :: l)) <=? 0) with false
    by (symmetry; apply Z.leb_gt; cbn [List.length]; lia).
  rewrite Hl, app_nil_r. cbn [app].
  apply drain_stack_flush.
  apply (Forall_impl _ (fun it (H : 1 <= get_precedence (type it)) =>
                          ltac:(lia) : 0 < get_precedence (type it)) Hp).
Qed.

(** X7. On an infix item sequence that reads as the expression [e]
    (postfix operators bind tighter than concatenation, concatenation
    tighter than alternation, binary operators group to the left,
    parentheses group), [shunting_yard] succeeds, and its postfix
    sequence evaluates on a stack to exactly the expression [e]. *)
Theorem shunting_yard_postfix_of_expression (l : list item) (e : re) :
  parses 1 l e ->
  exists post,
    shunting_yard (Some l) = Some post /\ ast_loop post [] = Some [e].
Proof. apply shunting_yard_parsed. Qed.

Lemma ast_loop_heights (l : list item) :
  forall es es',
    ast_loop l es = Some es' ->
    heights l (List.length es) = Some (List.length es').
Proof.
  induction l as [|it l IH]; intros es es' H.
  - cbn in H. injection H as <-. reflexivity.
  - cbn [ast_loop] in H. destruct (ast_step es it) as [es1|] eqn:E;
      [|discriminate].
    apply IH in H. cbn [heights].
    assert (Hs : height_step (List.length es) (type it) =
                 Some (List.length es1)).
    { unfold ast_step in E. unfold height_step.
      destruct (type it);
        repeat match type of E with
               | context [match ?x with _ => _ end] => destruct x
               end;
        try discriminate; injection E as <-; reflexivity. }
    now rewrite Hs.
Qed.

Lemma shunting_yard_postfix_of_expression_witness :
  parses 1
    [new_item "a" OPERAND; new_item "|" ALTERNATION; new_item "b" OPERAND;
     new_item "*" KLEENE_STAR]
    (Alt (Lit "a") (Star (Lit "b"))) /\
  exists post,
    shunting_yard
      (Some [new_item "a" OPERAND; new_item "|" ALTERNATION;
             new_item "b" OPERAND; new_item "*" KLEENE_STAR]) = Some post /\
    ast_loop post [] = Some [Alt (Lit "a") (Star (Lit "b"))].
Proof.
  assert (H : parses 1
                [new_item "a" OPERAND; new_item "|" ALTERNATION;
                 new_item "b" OPERAND; new_item "*" KLEENE_STAR]
                (Alt (Lit "a") (Star (Lit "b")))).
  { apply (parses_alternation [new_item "a" OPERAND]
             [new_item "b" OPERAND; new_item "*" KLEENE_STAR]
             (Lit "a") (Star (Lit "b")) (new_item "|" ALTERNATION)).
    - apply parses_level2, parses_level3.
      apply (parses_operand (new_item "a" OPERAND)). reflexivity.
    - reflexivity.
    - apply parses_level3.
      apply (parses_star [new_item "b" OPERAND] (Lit "b")
               (new_item "*" KLEENE_STAR)); [|reflexivity].
      apply (parses_operand (new_item "b" OPERAND)). reflexivity. }
  split; [exact H|].
  apply (shunting_yard_postfix_of_expression _ _ H).
Defined.

(* ================================================================= *)
(** ** From the pattern to the language *)

Section EndToEnd.

Variable EPSILON_SYMBOL : ascii.
Variable MAX_STATES : nat.


(** X16. A pattern of at most 32 characters (and at most [MAX_STATES])
    whose items, with the explicit concatenations, read as an infix
    expression compiles: [parse_regex] and [regex_to_nfa] return an
    automaton, with no stack underflow, no stack overflow and no shift
    out of range. *)
Theorem parsed_pattern_compiles (pattern : string) (toks infix : list item)
    (e : re) :
  itemize_regex (Some pattern) = Some toks ->
  implicit_to_explicit_concatenation (Some toks) = Some infix ->
  parses 1 infix e ->
  (String.length pattern <= MAX_STATES)%nat ->
  (String.length pattern <= 32)%nat ->
  exists a, compile EPSILON_SYMBOL MAX_STATES pattern = Ok a.
Proof.
  intros Htoks Hinfix Hparse Hmax Hlen.
  destruct (shunting_yard_parsed infix e Hparse) as (post & Hp & Hast).
  rewrite itemize_regex_tokens in Htoks. injection Htoks as <-.
  rewrite implicit_to_explicit_concatenation_expand in Hinfix.
  unfold compile. rewrite parse_regex_stages.
  destruct (Spec.tokens (list_ascii_of_string pattern)) as [|x toks] eqn:Et;
    [discriminate|].
  assert (Hinf : infix = Spec.expand (x :: toks)) by congruence.
  clear Hinfix. subst infix. rewrite Hp.
  assert (Hcount : forall p,
            (forall it, type it = L_PARENTHESIS -> p it = false) ->
            (forall it, type it = R_PARENTHESIS -> p it = false) ->
            p (new_item CONCAT_SYMBOL CONCATENATION) = false ->
            (count p post <= String.length pattern)%nat).
  { intros p Hl Hr Hc. unfold shunting_yard in Hp.
    destruct (Z.of_nat (List.length (Spec.expand (x :: toks))) <=? 0);
      [discriminate|].
    rewrite (shunting_from_count p Hl Hr _ [] [] post Hp).
    rewrite (count_expand p Hc). change (count p []) with 0%nat.
    pose proof (count_le_length p (x :: toks)) as H1.
    pose proof (tokens_length (list_ascii_of_string pattern)) as H2.
    rewrite Et, length_list_ascii_of_string in H2. lia. }
  pose proof (Hcount is_operand) as Hops.
  pose proof (Hcount allocates) as Hall.
  apply ast_loop_heights in Hast. cbn [List.length] in Hast.
  destruct (thompson_loop_heights EPSILON_SYMBOL MAX_STATES post
              (new_states_manager EPSILON_SYMBOL) [] 1%nat)
    as (m & stk & Hloop & Hlen1).
  - cbn [List.length]. unfold operands.
    specialize (Hops ltac:(intros it T; unfold is_operand; now rewrite T)
                     ltac:(intros it T; unfold is_operand; now rewrite T)
                     eq_refl). lia.
  - exact Hast.
  - destruct stk as [|f [|g stk]]; try discriminate.
    apply (regex_to_nfa_ok EPSILON_SYMBOL MAX_STATES _ m f []).
    + rewrite regex_items_parsed. exact Hloop.
    + apply thompson_loop_allocates in Hloop.
      cbn [states new_states_manager List.length] in Hloop.
      unfold states_count. rewrite Hloop.
      specialize (Hall ltac:(intros it T; unfold allocates; now rewrite T)
                       ltac:(intros it T; unfold allocates; now rewrite T)
                       eq_refl). lia.
Qed.

End EndToEnd.

Lemma parsed_pattern_compiles_witness :
  itemize_regex (Some "a"%string) = Some [new_item "a" OPERAND] /\
  implicit_to_explicit_concatenation (Some [new_item "a" OPERAND]) =
    Some [new_item "a" OPERAND] /\
  parses 1 [new_item "a" OPERAND] (Lit "a") /\
  (String.length "a" <= 64)%nat /\
  (String.length "a" <= 32)%nat /\
  exists a, compile zero 64 "a" = Ok a.
Proof.
  assert (Hp : parses 1 [new_item "a" OPERAND] (Lit "a")).
  { apply parses_level2, parses_level3.
    apply (parses_operand (new_item "a" OPERAND)). reflexivity. }
  assert (H1 : (String.length "a" <= 64)%nat) by (cbn; lia).
  assert (H2 : (String.length "a" <= 32)%nat) by (cbn; lia).
  split; [reflexivity|]. split; [reflexivity|]. split; [exact Hp|].
  split; [exact H1|]. split; [exact H2|].
  apply (parsed_pattern_compiles zero 64 "a" _ _ (Lit "a")
           eq_refl eq_refl Hp H1 H2).
Defined.

(* ================================================================= *)
(** ** main.c: test_strings_stdin *)

Lemma fgets_chars_line (l rest : list ascii) :
  ~ In LF l ->
  forall n, (List.length l < n)%nat ->
    fgets_chars n (l ++ LF :: rest) = (l ++ [LF], rest).
Proof.
  induction l as [|c l IH]; intros Hl n Hn.
  - destruct n as [|n]; [cbn in Hn; lia|]. reflexivity.
  - destruct n as [|n]; [cbn in Hn; lia|]. cbn [app fgets_chars].
    destruct (Ascii.eqb_spec c LF) as [->|Hne]; [exfalso; apply Hl; now left|].
    rewrite IH; [reflexivity| |cbn in Hn; lia].
    intros Hin. apply Hl. now right.
Qed.

Lemma fgets_chars_consumes (n : nat) :
  forall stream, (0 < n)%nat -> stream <> [] ->
    (List.length (snd (fgets_chars n stream)) < List.length stream)%nat.
Proof.
  induction n as [|n IH]; intros stream Hn Hs; [lia|].
  destruct stream as [|c rest]; [contradiction|]. cbn [fgets_chars].
  destruct (Ascii.eqb c LF); [cbn; lia|].
  destruct (fgets_chars n rest) as [l r] eqn:E. cbn [snd List.length].
  destruct n as [|n]; [cbn in E; injection E as <- <-; lia|].
  destruct rest as [|d rest']; [cbn in E; injection E as <- <-; cbn; lia|].
  specialize (IH (d :: rest') ltac:(lia) ltac:(discriminate)).
  rewrite E in IH. cbn [snd] in IH. lia.
Qed.

Lemma strcspn_plain (l rest : list ascii) :
  plain l -> strcspn (l ++ LF :: rest) [CR; LF] = List.length l.
Proof.
  intros (Hz & Hcr & Hlf). induction l as [|c l IH].
  - cbn. reflexivity.
  - cbn [app strcspn List.length existsb].
    destruct (Ascii.eqb_spec c zero) as [->|_]; [exfalso; apply Hz; now left|].
    destruct (Ascii.eqb_spec c CR) as [->|_]; [exfalso; apply Hcr; now left|].
    destruct (Ascii.eqb_spec c LF) as [->|_]; [exfalso; apply Hlf; now left|].
    cbn [orb]. f_equal. apply IH; intros Hin;
      [apply Hz|apply Hcr|apply Hlf]; now right.
Qed.

Lemma strlen_plain (l : list ascii) : ~ In zero l -> strlen l = List.length l.
Proof.
  intros Hz. induction l as [|c l IH]; [reflexivity|].
  cbn [strlen List.length].
  destruct (Ascii.eqb_spec c zero) as [->|_]; [exfalso; apply Hz; now left|].
  f_equal. apply IH. intros Hin. apply Hz. now right.
Qed.

Lemma tested_plain (l : list ascii) :
  plain l -> tested (l ++ [LF]) = l.
Proof.
  intros Hp. unfold tested. rewrite (strcspn_plain l [] Hp).
  rewrite firstn_app, Nat.sub_diag, firstn_all. cbn [firstn].
  rewrite app_nil_r. rewrite (strlen_plain l (proj1 Hp)). apply firstn_all.
Qed.

Lemma test_loop_lines (a : nfa) (lines : list (list ascii)) :
  nfa_wf a ->
  Forall (fun l => plain l /\ (List.length l < 1023)%nat) lines ->
  forall fuel,
    (List.length (List.concat (map (fun l => l ++ [LF]) lines)) < fuel)%nat ->
    exists verdicts,
      Forall2 (fun l b => match_nfa a l = Ok b) lines verdicts /\
      test_loop fuel a (List.concat (map (fun l => l ++ [LF]) lines)) =
        Ok (map digit verdicts).
Proof.
  intros Hwf Hlines. induction Hlines as [|l lines [Hp Hlen] _ IH];
    intros fuel Hfuel.
  - exists []. split; [constructor|]. destruct fuel; [cbn in Hfuel; lia|].
    reflexivity.
  - destruct fuel as [|fuel]; [lia|].
    cbn [map List.concat] in *. rewrite <- app_assoc in *. cbn [app] in *.
    rewrite length_app in Hfuel. cbn [List.length] in Hfuel.
    destruct (IH fuel ltac:(lia)) as (bs & Hbs & Hout).
    destruct (match_nfa_total a l Hwf) as [b Hb].
    exists (b :: bs). split; [now constructor|].
    cbn [test_loop]. unfold fgets.
    destruct (l ++ LF :: List.concat (map (fun l0 => l0 ++ [LF]) lines))
      as [|c0 s0] eqn:Hs; [destruct l; discriminate|].
    rewrite <- Hs.
    rewrite (fgets_chars_line l _ (proj2 (proj2 Hp))) by (cbn; lia).
    rewrite (tested_plain l Hp), Hb. cbn [bind]. rewrite Hout. reflexivity.
Qed.

Lemma test_loop_total (a : nfa) :
  nfa_wf a ->
  forall fuel stream,
    (List.length stream < fuel)%nat ->
    exists verdicts : list bool,
      test_loop fuel a stream = Ok (map digit verdicts) /\
      (List.length verdicts <= List.length stream)%nat.
Proof.
  intros Hwf. induction fuel as [|fuel IH]; intros stream Hfuel; [lia|].
  cbn [test_loop]. unfold fgets.
  destruct stream as [|c rest]; [exists []; split; [reflexivity|cbn; lia]|].
  pose proof (fgets_chars_consumes (1024 - 1) (c :: rest) ltac:(cbn; lia)
                ltac:(discriminate)) as Hless.
  destruct (fgets_chars (1024 - 1) (c :: rest)) as [buf rest'].
  cbn [snd] in Hless.
  destruct (match_nfa_total a (tested buf) Hwf) as [b Hb]. rewrite Hb.
  cbn [bind].
  destruct (IH rest' ltac:(lia)) as (bs & Hout & Hlen). rewrite Hout.
  exists (b :: bs). split; [reflexivity|]. cbn [List.length] in *. lia.
Qed.

Section MainTheorems.

Variable EPSILON_SYMBOL : ascii.
Variable MAX_STATES : nat.

(** X17. For a pattern that compiles and a standard input made of lines
    of fewer than 1023 characters, each ended by a newline and free of
    zero characters and carriage returns, [test_strings_stdin] prints
    one digit per line, 1 when [match_nfa] accepts the line without its
    newline and 0 when it does not, and then a newline. *)
Theorem test_strings_stdin_lines (regex_str : string) (a : nfa)
    (lines : list (list ascii)) :
  compile EPSILON_SYMBOL MAX_STATES regex_str = Ok a ->
  Forall (fun l => plain l /\ (List.length l < 1023)%nat) lines ->
  exists verdicts,
    Forall2 (fun l b => match_nfa a l = Ok b) lines verdicts /\
    test_strings_stdin EPSILON_SYMBOL MAX_STATES regex_str
      (List.concat (map (fun l => l ++ [LF]) lines)) =
      Ok (map digit verdicts ++ [LF]).
Proof.
  intros H Hlines. unfold test_strings_stdin. unfold compile in H.
  rewrite H. cbn [bind].
  destruct (regex_to_nfa_wf EPSILON_SYMBOL MAX_STATES _ a H) as [Hwf _].
  destruct (test_loop_lines a lines Hwf Hlines
              (S (List.length (List.concat (map (fun l => l ++ [LF]) lines))))
              ltac:(lia)) as (bs & Hbs & Hout).
  exists bs. split; [exact Hbs|]. rewrite Hout. reflexivity.
Qed.

(** X18. For a pattern that compiles, [test_strings_stdin] ends without
    a fault on every standard input, whatever its bytes and the length
    of its lines: it prints digits 0 and 1, at most one per byte read,
    and then a newline. *)
Theorem test_strings_stdin_total (regex_str : string) (a : nfa)
    (stream : list ascii) :
  compile EPSILON_SYMBOL MAX_STATES regex_str = Ok a ->
  exists verdicts : list bool,
    test_strings_stdin EPSILON_SYMBOL MAX_STATES regex_str stream =
      Ok (map digit verdicts ++ [LF]) /\
    (List.length verdicts <= List.length stream)%nat.
Proof.
  intros H. unfold test_strings_stdin. unfold compile in H.
  rewrite H. cbn [bind].
  destruct (regex_to_nfa_wf EPSILON_SYMBOL MAX_STATES _ a H) as [Hwf _].
  destruct (test_loop_total a Hwf (S (List.length stream)) stream ltac:(lia))
    as (bs & Hout & Hlen).
  exists bs. rewrite Hout. split; [reflexivity|exact Hlen].
Qed.

(** X19. [test_strings_stdin] does not check the result of
    [parse_regex]: for a pattern that [parse_regex] rejects (the regex
    with no items), [regex_to_nfa] reads its fragment stack below index
    0, whatever the standard input holds. *)
Theorem test_strings_stdin_rejected_pattern (regex_str : string)
    (stream : list ascii) :
  parse_regex (Some regex_str) = mk_regex None 0 ->
  test_strings_stdin EPSILON_SYMBOL MAX_STATES regex_str stream =
  Fault StackUnderflow.
Proof.
  intros H. unfold test_strings_stdin. rewrite H. reflexivity.
Qed.

End MainTheorems.

Lemma test_strings_stdin_rejected_pattern_witness :
  parse_regex (Some "(a"%string) = mk_regex None 0 /\
  test_strings_stdin zero 64 "(a" ["a"%char; LF] = Fault StackUnderflow.
Proof.
  assert (H : parse_regex (Some "(a"%string) = mk_regex None 0)
    by reflexivity.
  split; [exact H|].
  apply (test_strings_stdin_rejected_pattern zero 64 "(a" _ H).
Defined.

Lemma test_strings_stdin_total_witness :
  compile zero 64 "a" = Ok literal_a_nfa /\
  exists verdicts : list bool,
    test_strings_stdin zero 64 "a" ["a"%char; CR; "b"%char] =
      Ok (map digit verdicts ++ [LF]) /\
    (List.length verdicts <= List.length ["a"%char; CR; "b"%char])%nat.
Proof.
  assert (H : compile zero 64 "a" = Ok literal_a_nfa)
    by (vm_compute; reflexivity).
  split; [exact H|].
  apply (test_strings_stdin_total zero 64 "a" literal_a_nfa _ H).
Defined.

Lemma test_strings_stdin_lines_witness :
  compile zero 64 "a" = Ok literal_a_nfa /\
  Forall (fun l => plain l /\ (List.length l < 1023)%nat)
         [["a"%char]; ["b"%char]] /\
  exists verdicts,
    Forall2 (fun l b => match_nfa literal_a_nfa l = Ok b)
            [["a"%char]; ["b"%char]] verdicts /\
    test_strings_stdin zero 64 "a"
      (List.concat (map (fun l => l ++ [LF]) [["a"%char]; ["b"%char]])) =
      Ok (map digit verdicts ++ [LF]).
Proof.
  assert (H : compile zero 64 "a" = Ok literal_a_nfa)
    by (vm_compute; reflexivity).
  assert (Hl : Forall (fun l => plain l /\ (List.length l < 1023)%nat)
                      [["a"%char]; ["b"%char]]).
  { repeat constructor; try (cbn; lia); intros [E|[]]; discriminate E. }
  split; [exact H|]. split; [exact Hl|].
  apply (test_strings_stdin_lines zero 64 "a" literal_a_nfa _ H Hl).
Defined.
(* ================================================================= *)
(** ** main.c: print_postfix and main *)

Lemma get_item_type_canonical (c : ascii) :
  canonical (new_item c (get_item_type c)).
Proof.
  unfold canonical, get_item_type. cbn [type value new_item].
  repeat match goal with
         | |- context [Ascii.eqb c ?s] =>
             destruct (Ascii.eqb_spec c s) as [->|_]; [now right|]
         end.
  now left.
Qed.

Lemma tokens_canonical_aux (s : list ascii) :
  Forall canonical (Spec.tokens s) /\
  forall c, Forall canonical (Spec.tokens (c :: s)).
Proof.
  induction s as [|d rest [IH1 IH2]].
  - split; [constructor|]. intros c. cbn.
    destruct (Ascii.eqb c ESCAPE_SYMBOL); (constructor; [|constructor]);
      [now left|apply get_item_type_canonical].
  - split; [apply IH2|]. intros c. rewrite tokens_cons.
    destruct (Ascii.eqb c ESCAPE_SYMBOL); constructor;
      [now left|exact IH1|apply get_item_type_canonical|apply IH2].
Qed.

Lemma expand_canonical (l : list item) :
  Forall canonical l -> Forall canonical (Spec.expand l).
Proof.
  induction l as [|x rest IH]; intros H; [constructor|].
  inversion H as [|? ? Hx Hrest]; subst.
  destruct rest as [|y rest]; [now constructor|].
  rewrite expand_cons.
  destruct (Spec.can_terminate (type x) && Spec.can_begin (type y));
    constructor; auto.
  constructor; auto. now right.
Qed.

Lemma postfixes_cons (e : re) (es : list re) :
  postfixes (e :: es) = postfixes es ++ postfix e.
Proof.
  unfold postfixes. cbn [rev]. rewrite map_app, concat_app. cbn.
  now rewrite app_nil_r.
Qed.

Lemma ast_step_postfix (es es' : list re) (it : item) :
  ast_step es it = Some es' ->
  canonical it -> not_paren it = true ->
  postfixes es' = postfixes es ++ [value it].
Proof.
  unfold ast_step, canonical, not_paren, is_paren. intros H Hc Hp.
  destruct (type it) eqn:T; try discriminate Hp;
    cbn [symbol_of] in Hc;
    (destruct Hc as [Hc|Hc]; [try discriminate Hc|]);
    repeat match type of H with
           | context [match ?x with _ => _ end] => destruct x
           end;
    try discriminate H; injection H as <-;
    rewrite ?postfixes_cons, ?Hc; cbn [postfix];
    rewrite <- ?app_assoc; reflexivity.
Qed.

Lemma ast_loop_postfix (l : list item) :
  forall es es',
    ast_loop l es = Some es' ->
    Forall canonical l -> Forall (fun it => not_paren it = true) l ->
    postfixes es' = postfixes es ++ map value l.
Proof.
  induction l as [|it l IH]; intros es es' H Hc Hp.
  - cbn in H. injection H as <-. cbn. now rewrite app_nil_r.
  - cbn [ast_loop] in H. destruct (ast_step es it) as [es1|] eqn:E;
      [|discriminate].
    inversion Hc; subst. inversion Hp; subst.
    rewrite (IH _ _ H), (ast_step_postfix _ _ _ E) by assumption.
    cbn [map]. now rewrite <- app_assoc.
Qed.

Lemma shunting_yard_not_paren (l post : list item) :
  shunting_yard (Some l) = Some post ->
  Forall (fun it => not_paren it = true) post.
Proof.
  unfold shunting_yard.
  destruct (Z.of_nat (List.length l) <=? 0); [discriminate|].
  intros H. apply (shunting_from_permutation l [] [] post) in H.
  cbn [app pending filter] in H. apply Forall_forall. intros it Hin.
  apply (Permutation_in _ H) in Hin. apply filter_In in Hin. apply Hin.
Qed.

Lemma print_postfix_parsed (pattern : string) (toks infix : list item)
    (e : re) :
  itemize_regex (Some pattern) = Some toks ->
  implicit_to_explicit_concatenation (Some toks) = Some infix ->
  parses 1 infix e ->
  print_postfix (parse_regex (Some pattern)) = postfix e ++ [LF].
Proof.
  intros Htoks Hinfix Hparse.
  destruct (shunting_yard_parsed infix e Hparse) as (post & Hp & Hast).
  rewrite itemize_regex_tokens in Htoks. injection Htoks as <-.
  rewrite implicit_to_explicit_concatenation_expand in Hinfix.
  unfold print_postfix, postfix_string. rewrite parse_regex_stages.
  destruct (Spec.tokens (list_ascii_of_string pattern)) as [|x toks] eqn:Et;
    [discriminate|].
  assert (Hinf : infix = Spec.expand (x :: toks)) by congruence.
  clear Hinfix. subst infix. rewrite Hp. cbn [items size].
  rewrite Nat2Z.id, firstn_all, list_ascii_of_string_of_list_ascii.
  f_equal.
  assert (Hcan : Forall canonical post).
  { apply Forall_forall. intros it Hin.
    apply (shunting_yard_In _ _ it Hp) in Hin.
    pose proof (expand_canonical (x :: toks)) as Hex.
    rewrite <- Et in Hex.
    specialize (Hex (proj1 (tokens_canonical_aux _))). rewrite Et in Hex.
    rewrite Forall_forall in Hex. now apply Hex. }
  pose proof (ast_loop_postfix post [] [e] Hast Hcan
                (shunting_yard_not_paren _ _ Hp)) as H.
  rewrite postfixes_cons in H. cbn in H. exact (eq_sym H).
Qed.

(** X20. For a pattern whose items, with the explicit concatenations,
    read as the infix expression [e], [print_postfix] on the result of
    [parse_regex] prints the postfix notation of [e] and a newline; for
    the example of regex.h, the pattern a(b|c)* gives abc|*. *)
Theorem print_postfix_expression (pattern : string) (toks infix : list item)
    (e : re) :
  itemize_regex (Some pattern) = Some toks ->
  implicit_to_explicit_concatenation (Some toks) = Some infix ->
  parses 1 infix e ->
  print_postfix (parse_regex (Some pattern)) = postfix e ++ [LF].
Proof. apply print_postfix_parsed. Qed.

Lemma fgets_first_line (pattern : string) (rest : list ascii) :
  plain (list_ascii_of_string pattern) ->
  (String.length pattern < 1023)%nat ->
  exists buf,
    fgets 1024 (list_ascii_of_string pattern ++ LF :: rest) =
      Some (buf, rest) /\
    string_of_list_ascii (tested buf) = pattern.
Proof.
  intros Hp Hlen. exists (list_ascii_of_string pattern ++ [LF]). split.
  - unfold fgets.
    destruct (list_ascii_of_string pattern ++ LF :: rest) as [|c0 s0] eqn:Hs;
      [destruct (list_ascii_of_string pattern); discriminate|].
    rewrite <- Hs. f_equal. apply fgets_chars_line.
    + apply Hp.
    + rewrite length_list_ascii_of_string. cbn. lia.
  - rewrite (tested_plain _ Hp). apply string_of_list_ascii_of_string.
Qed.

Lemma print_postfix_expression_witness :
  itemize_regex (Some "a(b|c)*"%string) =
    Some [new_item "a" OPERAND; new_item "(" L_PARENTHESIS; new_item "b" OPERAND;
     new_item "|" ALTERNATION; new_item "c" OPERAND;
     new_item ")" R_PARENTHESIS; new_item "*" KLEENE_STAR] /\
  implicit_to_explicit_concatenation
    (Some [new_item "a" OPERAND; new_item "(" L_PARENTHESIS; new_item "b" OPERAND;
     new_item "|" ALTERNATION; new_item "c" OPERAND;
     new_item ")" R_PARENTHESIS; new_item "*" KLEENE_STAR]) =
    Some [new_item "a" OPERAND; new_item "." CONCATENATION;
     new_item "(" L_PARENTHESIS; new_item "b" OPERAND;
     new_item "|" ALTERNATION; new_item "c" OPERAND;
     new_item ")" R_PARENTHESIS; new_item "*" KLEENE_STAR] /\
  parses 1
    [new_item "a" OPERAND; new_item "." CONCATENATION;
     new_item "(" L_PARENTHESIS; new_item "b" OPERAND;
     new_item "|" ALTERNATION; new_item "c" OPERAND;
     new_item ")" R_PARENTHESIS; new_item "*" KLEENE_STAR]
    (Cat (Lit "a") (Star (Alt (Lit "b") (Lit "c")))) /\
  print_postfix (parse_regex (Some "a(b|c)*"%string)) =
    list_ascii_of_string "abc|*." ++ [LF].
Proof.
  assert (Hp : parses 1
    [new_item "a" OPERAND; new_item "." CONCATENATION;
     new_item "(" L_PARENTHESIS; new_item "b" OPERAND;
     new_item "|" ALTERNATION; new_item "c" OPERAND;
     new_item ")" R_PARENTHESIS; new_item "*" KLEENE_STAR]
    (Cat (Lit "a") (Star (Alt (Lit "b") (Lit "c"))))).
  { apply parses_level2.
    apply (parses_concat [new_item "a" OPERAND]
             [new_item "(" L_PARENTHESIS; new_item "b" OPERAND;
              new_item "|" ALTERNATION; new_item "c" OPERAND;
              new_item ")" R_PARENTHESIS; new_item "*" KLEENE_STAR]
             (Lit "a") (Star (Alt (Lit "b") (Lit "c")))
             (new_item "." CONCATENATION)); [|reflexivity|].
    - apply parses_level3.
      apply (parses_operand (new_item "a" OPERAND)). reflexivity.
    - apply (parses_star
               [new_item "(" L_PARENTHESIS; new_item "b" OPERAND;
                new_item "|" ALTERNATION; new_item "c" OPERAND;
                new_item ")" R_PARENTHESIS]
               (Alt (Lit "b") (Lit "c")) (new_item "*" KLEENE_STAR));
        [|reflexivity].
      apply (parses_group (new_item "(" L_PARENTHESIS)
               (new_item ")" R_PARENTHESIS)
               [new_item "b" OPERAND; new_item "|" ALTERNATION;
                new_item "c" OPERAND]
               (Alt (Lit "b") (Lit "c"))); [reflexivity|reflexivity|].
      apply (parses_alternation [new_item "b" OPERAND]
               [new_item "c" OPERAND] (Lit "b") (Lit "c")
               (new_item "|" ALTERNATION)); [|reflexivity|].
      + apply parses_level2, parses_level3.
        apply (parses_operand (new_item "b" OPERAND)). reflexivity.
      + apply parses_level3.
        apply (parses_operand (new_item "c" OPERAND)). reflexivity. }
  split; [reflexivity|]. split; [reflexivity|]. split; [exact Hp|].
  apply (print_postfix_expression "a(b|c)*" _ _ _ eq_refl eq_refl Hp).
Defined.

Section MainModes.

Variable EPSILON_SYMBOL : ascii.
Variable MAX_STATES : nat.

(** X21. The mode -t of [main]: when the standard input holds a pattern
    that compiles on its first line and then lines to test (every line
    shorter than 1023 characters, ended by a newline, free of zero
    characters and carriage returns), [main] prints one digit per tested
    line, 1 when [match_nfa] accepts the line and 0 when it does not,
    then a newline, prints nothing on the standard error and returns
    0. *)
Theorem main_test_mode (argv0 pattern : string) (a : nfa)
    (lines : list (list ascii)) :
  plain (list_ascii_of_string pattern) ->
  (String.length pattern < 1023)%nat ->
  compile EPSILON_SYMBOL MAX_STATES pattern = Ok a ->
  Forall (fun l => plain l /\ (List.length l < 1023)%nat) lines ->
  exists verdicts,
    Forall2 (fun l b => match_nfa a l = Ok b) lines verdicts /\
    main EPSILON_SYMBOL MAX_STATES argv0 (Z.of_nat (nat_of_ascii "t"))
      (list_ascii_of_string pattern ++ LF ::
       List.concat (map (fun l => l ++ [LF]) lines)) =
      Ok (mk_outcome 0 (map digit verdicts ++ [LF]) []).
Proof.
  intros Hp Hlen H Hlines.
  destruct (fgets_first_line pattern
              (List.concat (map (fun l => l ++ [LF]) lines)) Hp Hlen)
    as (buf & Hbuf & Hstr).
  unfold compile in H.
  destruct (regex_to_nfa_wf EPSILON_SYMBOL MAX_STATES _ a H) as [Hwf _].
  destruct (test_loop_lines a lines Hwf Hlines
              (S (List.length (List.concat (map (fun l => l ++ [LF]) lines))))
              ltac:(lia)) as (bs & Hbs & Hout).
  exists bs. split; [exact Hbs|].
  unfold main. cbn [Z.eqb nat_of_ascii Z.of_nat].
  change (Z.of_nat (nat_of_ascii "t") =? -1) with false.
  change (Z.of_nat (nat_of_ascii "t") =? Z.of_nat (nat_of_ascii "r"))
    with false.
  rewrite Z.eqb_refl. cbv iota. rewrite Hbuf. cbv beta iota zeta.
  rewrite Hstr. unfold test_strings_stdin. rewrite H. cbn [bind].
  rewrite Hout. reflexivity.
Qed.

(** X22. The mode -r of [main]: when the first line of the standard
    input is a pattern that reads as the infix expression [e], [main]
    prints the postfix notation of [e] and a newline, prints nothing on
    the standard error and returns 0, whatever follows the first
    line. *)
Theorem main_postfix_mode (argv0 pattern : string) (toks infix : list item)
    (e : re) (rest : list ascii) :
  plain (list_ascii_of_string pattern) ->
  (String.length pattern < 1023)%nat ->
  itemize_regex (Some pattern) = Some toks ->
  implicit_to_explicit_concatenation (Some toks) = Some infix ->
  parses 1 infix e ->
  main EPSILON_SYMBOL MAX_STATES argv0 (Z.of_nat (nat_of_ascii "r"))
    (list_ascii_of_string pattern ++ LF :: rest) =
    Ok (mk_outcome 0 (postfix e ++ [LF]) []).
Proof.
  intros Hp Hlen Htoks Hinfix Hparse.
  destruct (fgets_first_line pattern rest Hp Hlen) as (buf & Hbuf & Hstr).
  unfold main.
  change (Z.of_nat (nat_of_ascii "r") =? -1) with false.
  rewrite Z.eqb_refl. cbv iota. rewrite Hbuf. cbv beta iota zeta.
  rewrite Hstr.
  rewrite (print_postfix_parsed pattern toks infix e Htoks Hinfix Hparse).
  reflexivity.
Qed.

End MainModes.

Lemma main_test_mode_witness :
  plain (list_ascii_of_string "a") /\
  (String.length "a" < 1023)%nat /\
  compile zero 64 "a" = Ok literal_a_nfa /\
  Forall (fun l => plain l /\ (List.length l < 1023)%nat)
         [["a"%char]; ["b"%char]] /\
  exists verdicts,
    Forall2 (fun l b => match_nfa literal_a_nfa l = Ok b)
            [["a"%char]; ["b"%char]] verdicts /\
    main zero 64 "regex" (Z.of_nat (nat_of_ascii "t"))
      (list_ascii_of_string "a" ++ LF ::
       List.concat (map (fun l => l ++ [LF]) [["a"%char]; ["b"%char]])) =
      Ok (mk_outcome 0 (map digit verdicts ++ [LF]) []).
Proof.
  assert (Hpl : plain (list_ascii_of_string "a")).
  { unfold plain. cbn [list_ascii_of_string In].
    repeat split; intros H; repeat (destruct H as [H|H]; [discriminate H|]);
      exact H. }
  assert (Hlen : (String.length "a" < 1023)%nat) by (cbn; lia).
  assert (H : compile zero 64 "a" = Ok literal_a_nfa)
    by (vm_compute; reflexivity).
  assert (Hl : Forall (fun l => plain l /\ (List.length l < 1023)%nat)
                      [["a"%char]; ["b"%char]]).
  { repeat constructor; try (cbn; lia); intros [E|[]]; discriminate E. }
  split; [exact Hpl|]. split; [exact Hlen|]. split; [exact H|].
  split; [exact Hl|].
  apply (main_test_mode zero 64 "regex" "a" literal_a_nfa _ Hpl Hlen H Hl).
Defined.

Lemma main_postfix_mode_witness :
  plain (list_ascii_of_string "a(b|c)*") /\
  (String.length "a(b|c)*" < 1023)%nat /\
  itemize_regex (Some "a(b|c)*"%string) =
    Some [new_item "a" OPERAND; new_item "(" L_PARENTHESIS; new_item "b" OPERAND;
     new_item "|" ALTERNATION; new_item "c" OPERAND;
     new_item ")" R_PARENTHESIS; new_item "*" KLEENE_STAR] /\
  implicit_to_explicit_concatenation
    (Some [new_item "a" OPERAND; new_item "(" L_PARENTHESIS; new_item "b" OPERAND;
     new_item "|" ALTERNATION; new_item "c" OPERAND;
     new_item ")" R_PARENTHESIS; new_item "*" KLEENE_STAR]) =
    Some [new_item "a" OPERAND; new_item "." CONCATENATION;
     new_item "(" L_PARENTHESIS; new_item "b" OPERAND;
     new_item "|" ALTERNATION; new_item "c" OPERAND;
     new_item ")" R_PARENTHESIS; new_item "*" KLEENE_STAR] /\
  parses 1
    [new_item "a" OPERAND; new_item "." CONCATENATION;
     new_item "(" L_PARENTHESIS; new_item "b" OPERAND;
     new_item "|" ALTERNATION; new_item "c" OPERAND;
     new_item ")" R_PARENTHESIS; new_item "*" KLEENE_STAR]
    (Cat (Lit "a") (Star (Alt (Lit "b") (Lit "c")))) /\
  main zero 64 "regex" (Z.of_nat (nat_of_ascii "r"))
    (list_ascii_of_string "a(b|c)*" ++ LF :: list_ascii_of_string "ignored") =
    Ok (mk_outcome 0 (list_ascii_of_string "abc|*." ++ [LF]) []).
Proof.
  assert (Hp : parses 1
    [new_item "a" OPERAND; new_item "." CONCATENATION;
     new_item "(" L_PARENTHESIS; new_item "b" OPERAND;
     new_item "|" ALTERNATION; new_item "c" OPERAND;
     new_item ")" R_PARENTHESIS; new_item "*" KLEENE_STAR]
    (Cat (Lit "a") (Star (Alt (Lit "b") (Lit "c"))))).
  { apply parses_level2.
    apply (parses_concat [new_item "a" OPERAND]
             [new_item "(" L_PARENTHESIS; new_item "b" OPERAND;
              new_item "|" ALTERNATION; new_item "c" OPERAND;
              new_item ")" R_PARENTHESIS; new_item "*" KLEENE_STAR]
             (Lit "a") (Star (Alt (Lit "b") (Lit "c")))
             (new_item "." CONCATENATION)); [|reflexivity|].
    - apply parses_level3.
      apply (parses_operand (new_item "a" OPERAND)). reflexivity.
    - apply (parses_star
               [new_item "(" L_PARENTHESIS; new_item "b" OPERAND;
                new_item "|" ALTERNATION; new_item "c" OPERAND;
                new_item ")" R_PARENTHESIS]
               (Alt (Lit "b") (Lit "c")) (new_item "*" KLEENE_STAR));
        [|reflexivity].
      apply (parses_group (new_item "(" L_PARENTHESIS)
               (new_item ")" R_PARENTHESIS)
               [new_item "b" OPERAND; new_item "|" ALTERNATION;
                new_item "c" OPERAND]
               (Alt (Lit "b") (Lit "c"))); [reflexivity|reflexivity|].
      apply (parses_alternation [new_item "b" OPERAND]
               [new_item "c" OPERAND] (Lit "b") (Lit "c")
               (new_item "|" ALTERNATION)); [|reflexivity|].
      + apply parses_level2, parses_level3.
        apply (parses_operand (new_item "b" OPERAND)). reflexivity.
      + apply parses_level3.
        apply (parses_operand (new_item "c" OPERAND)). reflexivity. }
  assert (Hpl : plain (list_ascii_of_string "a(b|c)*")).
  { unfold plain. cbn [list_ascii_of_string In].
    repeat split; intros H; repeat (destruct H as [H|H]; [discriminate H|]);
      exact H. }
  assert (Hlen : (String.length "a(b|c)*" < 1023)%nat) by (cbn; lia).
  split; [exact Hpl|]. split; [exact Hlen|].
  split; [reflexivity|]. split; [reflexivity|]. split; [exact Hp|].
  apply (main_postfix_mode zero 64 "regex" "a(b|c)*" _ _ _
           (list_ascii_of_string "ignored") Hpl Hlen eq_refl eq_refl Hp).
Defined.

(* ================================================================= *)
(** ** Whole-string matching, for every pattern *)

Lemma parsed_pattern_language (EPSILON_SYMBOL : ascii) (MAX_STATES : nat)
    (pattern : string) (toks infix : list item) (e : re) (a : nfa) :
  itemize_regex (Some pattern) = Some toks ->
  implicit_to_explicit_concatenation (Some toks) = Some infix ->
  parses 1 infix e ->
  compile EPSILON_SYMBOL MAX_STATES pattern = Ok a ->
  forall w : list ascii,
    ~ In EPSILON_SYMBOL w ->
    exists b : bool,
      match_nfa a w = Ok b /\ (b = true <-> lang EPSILON_SYMBOL e w).
Proof.
  intros Htoks Hinfix Hparse H.
  destruct (compile_pipeline EPSILON_SYMBOL MAX_STATES pattern a H)
    as (toks' & post & H1 & H2 & _ & H4).
  rewrite Htoks in H1. injection H1 as <-. rewrite Hinfix in H2.
  destruct (shunting_yard_parsed infix e Hparse) as (post' & Hp & Hast).
  rewrite H2 in Hp. injection Hp as <-.
  unfold compile in H.
  destruct (regex_to_nfa_language EPSILON_SYMBOL MAX_STATES _ a H)
    as (e' & es & Hast' & Hlang).
  rewrite H4, Hast in Hast'. injection Hast' as <- <-. exact Hlang.
Qed.



